(** * GithubScan: a shallow embedding of [GitHubreposcan.py]

    The script walks the content tree of a GitHub repository, matches one
    credential-shaped regular expression against every line of every file
    and writes the findings to a spreadsheet.  This development embeds the
    four functions of the script ([check_file_for_passwords],
    [process_repository], [write_to_excel], [main]) and proves the
    properties its specification states about them.

    Conventions.
    - A Python [str] is a list of Unicode code points ([N]); [bytes] is a
      list of [Byte.byte]; a Python [int] is a [Z].
    - [processed_files] is a [gset] of paths, the worksheet a [gmap] from
      (row, column) to cell values.
    - Effects (printing, calls to the content provider, saving the
      workbook) are recorded, in order, in a trace of events.
    - An exception is a value: a call that may raise returns [Ok] or
      [Raise] with the text of the exception.  This holds for the calls into
      the libraries too: [sheet.cell] refuses a text with a control
      character, and the interpreter refuses a call that is nested too
      deep; both exceptions take the paths that the script gives them.
    - The recursion of [process_repository] is bounded by the recursion
      limit; its [while] loop may run for ever (on a listing that never
      ends), so the loop is given fuel and reports, with the state reached,
      when the fuel has run out. *)

From Stdlib Require Import ZArith NArith Bool Lia.
From stdpp Require Import base option list sorting strings gmap sets.

Open Scope N_scope.

(** ** Text *)

Module Text.

(** A code point, a string of them, and the way string literals of the
    script are written here. *)
Abbreviation char := N.
Abbreviation str := (list N).

Fixpoint txt (s : string) : str :=
  match s with
  | EmptyString => []
  | String a s' => Ascii.N_of_ascii a :: txt s'
  end.

Arguments txt : simpl never.

(** [Py_UNICODE_ISSPACE]: what [str.strip()] removes and what [\s]
    matches in a [str] pattern. *)
Definition isspace (c : char) : bool :=
  ((0x09 <=? c) && (c <=? 0x0D)) || ((0x1C <=? c) && (c <=? 0x1F))
  || (c =? 0x20) || (c =? 0x85) || (c =? 0xA0) || (c =? 0x1680)
  || ((0x2000 <=? c) && (c <=? 0x200A))
  || (c =? 0x2028) || (c =? 0x2029) || (c =? 0x202F) || (c =? 0x205F)
  || (c =? 0x3000).

(** [Py_UNICODE_ISLINEBREAK]: the line boundaries of [str.splitlines()]. *)
Definition islinebreak (c : char) : bool :=
  ((0x0A <=? c) && (c <=? 0x0D)) || ((0x1C <=? c) && (c <=? 0x1E))
  || (c =? 0x85) || (c =? 0x2028) || (c =? 0x2029).

(** [str.splitlines()]: the text between line boundaries, boundaries
    dropped, CR LF counted as one boundary, and no empty last line after a
    final boundary. *)
Fixpoint splitlines (s : str) : list str :=
  match s with
  | [] => []
  | c :: s' =>
    if islinebreak c then
      [] :: match s' with
            | c' :: s'' =>
              if (c =? 0x0D) && (c' =? 0x0A) then splitlines s''
              else splitlines s'
            | [] => splitlines s'
            end
    else
      match splitlines s' with
      | [] => [[c]]
      | l :: ls => (c :: l) :: ls
      end
  end.

Fixpoint lstrip (s : str) : str :=
  match s with
  | c :: s' => if isspace c then lstrip s' else s
  | [] => []
  end.

Definition rstrip (s : str) : str := rev (lstrip (rev s)).

(** [str.strip()] *)
Definition strip (s : str) : str := rstrip (lstrip s).

(** [enumerate(l, start)] *)
Fixpoint enumerate {A} (start : Z) (l : list A) : list (Z * A) :=
  match l with
  | [] => []
  | x :: l' => (start, x) :: enumerate (start + 1) l'
  end.

(** [bytes.decode("utf-8", errors="ignore")]: well-formed UTF-8 sequences
    are decoded, every byte that does not start one is dropped and decoding
    resumes at the next byte. *)
Definition cont (b : N) : bool := (0x80 <=? b) && (b <=? 0xBF).

Fixpoint decode_utf8_ignore_N (bs : list N) : str :=
  match bs with
  | [] => []
  | b0 :: r0 =>
    if b0 <? 0x80 then b0 :: decode_utf8_ignore_N r0
    else
      match r0 with
      | b1 :: r1 =>
        if (0xC2 <=? b0) && (b0 <=? 0xDF) && cont b1 then
          ((b0 - 0xC0) * 64 + (b1 - 0x80)) :: decode_utf8_ignore_N r1
        else
          match r1 with
          | b2 :: r2 =>
            if (0xE0 <=? b0) && (b0 <=? 0xEF) && cont b1 && cont b2
               && negb ((b0 =? 0xE0) && (b1 <? 0xA0))
               && negb ((b0 =? 0xED) && (0xA0 <=? b1)) then
              ((b0 - 0xE0) * 4096 + (b1 - 0x80) * 64 + (b2 - 0x80))
                :: decode_utf8_ignore_N r2
            else
              match r2 with
              | b3 :: r3 =>
                if (0xF0 <=? b0) && (b0 <=? 0xF4)
                   && cont b1 && cont b2 && cont b3
                   && negb ((b0 =? 0xF0) && (b1 <? 0x90))
                   && negb ((b0 =? 0xF4) && (0x90 <=? b1)) then
                  ((b0 - 0xF0) * 262144 + (b1 - 0x80) * 4096
                   + (b2 - 0x80) * 64 + (b3 - 0x80))
                    :: decode_utf8_ignore_N r3
                else decode_utf8_ignore_N r0
              | [] => decode_utf8_ignore_N r0
              end
          | [] => decode_utf8_ignore_N r0
          end
      | [] => []
      end
  end.

Abbreviation bytes := (list Byte.byte).

Definition decode_utf8_ignore (bs : bytes) : str :=
  decode_utf8_ignore_N (map Byte.to_N bs).

End Text.
Import Text.

(** ** The fragment of Python's [re] that [PASSWORD_REGEX] uses

    A backtracking matcher in continuation-passing style: alternatives are
    tried left to right, repeats are greedy, and [search] returns the match
    at the leftmost position that has one. *)

Module Re.

(** An item of a character set: one character, or the category [\s]. *)
Inductive set_item :=
| SetChar (c : char)
| CategorySpace.

Record charset := { negate : bool; items : list set_item }.

Inductive pattern :=
| Empty
| Literal (c : char)
| In (cs : charset)
| Cat (r1 r2 : pattern)
| Branch (r1 r2 : pattern)
| MaxRepeat (lo : nat) (hi : option nat) (cs : charset)
| Subpattern (group : nat) (r : pattern).

Definition item_match (i : set_item) (c : char) : bool :=
  match i with
  | SetChar c' => c =? c'
  | CategorySpace => isspace c
  end.

Definition in_charset (cs : charset) (c : char) : bool :=
  xorb (negate cs) (existsb (fun i => item_match i c) (items cs)).

(** Case-insensitive comparison with an ASCII letter of the pattern.
    [lower] is Python's lower-casing on every code point that it sends to
    an ASCII letter (the capitals, U+0130 and the Kelvin sign U+212A) and
    leaves the others alone; [fixes] is the one extra equivalent that [re]
    adds for an ASCII letter: the long s U+017F for [s]. *)
Definition lower (c : char) : char :=
  if (0x41 <=? c) && (c <=? 0x5A) then c + 32
  else if c =? 0x212A then 0x6B
  else if c =? 0x130 then 0x69
  else c.

Definition fixes (l : char) : list char :=
  if l =? 0x73 then [0x17F] else [].

Definition literal_match (ignorecase : bool) (l c : char) : bool :=
  if ignorecase then
    (lower c =? lower l) || existsb (N.eqb (lower c)) (fixes (lower l))
  else c =? l.

Arguments literal_match : simpl never.
Arguments in_charset : simpl never.

(** The groups of a match, the most recent first. *)
Definition groups := list (nat * str).

Definition group (g : groups) (n : nat) : option str :=
  snd <$> List.find (fun b => Nat.eqb (fst b) n) g.

(** Greedy repeat of one character set, between [lo] and [hi] times. *)
Fixpoint max_repeat {A : Type} (cs : charset) (lo : nat) (hi : option nat)
    (s : str) (k : str → option A) : option A :=
  let stop := match lo with O => k s | S _ => None end in
  match s with
  | c :: s' =>
    if in_charset cs c && negb (bool_decide (hi = Some O)) then
      match max_repeat cs (pred lo) (pred <$> hi) s' k with
      | Some x => Some x
      | None => stop
      end
    else stop
  | [] => stop
  end.

Fixpoint matches (ignorecase : bool) (r : pattern) (s : str) (g : groups)
    (k : str → groups → option groups) : option groups :=
  match r with
  | Empty => k s g
  | Literal l =>
    match s with
    | c :: s' => if literal_match ignorecase l c then k s' g else None
    | [] => None
    end
  | In cs =>
    match s with
    | c :: s' => if in_charset cs c then k s' g else None
    | [] => None
    end
  | Cat r1 r2 =>
    matches ignorecase r1 s g (fun s1 g1 => matches ignorecase r2 s1 g1 k)
  | Branch r1 r2 =>
    match matches ignorecase r1 s g k with
    | Some x => Some x
    | None => matches ignorecase r2 s g k
    end
  | MaxRepeat lo hi cs => max_repeat cs lo hi s (fun s' => k s' g)
  | Subpattern n r =>
    matches ignorecase r s g
      (fun s' g' => k s' ((n, take (length s - length s') s) :: g'))
  end.

(** [re.search]: the match at the first position where there is one. *)
Fixpoint search (ignorecase : bool) (r : pattern) (s : str) : option groups :=
  match matches ignorecase r s [] (fun _ g => Some g) with
  | Some g => Some g
  | None =>
    match s with
    | [] => None
    | _ :: s' => search ignorecase r s'
    end
  end.

(** A literal word, and the choice between several patterns. *)
Definition word (w : str) : pattern := foldr (fun c r => Cat (Literal c) r) Empty w.

Fixpoint branches (rs : list pattern) : pattern :=
  match rs with
  | [] => In {| negate := false; items := [] |}
  | [r] => r
  | r :: rs' => Branch r (branches rs')
  end.

End Re.
Import Re.

(** ** Constants of the script *)

Definition keywords : list str :=
  [txt "password"; txt "passwd"; txt "pwd"; txt "secret"; txt "token"; txt "key"].

Definition spaces : charset := {| negate := false; items := [CategorySpace] |}.
Definition separator : charset :=
  {| negate := false; items := [SetChar 0x3A; SetChar 0x3D] |}.
Definition quote : charset :=
  {| negate := false; items := [SetChar 0x27; SetChar 0x22] |}.
Definition value_char : charset :=
  {| negate := true;
     items := [CategorySpace; SetChar 0x27; SetChar 0x22; SetChar 0x26; SetChar 0x3B] |}.

(** What follows the keyword, with [Q] for the set of the two quote
    characters (U+0027, U+0022): [\s*[:=]\s*Q?([^\sQ&;]+)Q?] *)
Definition after_keyword : pattern :=
  Cat (MaxRepeat 0 None spaces)
 (Cat (In separator)
 (Cat (MaxRepeat 0 None spaces)
 (Cat (MaxRepeat 0 (Some 1%nat) quote)
 (Cat (Subpattern 2 (MaxRepeat 1 None value_char))
      (MaxRepeat 0 (Some 1%nat) quote))))).

(** [(password|passwd|pwd|secret|token|key)\s*[:=]\s*Q?([^\sQ&;]+)Q?],
    always used with [re.IGNORECASE]. *)
Definition PASSWORD_REGEX : pattern :=
  Cat (Subpattern 1 (branches (map word keywords))) after_keyword.

Definition EXCEL_FILE : str := txt "hardcoded_passwords.xlsx".
Definition SHEET_NAME : str := txt "Passwords".
Definition START_ROW : Z := 1.
Definition START_COL : Z := 1.

(** ** The matcher *)

(** One entry of the list [check_file_for_passwords] returns: what
    [match.group(2)] gave, the line number, the stripped line. *)
Definition line_match : Type := option str * Z * str.

Definition check_file_for_passwords (file_content file_path : str)
    : list line_match :=
  let lines := splitlines file_content in
  fold_left
    (fun matches '(i, line) =>
       match search true PASSWORD_REGEX line with
       | Some m =>
         let password := group m 2 in
         matches ++ [(password, (i + 1)%Z, strip line)]
       | None => matches
       end)
    (enumerate 0 lines) [].

(** ** Calls that may raise *)

(** The result of a call that may raise; an exception is represented by
    the text [str(e)] that the script prints. *)
Inductive result (A : Type) :=
| Ok (a : A)
| Raise (e : str).
Arguments Ok {A} a.
Arguments Raise {A} e.

(** One statement after the other: an exception ends the sequence. *)
#[global] Instance result_bind : MBind result :=
  fun A B k r => match r with Ok a => k a | Raise e => Raise e end.

(** A [for] loop whose body may raise. *)
Fixpoint for_each {A S : Type} (l : list A) (s : S) (body : S → A → result S)
    : result S :=
  match l with
  | [] => Ok s
  | x :: l' => s' ← body s x; for_each l' s' body
  end.

(** ** The report writer *)

(** The value of a worksheet cell. *)
Inductive value :=
| VNone
| VStr (s : str)
| VInt (z : Z).

(** What the script uses of an [openpyxl] workbook: the title of its active
    sheet and the cells of that sheet, by (row, column). *)
Record workbook := { title : str; cells : gmap (Z * Z) value }.

(** [openpyxl.Workbook()] *)
Definition Workbook : workbook := {| title := txt "Sheet"; cells := ∅ |}.

Definition set_title (t : str) (sheet : workbook) : workbook :=
  {| title := t; cells := cells sheet |}.

(** The cell at [(row, column)] takes the value [v]. *)
Definition put (sheet : workbook) (row column : Z) (v : value) : workbook :=
  {| title := title sheet; cells := <[(row, column) := v]> (cells sheet) |}.

(** What a worksheet refuses in a string ([ILLEGAL_CHARACTERS_RE]): the
    control characters below U+0020 other than tab, LF and CR. *)
Definition illegal (c : char) : bool :=
  (c <=? 0x08) || ((0x0B <=? c) && (c <=? 0x0C)) || ((0x0E <=? c) && (c <=? 0x1F)).

(** The longest string that a cell holds. *)
Definition MAX_LENGTH : nat := N.to_nat 32767.

(** [Cell.check_string]: a string is cut at 32767 characters, and what is
    left is refused with [IllegalCharacterError] when it holds an illegal
    character (the text of the exception is that of openpyxl 3.1). *)
Definition check_string (s : str) : result str :=
  let s := take MAX_LENGTH s in
  if existsb illegal s then Raise (s ++ txt " cannot be used in worksheets.")
  else Ok s.

(** [sheet.cell(row=, column=, value=)]: a string goes through
    [check_string]; a number and [None] are taken as they are.  (The rows
    and columns of the script start at 1, so that the [ValueError] for
    smaller ones does not arise.) *)
Definition cell (sheet : workbook) (row column : Z) (v : value) : result workbook :=
  match v with
  | VStr s => s ← check_string s; Ok (put sheet row column (VStr s))
  | _ => Ok (put sheet row column v)
  end.

(** A finding: (file_path, matched_string, line_number, full_line). *)
Definition finding : Type := str * option str * Z * str.

Definition of_group (o : option str) : value :=
  match o with
  | Some s => VStr s
  | None => VNone
  end.

Definition headers : list str :=
  [txt "File Path"; txt "Matched String"; txt "Line Number"; txt "Full Line"].

(** The workbook [write_to_excel] has built when it calls [save], or the
    exception of the first cell that is refused. *)
Definition filled_workbook (results : list finding) : result workbook :=
  let workbook := Workbook in
  let sheet := set_title SHEET_NAME workbook in
  sheet ← for_each (enumerate START_COL headers) sheet
            (fun sheet '(col, header) => cell sheet START_ROW col (VStr header));
  for_each (enumerate (START_ROW + 1) results) sheet
    (fun sheet '(row, (file_path, matched_string, line_number, full_line)) =>
       sheet ← cell sheet row START_COL (VStr file_path);
       sheet ← cell sheet row (START_COL + 1) (of_group matched_string);
       sheet ← cell sheet row (START_COL + 2) (VInt line_number);
       cell sheet row (START_COL + 3) (VStr full_line)).

(** Reading a sheet back: [max_row], [max_column] and the rows of values
    ([iter_rows(values_only=True)]); a cell never written reads as [None]. *)
Definition max_row (sheet : workbook) : Z :=
  foldr Z.max 0%Z ((fun kv => kv.1.1) <$> map_to_list (cells sheet)).

Definition max_column (sheet : workbook) : Z :=
  foldr Z.max 0%Z ((fun kv => kv.1.2) <$> map_to_list (cells sheet)).

Definition cell_value (sheet : workbook) (row column : Z) : value :=
  default VNone (cells sheet !! (row, column)).

Definition iter_rows (sheet : workbook) : list (list value) :=
  (fun r => (fun c => cell_value sheet r c) <$> seqZ 1 (max_column sheet))
    <$> seqZ 1 (max_row sheet).

Definition row_of (f : finding) : list value :=
  let '(file_path, matched_string, line_number, full_line) := f in
  [VStr file_path; of_group matched_string; VInt line_number; VStr full_line].

(** ** The content provider, the environment and the trace of effects *)

(** A [ContentFile]. *)
Record ContentFile := {
  type : str;
  path : str;
  decoded_content : result bytes
}.

Section World.
Context {Repository Submodule : Type}.

(** What the script reads and calls: [os.environ], the GitHub client,
    the repository objects and [workbook.save]; and what the interpreter
    allows: [recursion_limit] is the number of calls of
    [process_repository] that can be nested in the one that [main] makes
    before the recursion limit is reached ([sys.getrecursionlimit()] less
    the frames in use; the frames of the library calls are not counted). *)
Record world := {
  recursion_limit : nat;
  environ : str → option str;
  get_repo : str → str → result Repository;
  full_name : Repository → str;
  get_contents : Repository → str → result (list ContentFile);
  get_submodule : Repository → str → result Submodule;
  module : Submodule → result (option Repository);
  save : workbook → str → result ()
}.

(** The effects, as they happen: a line printed, a call to the provider
    ([DecodedContent]: the content of a file entry is asked for), the
    workbook saved. *)
Inductive event :=
| Print (line : str)
| GetRepo (token name : str)
| GetContents (repo : Repository) (p : str)
| DecodedContent (p : str)
| GetSubmodule (repo : Repository) (p : str)
| Module (sub : Submodule)
| Save (wb : workbook) (filename : str).

(** The state of a walk: the set [processed_files], shared by all the
    recursive calls, and the trace so far. *)
Record state := { processed_files : gset str; trace : list event }.

Definition emit (ev : event) (st : state) : state :=
  {| processed_files := processed_files st; trace := trace st ++ [ev] |}.

Definition print (line : str) : state → state := emit (Print line).

Definition add (p : str) (st : state) : state :=
  {| processed_files := {[p]} ∪ processed_files st; trace := trace st |}.

(** [results.append(...)] for every match of one file. *)
Definition append_matches (p : str) (matches : list line_match)
    (results : list finding) : list finding :=
  fold_left
    (fun results '(password, line_number, full_line) =>
       results ++ [(p, password, line_number, full_line)])
    matches results.

(** How a call of [process_repository] stands, with the state it has
    reached: it returned a list, an exception left it, or the fuel ran out
    before it ended. *)
Inductive outcome :=
| Returned (results : list finding) (st : state)
| Raised (e : str) (st : state)
| OutOfFuel (st : state).

Definition final (o : outcome) : state :=
  match o with
  | Returned _ st | Raised _ st | OutOfFuel st => st
  end.

Definition returned (o : outcome) : list finding :=
  match o with
  | Returned results _ => results
  | _ => []
  end.

Definition finished (o : outcome) : bool :=
  match o with
  | OutOfFuel _ => false
  | _ => true
  end.

(** What one iteration of the [while contents:] loop does: it goes on to
    the next iteration, or [process_repository] stops there (an exception
    leaves it, or the recursive call ran out of fuel). *)
Inductive iteration :=
| Next (contents : list ContentFile) (results : list finding) (st : state)
| Stop (o : outcome).

Variable w : world.

(** The body of the loop, for the entry [content] popped from the front
    of the queue; [rec] is the recursive call. *)
Definition loop_body (rec : Repository → state → outcome)
    (repo : Repository) (content : ContentFile) (contents : list ContentFile)
    (results : list finding) (st : state) : iteration :=
  if bool_decide (type content = txt "file") then
    if bool_decide (path content ∈ processed_files st) then
      Next contents results st
    else
      let st := add (path content) st in
      let st := emit (DecodedContent (path content)) st in
      match decoded_content content with
      | Ok b =>
        let file_content := decode_utf8_ignore b in
        let matches := check_file_for_passwords file_content (path content) in
        Next contents (append_matches (path content) matches results) st
      | Raise e =>
        Next contents results
          (print (txt "Error reading file " ++ path content ++ txt ": " ++ e) st)
      end
  else if bool_decide (type content = txt "dir") then
    let st := emit (GetContents repo (path content)) st in
    match get_contents w repo (path content) with
    | Ok l => Next (contents ++ l) results st
    | Raise e => Stop (Raised e st)
    end
  else if bool_decide (type content = txt "submodule") then
    let failed e st :=
      Next contents results
        (print (txt "Error processing submodule " ++ path content ++ txt ": " ++ e) st) in
    let st := emit (GetSubmodule repo (path content)) st in
    match get_submodule w repo (path content) with
    | Ok submodule =>
      let st := emit (Module submodule) st in
      match module w submodule with
      | Ok (Some sub_repo) =>
        match rec sub_repo st with
        | Returned sub_results st => Next contents (results ++ sub_results) st
        | Raised e st => failed e st
        | OutOfFuel st => Stop (OutOfFuel st)
        end
      | Ok None =>
        Next contents results
          (print (txt "Warning: Could not get repository object for submodule: "
                  ++ path content) st)
      | Raise e => failed e st
      end
    | Raise e => failed e st
    end
  else
    Next contents results
      (print (txt "Unknown content type: " ++ type content
              ++ txt " in " ++ path content) st).

(** The [while contents:] loop; [n] bounds the number of iterations. *)
Fixpoint while_contents (rec : Repository → state → outcome)
    (n : nat) (repo : Repository) (contents : list ContentFile)
    (results : list finding) (st : state) : outcome :=
  match n with
  | O => OutOfFuel st
  | S n' =>
    match contents with
    | [] => Returned results st
    | content :: contents =>
      match loop_body rec repo content contents results st with
      | Next contents results st => while_contents rec n' repo contents results st
      | Stop o => o
      end
    end
  end.

(** A call that would exceed the recursion limit: the interpreter raises
    [RecursionError] in its place. *)
Definition too_deep : Repository → state → outcome :=
  fun _ st => Raised (txt "maximum recursion depth exceeded") st.

(** [process_repository(repo, processed_files)], when [depth] more calls
    can be nested in it; [fuel] bounds the number of iterations of each
    [while] loop. *)
Fixpoint process_repository (depth fuel : nat) (repo : Repository) (st : state)
    : outcome :=
  let rec :=
    match depth with
    | O => too_deep
    | S depth' => process_repository depth' fuel
    end in
  let st := emit (GetContents repo []) st in
  match get_contents w repo [] with
  | Ok contents => while_contents rec fuel repo contents [] st
  | Raise e => Raised e st
  end.

(** [write_to_excel(results)], from the trace [tr] on. *)
Definition write_to_excel (results : list finding) (tr : list event)
    : result () * list event :=
  match filled_workbook results with
  | Ok workbook =>
    let tr := tr ++ [Save workbook EXCEL_FILE] in
    match save w workbook EXCEL_FILE with
    | Ok _ => (Ok (), tr ++ [Print (txt "Results written to " ++ EXCEL_FILE)])
    | Raise e => (Raise e, tr)
    end
  | Raise e => (Raise e, tr)
  end.

(** [main()]: how it ends ([Ok]: it returned, [Raise]: an exception left
    it) and the trace of its effects; [None] when a loop of the walk has
    not ended within [fuel] iterations. *)
Definition main (fuel : nat) : option (result () * list event) :=
  match environ w (txt "GITHUB_TOKEN") with
  | None | Some [] =>
    Some (Ok (),
      [Print (txt "Error: GITHUB_TOKEN environment variable not set.");
       Print (txt "Please set the GITHUB_TOKEN environment variable with your GitHub personal access token.");
       Print (txt "You can create a personal access token here: https://github.com/settings/tokens")])
  | Some github_token =>
    match environ w (txt "GITHUB_REPO") with
    | None | Some [] =>
      Some (Ok (),
        [Print (txt "Error: GITHUB_REPO environment variable not set.");
         Print (txt "Please set the GITHUB_REPO environment variable with the name of the repository to scan (e.g., 'your_username/your_repo_name').")])
    | Some repo_name =>
      let tr := [GetRepo github_token repo_name] in
      match get_repo w github_token repo_name with
      | Raise e =>
        Some (Ok (),
          tr ++ [Print (txt "Error connecting to GitHub or accessing the repository: " ++ e);
                 Print (txt "Please check your GITHUB_TOKEN and GITHUB_REPO environment variables.")])
      | Ok repo =>
        let tr := tr ++ [Print (txt "Scanning repository: " ++ full_name w repo)] in
        let processed_files := ∅ in
        match process_repository (recursion_limit w) fuel repo
                {| processed_files := processed_files; trace := tr |} with
        | OutOfFuel _ => None
        | Raised e st => Some (Raise e, trace st)
        | Returned results st =>
          match results with
          | _ :: _ => Some (write_to_excel results (trace st))
          | [] =>
            Some (Ok (),
              trace st ++ [Print (txt "No potential hardcoded passwords found.")])
          end
        end
      end
    end
  end.
End World.

Arguments world : clear implicits.
Arguments iteration : clear implicits.
Arguments outcome : clear implicits.
Arguments event : clear implicits.
Arguments state : clear implicits.

(** * Definitions used to state and prove the properties *)

(** ** What the matcher computes, without continuations *)

(** The longest prefix of characters in [P], and what is left after it. *)
Fixpoint run (P : char → bool) (s : str) : str :=
  match s with
  | c :: s' => if P c then c :: run P s' else []
  | [] => []
  end.

Fixpoint skip (P : char → bool) (s : str) : str :=
  match s with
  | c :: s' => if P c then skip P s' else s
  | [] => []
  end.

(** The rest of [s] after the word [w], compared without case. *)
Fixpoint strip_word (w s : str) : option str :=
  match w with
  | [] => Some s
  | l :: w' =>
    match s with
    | c :: s' => if literal_match true l c then strip_word w' s' else None
    | [] => None
    end
  end.

(** The first word of [ws] at the start of [s] after which [k] succeeds. *)
Fixpoint first_word {X} (ws : list str) (s : str) (k : str → option X) : option X :=
  match ws with
  | [] => None
  | w :: ws' =>
    match strip_word w s ≫= k with
    | Some x => Some x
    | None => first_word ws' s k
    end
  end.

Definition drop_quote (s : str) : str :=
  match s with
  | c :: t => if in_charset quote c then t else s
  | [] => []
  end.

(** The value after the separator: white space and one quote are skipped,
    the value is the longest run of value characters and is not empty. *)
Definition after_separator (s : str) : option str :=
  match run (in_charset value_char) (drop_quote (skip (in_charset spaces) s)) with
  | [] => None
  | v => Some v
  end.

Definition after_word (s : str) : option str :=
  match skip (in_charset spaces) s with
  | c :: t => if in_charset separator c then after_separator t else None
  | [] => None
  end.

(** The value of the match that starts at the head of [s], and of the
    first match in [s]. *)
Definition value_at (s : str) : option str := first_word keywords s after_word.

Fixpoint find_value (s : str) : option str :=
  match value_at s with
  | Some v => Some v
  | None =>
    match s with
    | [] => None
    | _ :: s' => find_value s'
    end
  end.

Definition accept : str → groups → option groups := fun _ g => Some g.

(** *** The result of [check_file_for_passwords], line by line *)

Definition line_no (m : line_match) : Z := m.1.2.

Definition scan_line (il : Z * str) : list line_match :=
  match find_value il.2 with
  | Some v => [(Some v, (il.1 + 1)%Z, strip il.2)]
  | None => []
  end.

(** *** Lines of the shape keyword, separator, value *)

(** [kw] is the word [w], compared the way [re.IGNORECASE] compares. *)
Fixpoint word_match (w kw : str) : bool :=
  match w, kw with
  | [], [] => true
  | l :: w', c :: kw' => literal_match true l c && word_match w' kw'
  | _, _ => false
  end.

Definition is_keyword (kw : str) : bool :=
  existsb (fun K => word_match K kw) keywords.

(** [kw] occurs somewhere in [s]. *)
Definition occurs_in (kw s : str) : Prop := ∃ a b, s = a ++ kw ++ b.

Definition opt_quote (oq : str) : bool :=
  match oq with
  | [] => true
  | [q] => in_charset quote q
  | _ => false
  end.

(** Nothing that could extend a value follows. *)
Definition value_ends (rest : str) : bool :=
  match rest with
  | [] => true
  | c :: _ => negb (in_charset value_char c)
  end.

(** A keyword, optional white space and a separator start [s]. *)
Definition candidate (s : str) : bool :=
  existsb
    (fun K =>
       match strip_word K s with
       | Some t =>
         match skip (in_charset spaces) t with
         | c :: _ => in_charset separator c
         | [] => false
         end
       | None => false
       end)
    keywords.


(** No candidate starts inside the prefix [pre] of [pre ++ s]. *)
Fixpoint no_candidate_before (pre s : str) : bool :=
  match pre with
  | [] => true
  | _ :: pre' => negb (candidate (pre ++ s)) && no_candidate_before pre' s
  end.

Fixpoint contains_keyword (s : str) : bool :=
  existsb (fun K => bool_decide (is_Some (strip_word K s))) keywords
  || match s with
     | [] => false
     | _ :: s' => contains_keyword s'
     end.

(** *** What a walk leaves behind *)

(** The finding that [process_repository] appends for a match in the file
    of path [p]. *)
Definition tag (p : str) (m : line_match) : finding :=
  let '(password, line_number, full_line) := m in
  (p, password, line_number, full_line).

(** The path and the line number of a finding. *)
Definition key (f : finding) : str * Z := (f.1.1.1, f.1.2).

Section Traces.
Context {Repository Submodule : Type}.

(** The paths whose content was read, in order. *)
Definition scanned (tr : list (event Repository Submodule)) : list str :=
  omap (fun ev => match ev with DecodedContent p => Some p | _ => None end) tr.

(** The entries processed, by kind and path, in order; the listing of a
    root counts as the directory with the empty path. *)
Definition traversed (tr : list (event Repository Submodule)) : list (str * str) :=
  omap (fun ev =>
          match ev with
          | DecodedContent p => Some (txt "file", p)
          | GetContents _ p => Some (txt "dir", p)
          | GetSubmodule _ p => Some (txt "submodule", p)
          | _ => None
          end) tr.

(** From [st] to [st'] some files were read, each once and none that was
    processed before, and [added] holds findings of those files only, at
    most one for a path and a line. *)
Definition walked (st st' : state Repository Submodule) (added : list finding) : Prop :=
  processed_files st ⊆ processed_files st'
  ∧ (∃ tr, trace st' = trace st ++ tr
      ∧ NoDup (scanned tr)
      ∧ (∀ p, p ∈ scanned tr → (p ∉ processed_files st) ∧ p ∈ processed_files st')
      ∧ NoDup (key <$> added)
      ∧ (∀ f, f ∈ added → (key f).1 ∈ scanned tr)).

(** An event that reads no file. *)
Definition quiet (ev : event Repository Submodule) : Prop :=
  ∀ p, ev ≠ DecodedContent p.

(** What the recursive call is assumed to do. *)
Definition rec_ok
    (rec : Repository → state Repository Submodule → outcome Repository Submodule)
    : Prop :=
  ∀ repo st, walked st (final (rec repo st)) (returned (rec repo st)).

Definition is_print (ev : event Repository Submodule) : bool :=
  match ev with
  | Print _ => true
  | _ => false
  end.

(** The workbooks saved, with the file names, in order. *)
Definition writes (tr : list (event Repository Submodule)) : list (workbook * str) :=
  omap (fun ev => match ev with Save wb f => Some (wb, f) | _ => None end) tr.
End Traces.

(** *** The report, cell by cell *)

(** What a cell keeps of a string, and a string of which it keeps
    something: one without illegal character among its first 32767. *)
Definition cut (s : str) : str := take MAX_LENGTH s.

Definition legal (s : str) : bool := negb (existsb illegal (cut s)).

(** A finding as the sheet holds it, and a finding that the sheet takes. *)
Definition stored (f : finding) : finding :=
  let '(file_path, matched_string, line_number, full_line) := f in
  (cut file_path, cut <$> matched_string, line_number, cut full_line).

(** The texts of a finding, in the order in which they are written. *)
Definition texts (f : finding) : list str :=
  let '(file_path, matched_string, line_number, full_line) := f in
  file_path :: option_list matched_string ++ [full_line].

Definition writable (f : finding) : bool := forallb legal (texts f).

(** A finding of which nothing is cut. *)
Definition short (f : finding) : Prop :=
  Forall (fun s => (length s ≤ MAX_LENGTH)%nat) (texts f).

(** The bodies of the two loops of [write_to_excel]. *)
Definition write_header (sheet : workbook) (ch : Z * str) : result workbook :=
  let '(col, header) := ch in cell sheet START_ROW col (VStr header).

Definition write_row (sheet : workbook) (rf : Z * finding) : result workbook :=
  let '(row, (file_path, matched_string, line_number, full_line)) := rf in
  sheet ← cell sheet row START_COL (VStr file_path);
  sheet ← cell sheet row (START_COL + 1) (of_group matched_string);
  sheet ← cell sheet row (START_COL + 2) (VInt line_number);
  cell sheet row (START_COL + 3) (VStr full_line).

(** The data loop of [write_to_excel], from row [start] on, when no cell
    is refused. *)
Definition write_rows (start : Z) (results : list finding) (sheet : workbook) : workbook :=
  fold_left
    (fun sheet '(row, (file_path, matched_string, line_number, full_line)) =>
       let sheet := put sheet row START_COL (VStr file_path) in
       let sheet := put sheet row (START_COL + 1) (of_group matched_string) in
       let sheet := put sheet row (START_COL + 2) (VInt line_number) in
       put sheet row (START_COL + 3) (VStr full_line))
    (enumerate start results) sheet.

(** The sheet after the header loop. *)
Definition header_sheet : workbook :=
  fold_left (fun sheet '(col, header) => put sheet START_ROW col (VStr header))
            (enumerate START_COL headers) (set_title SHEET_NAME Workbook).

(** The sheet with the rows of [results], as they are. *)
Definition sheet_of (results : list finding) : workbook :=
  write_rows (START_ROW + 1) results header_sheet.

(** The rows the report is expected to hold. *)
Definition table (results : list finding) : list (list value) :=
  (VStr <$> headers) :: (row_of <$> results).

(** *** The driver *)

(** What [if not value] tests on a value read with [os.environ.get]: the
    variable is missing or empty. *)
Definition unset (o : option str) : bool :=
  match o with
  | None | Some [] => true
  | Some (_ :: _) => false
  end.

(** *** Example repositories *)

Inductive repo_name := Root | Vendor.

(** A file entry whose bytes are the ASCII text [content]; an entry of
    another type; a file entry whose content cannot be read. *)
Definition file (p : string) (content : list N) : ContentFile :=
  {| type := txt "file"; path := txt p;
     decoded_content :=
       Ok ((fun c => default Byte.x00 (Byte.of_N c)) <$> content) |}.

Definition entry (t p : string) : ContentFile :=
  {| type := txt t; path := txt p; decoded_content := Raise (txt "not a file") |}.

Definition unreadable (p : string) : ContentFile :=
  {| type := txt "file"; path := txt p;
     decoded_content := Raise (txt "unsupported encoding: none") |}.

(** A provider given by its listings and its submodule links; a submodule
    handle is what [module] will answer for it.  The recursion limit is the
    default one, 1000, less the frames of the module, of [main] and of the
    first call. *)
Abbreviation handle := (result (option repo_name)).

Definition provider (listing : repo_name → str → result (list ContentFile))
    (links : repo_name → str → result handle) : world repo_name handle :=
  {| recursion_limit := 997;
     environ := fun _ => Some (txt "x");
     get_repo := fun _ _ => Ok Root;
     full_name := fun _ => txt "owner/name";
     get_contents := listing;
     get_submodule := links;
     module := fun sub => sub;
     save := fun _ _ => Ok () |}.

Definition start : state repo_name handle :=
  {| processed_files := ∅; trace := [] |}.

(** One file, [config.py], with the password on its fifth line. *)
Definition password_line : str := txt "password = " ++ [0x22] ++ txt "abc123" ++ [0x22].

Definition config_repo : world repo_name handle :=
  provider
    (fun _ _ =>
       Ok [file "config.py"
             (txt "import os" ++ [0x0A] ++ txt "DEBUG = True" ++ [0x0A] ++ [0x0A]
              ++ txt "user = admin" ++ [0x0D; 0x0A] ++ password_line ++ [0x0A])])
    (fun _ _ => Raise (txt "no submodule")).

(** An unreadable file, four submodule links that fail in the four
    possible ways, then a readable file. *)
Definition env_file : ContentFile := file "b.env" (txt "token: xyz").

Definition broken_repo : world repo_name handle :=
  provider
    (fun repo p =>
       match repo with
       | Root =>
         Ok [unreadable "blob.bin"; entry "submodule" "gone"; entry "submodule" "nourl";
             entry "submodule" "empty"; entry "submodule" "private"; env_file]
       | Vendor => Raise (txt "403 Forbidden")
       end)
    (fun _ p =>
       if bool_decide (p = txt "gone") then Raise (txt "404 Not Found")
       else if bool_decide (p = txt "nourl") then Ok (Raise (txt "no url"))
       else if bool_decide (p = txt "empty") then Ok (Ok None)
       else Ok (Ok (Some Vendor))).

(** A file with a byte, FF, that no UTF-8 text holds. *)
Definition binary_repo : world repo_name handle :=
  provider (fun _ _ => Ok [file "blob.bin" (txt "key=" ++ [0xFF] ++ txt "abc")])
           (fun _ _ => Raise (txt "no submodule")).

(** A file with a control character in a line that matches. *)
Definition control_repo : world repo_name handle :=
  provider (fun _ _ => Ok [file "blob.bin" (txt "key=abc" ++ [0x01] ++ txt "def")])
           (fun _ _ => Raise (txt "no submodule")).

(** A repository with a submodule that is the repository itself. *)
Definition cyclic_repo : world repo_name handle :=
  provider
    (fun _ _ => Ok [file "a.txt" (txt "key=1"); entry "submodule" "self"])
    (fun _ _ => Ok (Ok (Some Root))).

(** Two submodule links, [v1] and [v2], to the same repository, which has
    one directory [lib] with one file. *)
Definition diamond_repo : world repo_name handle :=
  provider
    (fun repo p =>
       match repo with
       | Root => Ok [entry "submodule" "v1"; entry "submodule" "v2"]
       | Vendor =>
         if bool_decide (p = []) then Ok [entry "dir" "lib"]
         else Ok [file "lib/x.py" (txt "token: 'xyz'")]
       end)
    (fun _ _ => Ok (Ok (Some Vendor))).

(** A repository without any entry, and a run without configuration. *)
Definition empty_repo : world repo_name handle :=
  provider (fun _ _ => Ok []) (fun _ _ => Raise (txt "no submodule")).

Definition unconfigured : world repo_name handle :=
  {| recursion_limit := recursion_limit empty_repo;
     environ := fun _ => None;
     get_repo := get_repo empty_repo;
     full_name := full_name empty_repo;
     get_contents := get_contents empty_repo;
     get_submodule := get_submodule empty_repo;
     module := module empty_repo;
     save := save empty_repo |}.


(** *** Further definitions *)

(** A match, one line further down. *)
Definition bump (m : line_match) : line_match := (m.1.1, (m.1.2 + 1)%Z, m.2).

(** The two line ends that text files use: LF and CR LF. *)
Definition is_eol (eol : str) : bool :=
  bool_decide (eol = [0x0A]) || bool_decide (eol = [0x0D; 0x0A]).

(** A byte of ASCII text, and a byte that starts no UTF-8 sequence: a
    continuation byte, C0, C1, or F5 and above. *)
Definition is_ascii (b : Byte.byte) : bool := Byte.to_N b <? 0x80.

Definition never_starts (b : Byte.byte) : bool :=
  ((0x80 <=? Byte.to_N b) && (Byte.to_N b <=? 0xC1)) || (0xF5 <=? Byte.to_N b).

(** The letters [a] to [z] as capitals, every other character as it is. *)
Definition upper (c : char) : char :=
  if (0x61 <=? c) && (c <=? 0x7A) then c - 32 else c.

(** A match, in capitals. *)
Definition upper_match (m : line_match) : line_match :=
  let '(password, line_number, full_line) := m in
  (fmap (M:=list) upper <$> password, line_number, upper <$> full_line).


Section Trees.
Context {Repository Submodule : Type}.

(** From [st] to [st'] the trace was extended, and [processed_files] grew
    by the paths that were read and by nothing else. *)
Definition grown (st st' : state Repository Submodule) : Prop :=
  ∃ tr, trace st' = trace st ++ tr
        ∧ processed_files st' = processed_files st ∪ list_to_set (scanned tr).

(** The findings [added] are laid out file by file: [groups] gives, for
    each file read in [tr], in the order of reading, the matches that were
    kept for it, by increasing line number. *)
Definition grouped (tr : list (event Repository Submodule)) (added : list finding)
    : Prop :=
  ∃ groups : list (str * list line_match),
    groups.*1 = scanned tr
    ∧ added = groups ≫= (fun g => tag g.1 <$> g.2)
    ∧ Forall (fun g => StronglySorted Z.lt (line_no <$> g.2)) groups.

Definition laid (st st' : state Repository Submodule) (added : list finding) : Prop :=
  ∃ tr, trace st' = trace st ++ tr ∧ grouped tr added.



Variable w : world Repository Submodule.

(** The call that [process_repository] makes for a submodule, when
    [depth] more calls can be nested in the caller. *)
Definition nested (depth fuel : nat)
    : Repository → state Repository Submodule → outcome Repository Submodule :=
  match depth with
  | O => too_deep
  | S depth' => process_repository w depth' fuel
  end.

(** Directories are nested at most [d] deep below [content]; and so they
    are in every repository. *)
Fixpoint flat (d : nat) (repo : Repository) (content : ContentFile) : bool :=
  if bool_decide (type content = txt "dir") then
    match get_contents w repo (path content) with
    | Ok l =>
      match d with
      | O => false
      | S d' => forallb (flat d' repo) l
      end
    | Raise _ => true
    end
  else true.

Definition finite_trees (d : nat) : Prop :=
  ∀ repo l, get_contents w repo [] = Ok l → forallb (flat d repo) l = true.

(** A bound on the iterations that the entry [content] and the directories
    below it take, and on those of the calls made for their submodules,
    which [sub] bounds. *)
Fixpoint entry_cost (sub : Repository → nat) (d : nat) (repo : Repository)
    (content : ContentFile) : nat :=
  if bool_decide (type content = txt "dir") then
    match d with
    | O => 1
    | S d' =>
      match get_contents w repo (path content) with
      | Ok l => S (sum_list_with (entry_cost sub d' repo) l)
      | Raise _ => 1
      end
    end
  else if bool_decide (type content = txt "submodule") then
    match get_submodule w repo (path content) with
    | Ok submodule =>
      match module w submodule with
      | Ok (Some sub_repo) => S (sub sub_repo)
      | _ => 1
      end
    | Raise _ => 1
    end
  else 1.

Fixpoint walk_cost (d depth : nat) (repo : Repository) : nat :=
  match get_contents w repo [] with
  | Ok l =>
    2 + sum_list_with
          (entry_cost (match depth with
                       | O => fun _ => O
                       | S depth' => walk_cost d depth'
                       end) d repo) l
  | Raise _ => O
  end.

(** The entries that the loop of [process_repository] comes to when
    [content] is in its queue: the entry itself and, when it is a directory
    that can be listed, what comes with the entries of its listing.  The
    entries of a submodule are not among them: they go through the queue of
    the recursive call. *)
Inductive under (repo : Repository) : ContentFile → ContentFile → Prop :=
| under_self content : under repo content content
| under_dir dir l content content' :
    type dir = txt "dir" →
    get_contents w repo (path dir) = Ok l →
    content ∈ l →
    under repo content content' →
    under repo dir content'.

(** No chain of directories and of submodules that starts at [content] is
    longer than [d]: a directory that cannot be listed and a submodule that
    cannot be resolved end a chain. *)
Fixpoint shallow (d : nat) (repo : Repository) (content : ContentFile) : bool :=
  if bool_decide (type content = txt "dir") then
    match get_contents w repo (path content) with
    | Ok l =>
      match d with
      | O => false
      | S d' => forallb (shallow d' repo) l
      end
    | Raise _ => true
    end
  else if bool_decide (type content = txt "submodule") then
    match get_submodule w repo (path content) with
    | Ok submodule =>
      match module w submodule with
      | Ok (Some sub_repo) =>
        match get_contents w sub_repo [] with
        | Ok l =>
          match d with
          | O => false
          | S d' => forallb (shallow d' sub_repo) l
          end
        | Raise _ => true
        end
      | _ => true
      end
    | Raise _ => true
    end
  else true.

(** The same, for the entries of the root of [repo]. *)
Definition shallow_root (d : nat) (repo : Repository) : bool :=
  match get_contents w repo [] with
  | Ok l => forallb (shallow d repo) l
  | Raise _ => true
  end.

(** A bound on the fuel that the entry [content] and what is below it
    need, down to depth [d]. *)
Fixpoint cost (d : nat) (repo : Repository) (content : ContentFile) : nat :=
  match d with
  | O => 1
  | S d' =>
    if bool_decide (type content = txt "dir") then
      match get_contents w repo (path content) with
      | Ok l => S (sum_list_with (cost d' repo) l)
      | Raise _ => 1
      end
    else if bool_decide (type content = txt "submodule") then
      match get_submodule w repo (path content) with
      | Ok submodule =>
        match module w submodule with
        | Ok (Some sub_repo) =>
          match get_contents w sub_repo [] with
          | Ok l => 3 + sum_list_with (cost d' sub_repo) l
          | Raise _ => 3
          end
        | _ => 1
        end
      | Raise _ => 1
      end
    else 1
  end.

Definition cost_root (d : nat) (repo : Repository) : nat :=
  match get_contents w repo [] with
  | Ok l => 2 + sum_list_with (cost d repo) l
  | Raise _ => 1
  end.

(** The findings that [process_repository] appends when it reads the file
    entry [content]. *)
Definition matches_of (content : ContentFile) : list finding :=
  match decoded_content content with
  | Ok b =>
    tag (path content)
      <$> check_file_for_passwords (decode_utf8_ignore b) (path content)
  | Raise _ => []
  end.

(** Below the entries [contents] there is no submodule, and two file
    entries with the same path have the same content. *)
Definition plain (repo : Repository) (contents : list ContentFile) : Prop :=
  (∀ q content, q ∈ contents → under repo q content → type content ≠ txt "submodule")
  ∧ (∀ q q' content content',
       q ∈ contents → q' ∈ contents →
       under repo q content → under repo q' content' →
       type content = txt "file" → type content' = txt "file" →
       path content = path content' →
       decoded_content content = decoded_content content').

(** The findings of the files below [contents] that have been processed
    since the set was [seen] are in [results]. *)
Definition reported (seen : gset str) (repo : Repository)
    (contents : list ContentFile) (results : list finding)
    (st : state Repository Submodule) : Prop :=
  ∀ q content f,
    q ∈ contents → under repo q content → type content = txt "file" →
    path content ∈ processed_files st → path content ∉ seen →
    f ∈ matches_of content → f ∈ results.

(** How a call ends, whatever it leaves: it returned, it raised [e], or
    it is still running when the fuel is used up. *)
Definition ending (o : outcome Repository Submodule) : option (result ()) :=
  match o with
  | Returned _ _ => Some (Ok ())
  | Raised e _ => Some (Raise e)
  | OutOfFuel _ => None
  end.

(** From [st] to [st'] no file was read and [processed_files] was left
    as it was. *)
Definition still (st st' : state Repository Submodule) : Prop :=
  processed_files st' = processed_files st
  ∧ ∃ tr, trace st' = trace st ++ tr ∧ scanned tr = [].
End Trees.

(** The file of [config_repo]. *)
Definition config_file : ContentFile :=
  file "config.py"
    (txt "import os" ++ [0x0A] ++ txt "DEBUG = True" ++ [0x0A] ++ [0x0A]
     ++ txt "user = admin" ++ [0x0D; 0x0A] ++ password_line ++ [0x0A]).


(** What [main] does on [config_repo]. *)
Definition config_trace : list (event repo_name handle) :=
  [GetRepo (txt "x") (txt "x"); Print (txt "Scanning repository: owner/name");
   GetContents Root []; DecodedContent (txt "config.py");
   Save (sheet_of [(txt "config.py", Some (txt "abc123"), 5%Z, password_line)])
     EXCEL_FILE;
   Print (txt "Results written to hardcoded_passwords.xlsx")].

(** A finding with a control character, as a binary file gives them, and
    one with a value of 32768 characters. *)
Definition refused_finding : finding :=
  (txt "blob.bin", Some (txt "x"), 1%Z, txt "key=x" ++ [0x01]).

Definition long_value : str := replicate (S MAX_LENGTH) 0x61.

Definition long_finding : finding :=
  (txt "a.txt", Some long_value, 1%Z, txt "key=" ++ long_value).



(** * Properties *)

Example check_example :
  check_file_for_passwords
    (txt "x = 1" ++ [0x0A] ++ txt "  db_Password = 'hunter2'; token=abc" ++ [0x0D; 0x0A] ++ txt "KEY : v&w")
    (txt "a.py")
  = [(Some (txt "hunter2"), 2%Z, txt "db_Password = 'hunter2'; token=abc");
     (Some (txt "v"), 3%Z, txt "KEY : v&w")].
Proof. vm_compute. reflexivity. Qed.

(** ** Spans of characters *)

Lemma run_skip (P : char → bool) s : run P s ++ skip P s = s.
Proof. induction s as [|c s IH]; simpl; [done|]. destruct (P c); simpl; congruence. Qed.

Lemma skip_length (P : char → bool) s : (length (skip P s) ≤ length s)%nat.
Proof. induction s as [|c s IH]; simpl; [lia|]. destruct (P c); simpl; lia. Qed.

Lemma take_run (P : char → bool) s : take (length s - length (skip P s)) s = run P s.
Proof.
  rewrite <- (run_skip P s) at 1 3. rewrite length_app.
  replace (length (run P s) + length (skip P s) - length (skip P s))%nat
    with (length (run P s)) by lia.
  by rewrite take_app_length.
Qed.

Lemma run_app_all (P : char → bool) a b :
  forallb P a = true → run P (a ++ b) = a ++ run P b.
Proof.
  induction a as [|c a IH]; simpl; [done|].
  intros [Hc Ha]%andb_prop. rewrite Hc. by rewrite IH.
Qed.

Lemma skip_app_all (P : char → bool) a b :
  forallb P a = true → skip P (a ++ b) = skip P b.
Proof.
  induction a as [|c a IH]; simpl; [done|].
  intros [Hc Ha]%andb_prop. rewrite Hc. by apply IH.
Qed.

Lemma run_stop (P : char → bool) s :
  match s with [] => True | c :: _ => P c = false end → run P s = [].
Proof. destruct s as [|c s]; simpl; [done|]. by intros ->. Qed.

Lemma skip_stop (P : char → bool) s :
  match s with [] => True | c :: _ => P c = false end → skip P s = s.
Proof. destruct s as [|c s]; simpl; [done|]. by intros ->. Qed.

(** ** The regular expression, piece by piece *)

Section Repeat.
Context {A : Type}.
Implicit Types (k : str → option A) (cs : charset).

Lemma max_repeat_total cs hi s k x :
  (∀ t, k t = Some x) → max_repeat cs 0 hi s k = Some x.
Proof.
  intros Hk. revert hi. induction s as [|c s IH]; intros hi; simpl; [done|].
  destruct (_ && _); [|done]. by rewrite IH.
Qed.

Lemma max_repeat_star_some cs s k :
  (∀ t, is_Some (k t)) →
  max_repeat cs 0 None s k = k (skip (in_charset cs) s).
Proof.
  intros Hk. induction s as [|c s IH]; simpl; [done|].
  destruct (in_charset cs c); simpl; [|done].
  rewrite IH. by destruct (Hk (skip (in_charset cs) s)) as [x ->].
Qed.

Lemma max_repeat_plus_some cs s k :
  (∀ t, is_Some (k t)) →
  max_repeat cs 1 None s k =
    match s with
    | c :: s' => if in_charset cs c then k (skip (in_charset cs) s') else None
    | [] => None
    end.
Proof.
  intros Hk. destruct s as [|c s]; simpl; [done|].
  destruct (in_charset cs c); simpl; [|done].
  rewrite max_repeat_star_some by done.
  by destruct (Hk (skip (in_charset cs) s)) as [x ->].
Qed.

(** When the continuation refuses every text that starts with a character
    of the set, giving a character back never helps. *)
Lemma max_repeat_star cs s k :
  (∀ c t, in_charset cs c = true → k (c :: t) = None) →
  max_repeat cs 0 None s k = k (skip (in_charset cs) s).
Proof.
  intros Hk. induction s as [|c s IH]; simpl; [done|].
  destruct (in_charset cs c) eqn:Hc; simpl; [|done].
  rewrite IH. rewrite (Hk c s Hc). by destruct (k _).
Qed.

Lemma max_repeat_opt cs s k :
  (∀ c t, in_charset cs c = true → k (c :: t) = None) →
  max_repeat cs 0 (Some 1%nat) s k =
    k match s with
      | c :: t => if in_charset cs c then t else s
      | [] => []
      end.
Proof.
  intros Hk. destruct s as [|c s]; simpl; [done|].
  destruct (in_charset cs c) eqn:Hc; simpl; [|done].
  rewrite (Hk c s Hc).
  assert (max_repeat cs 0 (Some 0%nat) s k = k s) as ->.
  { destruct s as [|c' s]; simpl; [done|]. by rewrite andb_false_r. }
  by destruct (k s).
Qed.
End Repeat.

Lemma matches_word w s g k :
  matches true (word w) s g k =
    match strip_word w s with Some s' => k s' g | None => None end.
Proof.
  revert s. induction w as [|l w IH]; intros s; simpl; [done|].
  destruct s as [|c s]; [done|]. destruct (literal_match true l c); [apply IH|done].
Qed.

Lemma branches_cons r r' rs : branches (r :: r' :: rs) = Branch r (branches (r' :: rs)).
Proof. reflexivity. Qed.

Lemma matches_Branch ic r1 r2 s g k :
  matches ic (Branch r1 r2) s g k =
    match matches ic r1 s g k with Some x => Some x | None => matches ic r2 s g k end.
Proof. reflexivity. Qed.

Lemma matches_branches ws s g k :
  matches true (branches (map word ws)) s g k =
    first_word ws s (fun s' => k s' g).
Proof.
  induction ws as [|w ws IH].
  - simpl. by destruct s.
  - destruct ws as [|w' ws].
    + simpl. rewrite matches_word. destruct (strip_word w s); simpl; [|done].
      by destruct (k _ _).
    + change (map word (w :: w' :: ws)) with (word w :: word w' :: map word ws).
      rewrite branches_cons, matches_Branch, matches_word.
      change (word w' :: map word ws) with (map word (w' :: ws)). rewrite IH.
      change (first_word (w :: w' :: ws) s (λ s', k s' g)) with
        (match strip_word w s ≫= (λ s', k s' g) with
         | Some x => Some x
         | None => first_word (w' :: ws) s (λ s', k s' g)
         end).
      destruct (strip_word w s); simpl; done.
Qed.

(** Facts on the character sets of the pattern. *)
Ltac charset_cases :=
  unfold in_charset; simpl; rewrite ?orb_false_r;
  repeat match goal with
         | |- context [N.eqb ?a ?b] =>
           destruct (N.eqb_spec a b); subst; simpl; rewrite ?orb_true_r, ?orb_false_r
         end.

Lemma space_not_value c : in_charset spaces c = true → in_charset value_char c = false.
Proof. unfold in_charset. simpl. rewrite orb_false_r. by intros ->. Qed.

Lemma quote_not_value c : in_charset quote c = true → in_charset value_char c = false.
Proof. charset_cases; done. Qed.

Lemma space_not_quote c : in_charset spaces c = true → in_charset quote c = false.
Proof. charset_cases; done. Qed.

Lemma space_not_separator c : in_charset spaces c = true → in_charset separator c = false.
Proof. charset_cases; done. Qed.

(** The pattern after the keyword is deterministic: it matches exactly
    when [after_word] finds a value, and group 2 is that value. *)
Lemma matches_after_keyword s g :
  matches true after_keyword s g accept = (fun v => (2%nat, v) :: g) <$> after_word s.
Proof.
  unfold after_keyword, after_word. simpl matches.
  (* the value group and the closing quote always accept *)
  assert (Hval : ∀ s4,
    max_repeat value_char 1 None s4
      (fun s5 => max_repeat quote 0 (Some 1%nat) s5
         (fun s6 => accept s6 ((2%nat, take (length s4 - length s5) s4) :: g)))
    = (fun v => (2%nat, v) :: g) <$>
        match run (in_charset value_char) s4 with [] => None | v => Some v end).
  { intros s4. rewrite max_repeat_plus_some.
    2:{ intros t. erewrite max_repeat_total; [eauto|done]. }
    destruct s4 as [|c s4]; [done|]. simpl run.
    destruct (in_charset value_char c) eqn:Hc; [|done].
    erewrite max_repeat_total by done. simpl. do 3 f_equal.
    pose proof (take_run (in_charset value_char) (c :: s4)) as Ht.
    simpl in Ht. rewrite Hc in Ht. exact Ht. }
  assert (Hquote : ∀ c t, in_charset quote c = true →
    max_repeat value_char 1 None (c :: t)
      (fun s5 => max_repeat quote 0 (Some 1%nat) s5
         (fun s6 => accept s6 ((2%nat, take (length (c :: t) - length s5) (c :: t)) :: g)))
    = None).
  { intros c t Hc. rewrite Hval. simpl run. by rewrite (quote_not_value c Hc). }
  assert (Hopt : ∀ s3,
    max_repeat quote 0 (Some 1%nat) s3
      (fun s4 => max_repeat value_char 1 None s4
         (fun s5 => max_repeat quote 0 (Some 1%nat) s5
            (fun s6 => accept s6 ((2%nat, take (length s4 - length s5) s4) :: g))))
    = (fun v => (2%nat, v) :: g) <$>
        match run (in_charset value_char) (drop_quote s3) with [] => None | v => Some v end).
  { intros s3. rewrite max_repeat_opt by apply Hquote. by rewrite Hval. }
  rewrite max_repeat_star.
  2:{ intros c t Hc. by rewrite (space_not_separator c Hc). }
  destruct (skip (in_charset spaces) s) as [|c t]; [done|].
  destruct (in_charset separator c); [|done].
  rewrite max_repeat_star.
  2:{ intros c' t' Hc'. rewrite Hopt. unfold drop_quote.
      rewrite (space_not_quote c' Hc'). simpl run.
      by rewrite (space_not_value c' Hc'). }
  by rewrite Hopt.
Qed.

Lemma first_word_ext {X} ws s (k1 k2 : str → option X) :
  (∀ t, k1 t = k2 t) → first_word ws s k1 = first_word ws s k2.
Proof.
  intros Hk. induction ws as [|w ws IH]; simpl; [done|].
  rewrite IH. destruct (strip_word w s); simpl; [by rewrite Hk|done].
Qed.

Lemma first_word_group2 ws s (f : str → str) (h : str → option str) :
  (fun g => group g 2) <$>
    first_word ws s (fun s' => (fun v => [(2%nat, v); (1%nat, f s')]) <$> h s')
  = Some <$> first_word ws s h.
Proof.
  induction ws as [|w ws IH]; simpl; [done|].
  destruct (strip_word w s) as [t|]; simpl; [|done].
  destruct (h t); simpl; done.
Qed.

Lemma matches_password_regex s :
  (fun g => group g 2) <$> matches true PASSWORD_REGEX s [] accept
  = Some <$> value_at s.
Proof.
  change (matches true PASSWORD_REGEX s [] accept) with
    (matches true (branches (map word keywords)) s []
       (fun s' g' => matches true after_keyword s'
                       ((1%nat, take (length s - length s') s) :: g') accept)).
  rewrite matches_branches.
  erewrite first_word_ext by (intros t; apply matches_after_keyword).
  apply first_word_group2.
Qed.

Lemma search_unfold ic r s :
  search ic r s =
    match matches ic r s [] accept with
    | Some g => Some g
    | None => match s with [] => None | _ :: s' => search ic r s' end
    end.
Proof. by destruct s. Qed.

Lemma find_value_unfold s :
  find_value s =
    match value_at s with
    | Some v => Some v
    | None => match s with [] => None | _ :: s' => find_value s' end
    end.
Proof. by destruct s. Qed.

(** [re.search] finds a match exactly when [find_value] finds a value, and
    group 2 of the match is that value (it is never Python's [None]). *)
Lemma search_password_regex s :
  (fun g => group g 2) <$> search true PASSWORD_REGEX s = Some <$> find_value s.
Proof.
  induction s as [|c s IH]; rewrite search_unfold, find_value_unfold.
  - pose proof (matches_password_regex []) as H.
    destruct (matches true PASSWORD_REGEX [] [] accept) as [g|], (value_at []) as [v|];
      try done.
  - pose proof (matches_password_regex (c :: s)) as H.
    destruct (matches true PASSWORD_REGEX (c :: s) [] accept) as [g|],
             (value_at (c :: s)) as [v|]; try done.
Qed.

Lemma fold_scan_lines (l : list (Z * str)) (acc : list line_match) :
  fold_left
    (fun matches '(i, line) =>
       match search true PASSWORD_REGEX line with
       | Some m => matches ++ [(group m 2, (i + 1)%Z, strip line)]
       | None => matches
       end) l acc
  = acc ++ (l ≫= scan_line).
Proof.
  revert acc. induction l as [|[i line] l IH]; intros acc.
  - simpl. by rewrite app_nil_r.
  - rewrite bind_cons. cbn [fold_left]. rewrite IH. unfold scan_line at 2. simpl.
    pose proof (search_password_regex line) as H.
    destruct (search true PASSWORD_REGEX line) as [g|], (find_value line) as [v|];
      try done.
    injection H as ->. by rewrite <- app_assoc.
Qed.

Lemma check_file_for_passwords_lines file_content file_path :
  check_file_for_passwords file_content file_path
  = enumerate 0 (splitlines file_content) ≫= scan_line.
Proof. unfold check_file_for_passwords. by rewrite fold_scan_lines. Qed.

Lemma elem_of_enumerate {A} (start : Z) (l : list A) n x :
  (n, x) ∈ enumerate start l ↔ ∃ i : nat, l !! i = Some x ∧ n = (start + Z.of_nat i)%Z.
Proof.
  revert start. induction l as [|y l IH]; intros start; simpl.
  - split; [by intros ?%elem_of_nil|by intros (i & ? & _)].
  - rewrite elem_of_cons, IH. split.
    + intros [[= -> ->]|(i & Hi & ->)]; [exists 0%nat|exists (S i)]; split; try done; lia.
    + intros ([|i] & Hi & ->); simpl in *.
      * left. f_equal; [lia|congruence].
      * right. exists i. split; [done|lia].
Qed.

Lemma elem_of_check_file file_content file_path (m : line_match) :
  m ∈ check_file_for_passwords file_content file_path ↔
  ∃ (i : nat) line v, splitlines file_content !! i = Some line
    ∧ find_value line = Some v
    ∧ m = (Some v, (Z.of_nat i + 1)%Z, strip line).
Proof.
  rewrite check_file_for_passwords_lines, list_elem_of_bind. split.
  - intros ([n line] & Hm & (i & Hi & ->)%elem_of_enumerate).
    unfold scan_line in Hm. simpl in Hm.
    destruct (find_value line) as [v|] eqn:Hv; [|by apply elem_of_nil in Hm].
    apply list_elem_of_singleton in Hm. exists i, line, v. by rewrite Hm.
  - intros (i & line & v & Hi & Hv & ->). exists (Z.of_nat i, line). split.
    + unfold scan_line. simpl. rewrite Hv. by apply list_elem_of_singleton.
    + apply elem_of_enumerate. exists i. split; [done|lia].
Qed.

(** The findings of one line: none, or the one of the first match. *)
Lemma enumerate_line_filter (start : Z) (lines : list str) (i : nat) line :
  lines !! i = Some line →
  filter (fun m => line_no m = (start + Z.of_nat i + 1)%Z) (enumerate start lines ≫= scan_line)
  = scan_line ((start + Z.of_nat i)%Z, line).
Proof.
  revert start i. induction lines as [|l lines IH]; intros start i Hi; [done|].
  simpl enumerate. rewrite bind_cons, filter_app.
  assert (Hlater : ∀ (s : Z) (ls : list str) (n : Z), (n < s + 1)%Z →
    filter (fun m => line_no m = n) (enumerate s ls ≫= scan_line) = []).
  { clear. intros s ls. revert s. induction ls as [|l ls IH]; intros s n Hn; [done|].
    simpl enumerate. rewrite bind_cons, filter_app, (IH (s + 1)%Z) by lia.
    rewrite app_nil_r. unfold scan_line. simpl. destruct (find_value l); [|done].
    rewrite filter_cons_False; [done|]. unfold line_no. simpl. lia. }
  destruct i as [|i]; simpl in Hi.
  - injection Hi as ->. rewrite Hlater by lia. rewrite app_nil_r.
    unfold scan_line. simpl. rewrite Z.add_0_r. destruct (find_value line); [|done].
    rewrite filter_cons_True; [done|]. unfold line_no. simpl. lia.
  - replace (start + Z.of_nat (S i) + 1)%Z with (start + 1 + Z.of_nat i + 1)%Z by lia.
    rewrite (IH (start + 1)%Z i Hi).
    replace (start + Z.of_nat (S i))%Z with (start + 1 + Z.of_nat i)%Z by lia.
    unfold scan_line at 1. simpl. destruct (find_value l); [|done].
    rewrite filter_cons_False; [done|]. unfold line_no. simpl. lia.
Qed.

Lemma check_file_line file_content file_path (i : nat) line :
  splitlines file_content !! i = Some line →
  filter (fun m => line_no m = (Z.of_nat i + 1)%Z)
         (check_file_for_passwords file_content file_path)
  = match find_value line with
    | Some v => [(Some v, (Z.of_nat i + 1)%Z, strip line)]
    | None => []
    end.
Proof.
  intros Hi. rewrite check_file_for_passwords_lines.
  pose proof (enumerate_line_filter 0 _ i line Hi) as H.
  replace (0 + Z.of_nat i + 1)%Z with (Z.of_nat i + 1)%Z in H by lia.
  rewrite H. unfold scan_line. simpl.
  by replace (0 + Z.of_nat i + 1)%Z with (Z.of_nat i + 1)%Z by lia.
Qed.

Lemma separator_cases c : in_charset separator c = true → c = 0x3A ∨ c = 0x3D.
Proof. charset_cases; auto; done. Qed.

Lemma separator_not_space c : in_charset separator c = true → in_charset spaces c = false.
Proof. intros [->| ->]%separator_cases; done. Qed.

Lemma keyword_letters K l c :
  K ∈ keywords → l ∈ K → in_charset separator c = true → literal_match true l c = false.
Proof.
  intros HK Hl Hc.
  assert (forallb (forallb (fun l => negb (literal_match true l 0x3A)
                                    && negb (literal_match true l 0x3D))) keywords = true)
    as H by (vm_compute; reflexivity).
  rewrite forallb_forall in H. apply list_elem_of_In, H in HK.
  rewrite forallb_forall in HK. apply list_elem_of_In, HK in Hl.
  apply andb_prop in Hl as [H1 H2].
  destruct (separator_cases c Hc) as [-> | ->]; by apply negb_true_iff.
Qed.

Lemma strip_word_match K kw t : word_match K kw = true → strip_word K (kw ++ t) = Some t.
Proof.
  revert kw. induction K as [|l K IH]; intros [|c kw]; simpl; try done.
  intros [-> ?]%andb_prop. by apply IH.
Qed.

Lemma word_match_chars K kw c :
  word_match K kw = true → c ∈ kw → ∃ l, l ∈ K ∧ literal_match true l c = true.
Proof.
  revert kw. induction K as [|l K IH]; intros [|c' kw]; simpl; try done.
  - by intros _ ?%elem_of_nil.
  - intros [Hl Hw]%andb_prop [->|Hc]%elem_of_cons.
    + exists l. split; [left|done].
    + destruct (IH kw Hw Hc) as (l' & ? & ?). exists l'. split; [by right|done].
Qed.

Lemma keyword_no_separator K kw :
  K ∈ keywords → word_match K kw = true →
  forallb (fun c => negb (in_charset separator c)) kw = true.
Proof.
  intros HK Hw. apply forallb_forall. intros c Hc%list_elem_of_In.
  destruct (word_match_chars K kw c Hw Hc) as (l & Hl & Hm).
  destruct (in_charset separator c) eqn:Hs; [|done].
  by rewrite (keyword_letters K l c HK Hl Hs) in Hm.
Qed.

(** Before the first separator of a line, whatever keyword the pattern
    takes, the value it finds is the one after that separator. *)
Lemma strip_word_before_separator K a sep tl t :
  (∀ l, l ∈ K → literal_match true l sep = false) →
  strip_word K (a ++ sep :: tl) = Some t →
  ∃ a1 a2, a = a1 ++ a2 ∧ t = a2 ++ sep :: tl.
Proof.
  revert a. induction K as [|l K IH]; intros a HK; simpl.
  - intros [= <-]. by exists [], a.
  - destruct a as [|c a]; simpl.
    + rewrite (HK l) by left. done.
    + destruct (literal_match true l c); [|done]. intros Ht.
      destruct (IH a) as (a1 & a2 & -> & ->); [intros; apply HK; by right|done|].
      by exists (c :: a1), a2.
Qed.

Lemma after_word_before_separator a sep tl :
  forallb (fun c => negb (in_charset separator c)) a = true →
  in_charset separator sep = true →
  after_word (a ++ sep :: tl) = None ∨ after_word (a ++ sep :: tl) = after_separator tl.
Proof.
  intros Ha Hsep. unfold after_word. induction a as [|c a IH]; simpl.
  - rewrite (separator_not_space sep Hsep), Hsep. by right.
  - simpl in Ha. apply andb_prop in Ha as [Hc Ha].
    destruct (in_charset spaces c); [by apply IH|].
    apply negb_true_iff in Hc. rewrite Hc. by left.
Qed.

Lemma value_at_before_separator a sep tl :
  forallb (fun c => negb (in_charset separator c)) a = true →
  in_charset separator sep = true →
  value_at (a ++ sep :: tl) = None ∨ value_at (a ++ sep :: tl) = after_separator tl.
Proof.
  intros Ha Hsep. unfold value_at.
  assert (Hsub : ∀ K, K ∈ keywords → K ∈ keywords) by done. revert Hsub.
  generalize keywords at 1 3 4. intros ws Hsub.
  induction ws as [|K ws IH]; simpl; [by left|].
  destruct (strip_word K (a ++ sep :: tl)) as [t|] eqn:Ht; simpl.
  - destruct (strip_word_before_separator K a sep tl t) as (a1 & a2 & -> & ->); [|done|].
    { intros l Hl. eapply keyword_letters; [apply Hsub; left|done..]. }
    rewrite forallb_app in Ha. apply andb_prop in Ha as [_ Ha2].
    destruct (after_word_before_separator a2 sep tl Ha2 Hsep) as [-> | ->].
    + apply IH. intros; apply Hsub; by right.
    + destruct (after_separator tl); [by right|].
      apply IH. intros; apply Hsub; by right.
  - apply IH. intros; apply Hsub; by right.
Qed.

Lemma first_word_None {X} ws s (k : str → option X) K :
  first_word ws s k = None → K ∈ ws → strip_word K s ≫= k = None.
Proof.
  induction ws as [|w ws IH]; simpl; [by intros _ ?%elem_of_nil|].
  destruct (strip_word w s ≫= k) eqn:Hw; [done|].
  intros Hn [->|HK]%elem_of_cons; [done|by apply IH].
Qed.

Lemma first_word_Some {X} ws s (k : str → option X) x :
  first_word ws s k = Some x → ∃ K t, K ∈ ws ∧ strip_word K s = Some t ∧ k t = Some x.
Proof.
  induction ws as [|w ws IH]; simpl; [done|].
  destruct (strip_word w s) as [t|] eqn:Hw; simpl.
  - destruct (k t) as [y|] eqn:Hk.
    + intros [= ->]. exists w, t. split; [left|done].
    + intros (K & t' & ? & ? & ?)%IH. exists K, t'. split; [by right|done].
  - intros (K & t' & ? & ? & ?)%IH. exists K, t'. split; [by right|done].
Qed.

Lemma value_at_candidate s v : value_at s = Some v → candidate s = true.
Proof.
  intros (K & t & HK & Ht & Hv)%first_word_Some. unfold candidate.
  apply existsb_exists. exists K. split; [by apply list_elem_of_In|].
  rewrite Ht. unfold after_word in Hv.
  destruct (skip (in_charset spaces) t) as [|c t']; [done|].
  by destruct (in_charset separator c).
Qed.

Lemma find_value_skip pre s :
  no_candidate_before pre s = true → find_value (pre ++ s) = find_value s.
Proof.
  induction pre as [|c pre IH]; [done|]. simpl no_candidate_before.
  intros [Hc Hpre]%andb_prop. rewrite find_value_unfold.
  destruct (value_at ((c :: pre) ++ s)) as [v|] eqn:Hv.
  - apply value_at_candidate in Hv. apply negb_true_iff in Hc. simpl app in Hv. congruence.
  - by apply IH.
Qed.

Lemma in_spaces c : in_charset spaces c = isspace c.
Proof. unfold in_charset. simpl. by rewrite orb_false_r. Qed.

Lemma forallb_spaces l : forallb (in_charset spaces) l = forallb isspace l.
Proof. induction l as [|c l IH]; simpl; [done|]. by rewrite in_spaces, IH. Qed.

Lemma after_separator_value ws2 oq value rest :
  forallb isspace ws2 = true → opt_quote oq = true →
  value ≠ [] → forallb (in_charset value_char) value = true →
  value_ends rest = true →
  after_separator (ws2 ++ oq ++ value ++ rest) = Some value.
Proof.
  intros Hws Hq Hne Hval Hrest. unfold after_separator.
  assert (∃ c v', value = c :: v' ∧ in_charset value_char c = true) as (c & v' & -> & Hc).
  { destruct value as [|c v']; [done|]. simpl in Hval.
    apply andb_prop in Hval as [? _]. by exists c, v'. }
  assert (Hrun : run (in_charset value_char) ((c :: v') ++ rest) = c :: v').
  { rewrite run_app_all by done. rewrite run_stop, app_nil_r; [done|].
    destruct rest; [done|]. by apply negb_true_iff. }
  assert (Hnq : in_charset quote c = false).
  { destruct (in_charset quote c) eqn:Hq'; [|done].
    by rewrite (quote_not_value c Hq') in Hc. }
  assert (Hns : in_charset spaces c = false).
  { destruct (in_charset spaces c) eqn:Hs'; [|done].
    by rewrite (space_not_value c Hs') in Hc. }
  rewrite skip_app_all.
  2:{ by rewrite forallb_spaces. }
  destruct oq as [|q [|]]; try done; simpl app.
  - simpl skip. rewrite Hns. unfold drop_quote. rewrite Hnq.
    change (c :: v' ++ rest) with ((c :: v') ++ rest). by rewrite Hrun.
  - simpl in Hq. simpl skip.
    assert (in_charset spaces q = false) as ->.
    { destruct (in_charset spaces q) eqn:Hs'; [|done].
      by rewrite (space_not_quote q Hs') in Hq. }
    unfold drop_quote. rewrite Hq.
    change (c :: v' ++ rest) with ((c :: v') ++ rest). by rewrite Hrun.
Qed.

(** The value of a line of the shape: prefix, keyword, white space,
    separator, white space, optional quote, value. *)
Lemma find_value_shape pre kw ws1 sep ws2 oq value rest :
  is_keyword kw = true →
  forallb isspace ws1 = true → in_charset separator sep = true →
  forallb isspace ws2 = true → opt_quote oq = true →
  value ≠ [] → forallb (in_charset value_char) value = true →
  value_ends rest = true →
  no_candidate_before pre (kw ++ ws1 ++ sep :: ws2 ++ oq ++ value ++ rest) = true →
  find_value (pre ++ kw ++ ws1 ++ sep :: ws2 ++ oq ++ value ++ rest) = Some value.
Proof.
  intros Hkw Hws1 Hsep Hws2 Hq Hne Hval Hrest Hpre.
  rewrite find_value_skip by done. rewrite find_value_unfold.
  set (tl := ws2 ++ oq ++ value ++ rest).
  assert (Htl : after_separator tl = Some value) by by apply after_separator_value.
  apply existsb_exists in Hkw as (K & HK%list_elem_of_In & Hw).
  assert (Hspaces : forallb (in_charset spaces) ws1 = true).
  { by rewrite forallb_spaces. }
  assert (Ha : forallb (fun c => negb (in_charset separator c)) (kw ++ ws1) = true).
  { rewrite forallb_app, (keyword_no_separator K kw HK Hw). simpl.
    apply forallb_forall. intros c Hc. rewrite forallb_forall in Hspaces.
    by rewrite (space_not_separator c (Hspaces c Hc)). }
  destruct (value_at_before_separator (kw ++ ws1) sep tl Ha Hsep) as [Hn|Hv];
    rewrite <- app_assoc in *.
  - pose proof (first_word_None _ _ _ K Hn HK) as HKn.
    rewrite (strip_word_match K kw _ Hw) in HKn. simpl in HKn.
    unfold after_word in HKn. rewrite skip_app_all in HKn by done.
    simpl in HKn. rewrite (separator_not_space sep Hsep), Hsep in HKn. congruence.
  - by rewrite Hv, Htl.
Qed.

(** A line without any keyword has no match. *)
Lemma find_value_keyword s v :
  find_value s = Some v → ∃ kw, is_keyword kw = true ∧ occurs_in kw s.
Proof.
  induction s as [|c s IH]; rewrite find_value_unfold.
  - destruct (value_at []) eqn:Hv; [|done]. intros _.
    apply first_word_Some in Hv as (K & t & HK & Ht & _).
    destruct K; [|done]. exfalso. revert HK. clear. vm_compute.
    intros H. repeat (apply elem_of_cons in H as [H|H]; [done|]). by apply elem_of_nil in H.
  - destruct (value_at (c :: s)) eqn:Hv.
    + intros _. apply first_word_Some in Hv as (K & t & HK & Ht & _).
      assert (∀ K s t, strip_word K s = Some t →
                ∃ kw, s = kw ++ t ∧ word_match K kw = true) as Hsplit.
      { clear. induction K as [|l K IH]; intros s t; simpl.
        - intros [= ->]. by exists [].
        - destruct s as [|c s]; [done|].
          destruct (literal_match true l c) eqn:Hl; [|done].
          intros (kw & -> & Hw)%IH. exists (c :: kw). simpl. by rewrite Hl, Hw. }
      destruct (Hsplit K _ _ Ht) as (kw & Hs & Hw). exists kw. split.
      * apply existsb_exists. exists K. split; [by apply list_elem_of_In|done].
      * exists [], t. by rewrite Hs.
    + intros (kw & Hkw & a & b & ->)%IH. exists kw. split; [done|].
      by exists (c :: a), b.
Qed.

(** ** Properties of the matcher *)

Lemma contains_keyword_unfold s :
  contains_keyword s
  = existsb (fun K => bool_decide (is_Some (strip_word K s))) keywords
    || match s with [] => false | _ :: s' => contains_keyword s' end.
Proof. by destruct s. Qed.

Lemma contains_keyword_occurs kw s :
  is_keyword kw = true → occurs_in kw s → contains_keyword s = true.
Proof.
  intros (K & HK & Hw)%existsb_exists (a & b & ->).
  induction a as [|c a IH].
  - rewrite contains_keyword_unfold.
    apply orb_true_intro. left. apply existsb_exists. exists K. split; [done|].
    simpl app. rewrite (strip_word_match K kw b Hw). by apply bool_decide_eq_true.
  - change ((c :: a) ++ kw ++ b) with (c :: (a ++ kw ++ b)).
    rewrite contains_keyword_unfold, IH. apply orb_true_r.
Qed.

Lemma find_value_no_keyword s : contains_keyword s = false → find_value s = None.
Proof.
  intros Hn. destruct (find_value s) as [v|] eqn:Hv; [|done].
  destruct (find_value_keyword s v Hv) as (kw & Hkw & Ho).
  by rewrite (contains_keyword_occurs kw s Hkw Ho) in Hn.
Qed.

Lemma lstrip_skip s : lstrip s = skip isspace s.
Proof. induction s as [|c s IH]; simpl; [done|]. by rewrite IH. Qed.

Lemma run_all (P : N → bool) s : forallb P (run P s) = true.
Proof. induction s as [|c s IH]; simpl; [done|]. destruct (P c) eqn:Hc; simpl; [by rewrite Hc|done]. Qed.

Lemma skip_head (P : N → bool) s :
  match skip P s with c :: _ => P c = false | [] => True end.
Proof. induction s as [|c s IH]; simpl; [done|]. by destruct (P c) eqn:Hc. Qed.

Lemma strip_decompose s :
  ∃ a b, s = a ++ strip s ++ b ∧ forallb isspace a = true ∧ forallb isspace b = true.
Proof.
  unfold strip, rstrip. rewrite (lstrip_skip s), (lstrip_skip (rev _)).
  exists (run isspace s), (rev (run isspace (rev (skip isspace s)))). split_and!.
  - rewrite <- rev_app_distr, run_skip, rev_involutive. by rewrite run_skip.
  - apply run_all.
  - apply forallb_forall. intros x Hx%in_rev.
    pose proof (run_all isspace (rev (skip isspace s))) as H.
    rewrite forallb_forall in H. by apply H.
Qed.

Lemma strip_first s :
  match strip s with c :: _ => isspace c = false | [] => True end.
Proof.
  unfold strip, rstrip. rewrite (lstrip_skip s), (lstrip_skip (rev _)).
  pose proof (skip_head isspace s) as Hh.
  set (t := skip isspace s) in *.
  assert (t = rev (skip isspace (rev t)) ++ rev (run isspace (rev t))) as Ht.
  { by rewrite <- rev_app_distr, run_skip, rev_involutive. }
  destruct (rev (skip isspace (rev t))) as [|c u]; [done|].
  by rewrite Ht in Hh.
Qed.

Lemma strip_last s :
  match rev (strip s) with c :: _ => isspace c = false | [] => True end.
Proof.
  unfold strip, rstrip. rewrite (lstrip_skip s), (lstrip_skip (rev _)), rev_involutive.
  apply skip_head.
Qed.

(** C10: [check_file_for_passwords] is a function of [file_content] alone:
    two calls with the same content and any two paths return the same list
    of matches. *)
Theorem check_file_for_passwords_ignores_path :
  ∀ file_content file_path file_path',
    check_file_for_passwords file_content file_path
    = check_file_for_passwords file_content file_path'.
Proof. reflexivity. Qed.

(** C9: the full-line component of every match that
    [check_file_for_passwords] returns is [line.strip()] of the line it
    comes from: the line without its leading and trailing white space,
    which is not always the raw line. *)
Theorem full_line_is_stripped :
  (∀ file_content file_path (m : line_match),
     m ∈ check_file_for_passwords file_content file_path →
     ∃ (i : nat) (line a b : str),
       splitlines file_content !! i = Some line
       ∧ line_no m = (Z.of_nat i + 1)%Z
       ∧ m.2 = strip line
       ∧ line = a ++ m.2 ++ b
       ∧ forallb isspace a = true ∧ forallb isspace b = true
       ∧ match m.2 with c :: _ => isspace c = false | [] => True end
       ∧ match rev m.2 with c :: _ => isspace c = false | [] => True end)
  ∧ check_file_for_passwords (txt "  key=abc  ") (txt "a.py")
    = [(Some (txt "abc"), 1%Z, txt "key=abc")].
Proof.
  split; [|by vm_compute].
  intros file_content file_path m (i & line & v & Hi & _ & ->)%elem_of_check_file.
  destruct (strip_decompose line) as (a & b & Hl & Ha & Hb).
  exists i, line, a, b. simpl. split_and!; try done.
  - apply strip_first.
  - apply strip_last.
Qed.

Lemma full_line_is_stripped_witness :
  ∃ (i : nat) (line a b : str),
    splitlines ([0x09] ++ txt "Token: t0p ") !! i = Some line
    ∧ line_no (Some (txt "t0p"), 1%Z, txt "Token: t0p") = (Z.of_nat i + 1)%Z
    ∧ txt "Token: t0p" = strip line
    ∧ line = a ++ txt "Token: t0p" ++ b
    ∧ forallb isspace a = true ∧ forallb isspace b = true
    ∧ match txt "Token: t0p" with c :: _ => isspace c = false | [] => True end
    ∧ match rev (txt "Token: t0p") with c :: _ => isspace c = false | [] => True end.
Proof.
  apply (proj1 full_line_is_stripped ([0x09] ++ txt "Token: t0p ") (txt "conf.ini")
           (Some (txt "t0p"), 1%Z, txt "Token: t0p")).
  vm_compute. left.
Defined.

(** C1: a line that is a keyword (one of password, passwd, pwd, secret,
    token, key, in any case), then [:] or [=], then a non-empty value free of
    white space, quotes, [&] and [;], yields one match, which carries that
    value.  The same holds when the keyword is inside a longer text, white
    space surrounds the separator, a quote opens the value and something
    that cannot extend the value follows it, provided the keyword is the
    first one of the line that a separator follows.  A line that contains
    no keyword yields no match.  And a file [config.py] whose fifth line is
    the text password = Qabc123Q (Q the double quote) yields the finding
    (config.py, abc123, 5, that line). *)
Theorem matcher_returns_value :
  (∀ file_content file_path (i : nat) (line : str),
    splitlines file_content !! i = Some line →
    (∀ kw sep value,
       line = kw ++ sep :: value →
       is_keyword kw = true → in_charset separator sep = true →
       value ≠ [] → forallb (in_charset value_char) value = true →
       filter (fun m => line_no m = (Z.of_nat i + 1)%Z)
              (check_file_for_passwords file_content file_path)
       = [(Some value, (Z.of_nat i + 1)%Z, strip line)])
    ∧ (∀ pre kw ws1 sep ws2 oq value rest,
       line = pre ++ kw ++ ws1 ++ sep :: ws2 ++ oq ++ value ++ rest →
       is_keyword kw = true →
       forallb isspace ws1 = true → in_charset separator sep = true →
       forallb isspace ws2 = true → opt_quote oq = true →
       value ≠ [] → forallb (in_charset value_char) value = true →
       value_ends rest = true →
       no_candidate_before pre (kw ++ ws1 ++ sep :: ws2 ++ oq ++ value ++ rest) = true →
       filter (fun m => line_no m = (Z.of_nat i + 1)%Z)
              (check_file_for_passwords file_content file_path)
       = [(Some value, (Z.of_nat i + 1)%Z, strip line)])
    ∧ (contains_keyword line = false →
       filter (fun m => line_no m = (Z.of_nat i + 1)%Z)
              (check_file_for_passwords file_content file_path) = []))
  ∧ ∃ st,
      process_repository config_repo (recursion_limit config_repo) 3 Root start
      = Returned [(txt "config.py", Some (txt "abc123"), 5%Z, password_line)] st.
Proof.
  split; [|eexists; by vm_compute].
  intros file_content file_path i line Hi. rewrite (check_file_line _ _ i line Hi).
  split; [|split].
  - intros kw sep value -> Hkw Hsep Hne Hval.
    pose proof (find_value_shape [] kw [] sep [] [] value []) as H.
    simpl app in H. rewrite app_nil_r in H. by rewrite H.
  - intros pre kw ws1 sep ws2 oq value rest -> Hkw Hws1 Hsep Hws2 Hq Hne Hval Hrest Hpre.
    by rewrite find_value_shape.
  - intros Hn. by rewrite find_value_no_keyword.
Qed.

Lemma matcher_returns_value_witness :
  filter (fun m => line_no m = 1%Z)
         (check_file_for_passwords (txt "PassWord=hunter2") (txt "a.js"))
  = [(Some (txt "hunter2"), 1%Z, txt "PassWord=hunter2")]
  ∧ filter (fun m => line_no m = 1%Z)
           (check_file_for_passwords (txt "  api_Key = 'abc123'; // rotate") (txt "a.js"))
    = [(Some (txt "abc123"), 1%Z, txt "api_Key = 'abc123'; // rotate")]
  ∧ filter (fun m => line_no m = 1%Z)
           (check_file_for_passwords (txt "nothing = to & see") (txt "a.js")) = [].
Proof.
  split; [|split].
  - refine (proj1 (proj1 matcher_returns_value
              (txt "PassWord=hunter2") (txt "a.js") 0%nat _ eq_refl)
              (txt "PassWord") 0x3D (txt "hunter2") eq_refl eq_refl eq_refl _ eq_refl).
    discriminate.
  - refine (proj1 (proj2 (proj1 matcher_returns_value
              (txt "  api_Key = 'abc123'; // rotate") (txt "a.js") 0%nat _ eq_refl))
              (txt "  api_") (txt "Key") [0x20] 0x3D [0x20] [0x27] (txt "abc123")
              (txt "'; // rotate") eq_refl eq_refl eq_refl eq_refl eq_refl eq_refl _
              eq_refl eq_refl eq_refl).
    discriminate.
  - exact (proj2 (proj2 (proj1 matcher_returns_value
              (txt "nothing = to & see") (txt "a.js") 0%nat _ eq_refl)) eq_refl).
Defined.

Lemma later_lines (start : Z) (lines : list str) (n : Z) :
  (n < start + 1)%Z →
  filter (fun m => line_no m = n) (enumerate start lines ≫= scan_line) = [].
Proof.
  revert start. induction lines as [|l ls IH]; intros start Hn; [done|].
  simpl enumerate. rewrite bind_cons, filter_app, (IH (start + 1)%Z) by lia.
  rewrite app_nil_r. unfold scan_line. simpl. destruct (find_value l); [|done].
  rewrite filter_cons_False; [done|]. unfold line_no. simpl. lia.
Qed.

Lemma one_per_line (start : Z) (lines : list str) (n : Z) :
  (length (filter (fun m => line_no m = n) (enumerate start lines ≫= scan_line)) ≤ 1)%nat.
Proof.
  revert start. induction lines as [|l ls IH]; intros start; [simpl; lia|].
  simpl enumerate. rewrite bind_cons, filter_app, length_app.
  destruct (decide (n = (start + 1)%Z)) as [->|Hn].
  - rewrite later_lines by lia. unfold scan_line. simpl.
    destruct (find_value l); [|simpl; lia].
    rewrite filter_cons_True by done. simpl. lia.
  - specialize (IH (start + 1)%Z). unfold scan_line at 1. simpl.
    destruct (find_value l); [|simpl; lia].
    rewrite filter_cons_False; [simpl; lia|]. unfold line_no. simpl. lia.
Qed.

(** C6: a line yields at most one match, whatever the line number asked
    for; and on a line with two credentials, one after the other, the match
    reported is the first one. *)
Theorem one_match_per_line :
  ∀ file_content file_path,
    (∀ n : Z,
       (length (filter (fun m => line_no m = n)
                       (check_file_for_passwords file_content file_path)) ≤ 1)%nat)
    ∧ (∀ (i : nat) kw1 sep1 value1 d kw2 sep2 value2,
         splitlines file_content !! i
           = Some (kw1 ++ sep1 :: value1 ++ d :: kw2 ++ sep2 :: value2) →
         is_keyword kw1 = true → in_charset separator sep1 = true →
         value1 ≠ [] → forallb (in_charset value_char) value1 = true →
         in_charset value_char d = false →
         is_keyword kw2 = true → in_charset separator sep2 = true →
         value2 ≠ [] → forallb (in_charset value_char) value2 = true →
         filter (fun m => line_no m = (Z.of_nat i + 1)%Z)
                (check_file_for_passwords file_content file_path)
         = [(Some value1, (Z.of_nat i + 1)%Z,
             strip (kw1 ++ sep1 :: value1 ++ d :: kw2 ++ sep2 :: value2))]).
Proof.
  intros file_content file_path. split.
  - intros n. rewrite check_file_for_passwords_lines. apply one_per_line.
  - intros i kw1 sep1 value1 d kw2 sep2 value2 Hi Hkw1 Hsep1 Hne1 Hv1 Hd _ _ _ _.
    rewrite (check_file_line _ _ i _ Hi).
    pose proof (find_value_shape [] kw1 [] sep1 [] [] value1
                  (d :: kw2 ++ sep2 :: value2)) as H.
    simpl app in H. rewrite H; try done. simpl. by rewrite Hd.
Qed.

Lemma one_match_per_line_witness :
  filter (fun m => line_no m = 1%Z)
         (check_file_for_passwords (txt "pwd=first;TOKEN:second") (txt "env"))
  = [(Some (txt "first"), 1%Z, txt "pwd=first;TOKEN:second")].
Proof.
  refine (proj2 (one_match_per_line (txt "pwd=first;TOKEN:second") (txt "env"))
            0%nat (txt "pwd") 0x3D (txt "first") 0x3B (txt "TOKEN") 0x3A (txt "second")
            eq_refl eq_refl eq_refl _ eq_refl eq_refl eq_refl eq_refl _ eq_refl);
    discriminate.
Defined.

(** ** Properties of the walk *)

Lemma append_matches_tag p ms results :
  append_matches p ms results = results ++ (tag p <$> ms).
Proof.
  unfold append_matches. revert results.
  induction ms as [|[[pw n] full] ms IH]; intros results; simpl.
  - by rewrite app_nil_r.
  - rewrite IH. by rewrite <- app_assoc.
Qed.

Section Walk.
Context {Repository Submodule : Type} (w : world Repository Submodule).
Implicit Types (st : state Repository Submodule) (content : ContentFile)
  (rec : Repository → state Repository Submodule → outcome Repository Submodule).

Lemma while_contents_cons rec n repo content contents results st :
  while_contents w rec (S n) repo (content :: contents) results st
  = match loop_body w rec repo content contents results st with
    | Next contents results st => while_contents w rec n repo contents results st
    | Stop o => o
    end.
Proof. reflexivity. Qed.

Lemma loop_body_submodule rec repo content contents results st :
  type content = txt "submodule" →
  loop_body w rec repo content contents results st
  = let failed e st :=
      Next contents results
        (print (txt "Error processing submodule " ++ path content ++ txt ": " ++ e) st) in
    let st := emit (GetSubmodule repo (path content)) st in
    match get_submodule w repo (path content) with
    | Ok submodule =>
      let st := emit (Module submodule) st in
      match module w submodule with
      | Ok (Some sub_repo) =>
        match rec sub_repo st with
        | Returned sub_results st => Next contents (results ++ sub_results) st
        | Raised e st => failed e st
        | OutOfFuel st => Stop (OutOfFuel st)
        end
      | Ok None =>
        Next contents results
          (print (txt "Warning: Could not get repository object for submodule: "
                  ++ path content) st)
      | Raise e => failed e st
      end
    | Raise e => failed e st
    end.
Proof. intros Ht. unfold loop_body. rewrite Ht. reflexivity. Qed.

End Walk.

Lemma line_numbers_NoDup (start : Z) (lines : list str) :
  NoDup (line_no <$> (enumerate start lines ≫= scan_line))
  ∧ ∀ m, m ∈ enumerate start lines ≫= scan_line → (start < line_no m)%Z.
Proof.
  revert start. induction lines as [|l ls IH]; intros start.
  - split; [constructor|]. by intros m ?%elem_of_nil.
  - destruct (IH (start + 1)%Z) as [Hnd Hgt]. simpl enumerate. rewrite bind_cons.
    unfold scan_line at 1 3. simpl. destruct (find_value l); simpl.
    + split.
      * constructor; [|done]. intros (m & Hm & Hin)%list_elem_of_fmap.
        apply Hgt in Hin. unfold line_no in Hm at 1. simpl in Hm. lia.
      * intros m [->|Hin%Hgt]%elem_of_cons; [unfold line_no; simpl|]; lia.
    + split; [done|]. intros m Hin%Hgt. lia.
Qed.

Lemma tagged_keys_NoDup p file_content file_path :
  NoDup (key <$> (tag p <$> check_file_for_passwords file_content file_path)).
Proof.
  rewrite check_file_for_passwords_lines.
  destruct (line_numbers_NoDup 0 (splitlines file_content)) as [Hnd _].
  revert Hnd. generalize (enumerate 0 (splitlines file_content) ≫= scan_line).
  intros l Hnd.
  assert (key <$> (tag p <$> l) = (fun n => (p, n)) <$> (line_no <$> l)) as ->.
  { rewrite <- !list_fmap_compose. apply list_fmap_ext. by intros _ [[? ?] ?] _. }
  apply NoDup_fmap_2; [|done]. by intros ?? [=].
Qed.

Lemma tagged_path p (ms : list line_match) f : f ∈ tag p <$> ms → (key f).1 = p.
Proof. by intros ([[? ?] ?] & -> & _)%list_elem_of_fmap. Qed.

Section Fuel.
Context {Repository Submodule : Type} (w : world Repository Submodule).
Implicit Types (st : state Repository Submodule) (content : ContentFile)
  (rec : Repository → state Repository Submodule → outcome Repository Submodule).

(** More fuel does not change the result of a call that has ended: a call
    that has not ended with any amount of fuel is a call that does not
    end. *)
Lemma loop_body_mono rec rec' repo content contents results st :
  (∀ r s, finished (rec r s) = true → rec' r s = rec r s) →
  match loop_body w rec repo content contents results st with
  | Stop o => finished o = true
  | Next _ _ _ => True
  end →
  loop_body w rec' repo content contents results st
  = loop_body w rec repo content contents results st.
Proof.
  intros Hrec. unfold loop_body.
  repeat case_bool_decide; try done.
  destruct (get_submodule w repo (path content)) as [sub|]; [|done].
  destruct (module w sub) as [[sub_repo|]|]; try done.
  set (s := emit (Module sub) _).
  destruct (rec sub_repo s) eqn:Hr; try done; intros _;
    rewrite Hrec by (by rewrite Hr); by rewrite Hr.
Qed.

Lemma while_contents_mono rec rec' n n' repo contents results st :
  (∀ r s, finished (rec r s) = true → rec' r s = rec r s) →
  (n ≤ n')%nat →
  finished (while_contents w rec n repo contents results st) = true →
  while_contents w rec' n' repo contents results st
  = while_contents w rec n repo contents results st.
Proof.
  intros Hrec. revert n' contents results st.
  induction n as [|n IH]; intros n' contents results st Hn; [done|].
  destruct n' as [|n']; [lia|]. destruct contents as [|content contents]; [done|].
  rewrite (while_contents_cons w rec), (while_contents_cons w rec').
  pose proof (loop_body_mono rec rec' repo content contents results st Hrec) as Hb.
  destruct (loop_body w rec repo content contents results st) as [c r s|o] eqn:Hl.
  - rewrite Hb by done. apply IH. lia.
  - intros Hfin. by rewrite Hb.
Qed.

Lemma process_repository_unfold depth fuel repo st :
  process_repository w depth fuel repo st
  = match get_contents w repo [] with
    | Ok contents =>
      while_contents w (nested w depth fuel) fuel repo contents []
        (emit (GetContents repo []) st)
    | Raise e => Raised e (emit (GetContents repo []) st)
    end.
Proof. by destruct depth. Qed.

Lemma process_repository_mono depth fuel fuel' repo st :
  (fuel ≤ fuel')%nat →
  finished (process_repository w depth fuel repo st) = true →
  process_repository w depth fuel' repo st = process_repository w depth fuel repo st.
Proof.
  intros Hle. revert repo st.
  induction depth as [|depth IH]; intros repo st; rewrite !process_repository_unfold;
    (destruct (get_contents w repo []); [|done]);
    apply while_contents_mono; try done.
Qed.
End Fuel.

Section Ends.
Context {Repository Submodule : Type} (w : world Repository Submodule).
Implicit Types (st : state Repository Submodule) (content : ContentFile)
  (rec : Repository → state Repository Submodule → outcome Repository Submodule).

Lemma flat_unfold d repo content :
  flat w d repo content
  = if bool_decide (type content = txt "dir") then
      match get_contents w repo (path content) with
      | Ok l =>
        match d with
        | O => false
        | S d' => forallb (flat w d' repo) l
        end
      | Raise _ => true
      end
    else true.
Proof. by destruct d. Qed.

Lemma entry_cost_unfold sub d repo content :
  entry_cost w sub d repo content
  = if bool_decide (type content = txt "dir") then
      match d with
      | O => 1%nat
      | S d' =>
        match get_contents w repo (path content) with
        | Ok l => S (sum_list_with (entry_cost w sub d' repo) l)
        | Raise _ => 1%nat
        end
      end
    else if bool_decide (type content = txt "submodule") then
      match get_submodule w repo (path content) with
      | Ok submodule =>
        match module w submodule with
        | Ok (Some sub_repo) => S (sub sub_repo)
        | _ => 1%nat
        end
      | Raise _ => 1%nat
      end
    else 1%nat.
Proof. by destruct d. Qed.

Lemma entry_cost_positive sub d repo content :
  (1 ≤ entry_cost w sub d repo content)%nat.
Proof. rewrite entry_cost_unfold. repeat case_match; lia. Qed.

Lemma flat_queue sub d repo (l : list ContentFile) :
  forallb (flat w d repo) l = true →
  Forall (fun dc => flat w dc.1 repo dc.2 = true) (pair d <$> l)
  ∧ sum_list_with (fun dc => entry_cost w sub dc.1 repo dc.2) (pair d <$> l)
    = sum_list_with (entry_cost w sub d repo) l
  ∧ snd <$> (pair d <$> l) = l.
Proof.
  induction l as [|c l IH]; simpl; [done|].
  intros [Hc Hl]%andb_prop. destruct (IH Hl) as (Hall & Hsum & Hsnd).
  split; [by constructor|]. split; [f_equal; exact Hsum|f_equal; exact Hsnd].
Qed.

(** The loop ends when the directories of its queue are finite and the
    calls for the submodules end. *)
Lemma while_contents_flat_ends (sub : Repository → nat) rec fuel m :
  (∀ r st, (sub r < fuel)%nat → finished (rec r st) = true) →
  ∀ repo (queue : list (nat * ContentFile)),
    Forall (fun dc => flat w dc.1 repo dc.2 = true) queue →
    (sum_list_with (fun dc => entry_cost w sub dc.1 repo dc.2) queue ≤ m)%nat →
    ∀ n results st,
      (m ≤ fuel)%nat → (m < n)%nat →
      finished (while_contents w rec n repo (snd <$> queue) results st) = true.
Proof.
  intros Hrec. induction m as [m IH] using lt_wf_ind.
  intros repo queue Hok Hsum n results st Hfuel Hn.
  destruct n as [|n]; [lia|].
  destruct queue as [|[d c] queue]; [done|].
  rewrite fmap_cons. cbn [snd]. rewrite while_contents_cons.
  apply Forall_cons in Hok as [Hc Hok]. cbn [fst snd] in Hc.
  cbn [sum_list_with fst snd] in Hsum.
  pose proof (entry_cost_positive sub d repo c) as Hpos.
  assert (Htail : ∀ results st,
             finished (while_contents w rec n repo (snd <$> queue) results st) = true).
  { intros results' st'. apply (IH (m - 1)%nat); [lia|done|lia|lia|lia]. }
  unfold loop_body.
  case_bool_decide as Hf.
  { case_bool_decide; [apply Htail|]. destruct (decoded_content c); apply Htail. }
  rewrite flat_unfold in Hc. rewrite entry_cost_unfold in Hsum.
  destruct (decide (type c = txt "dir")) as [Hd|Hd].
  { rewrite (bool_decide_true _ Hd) in *.
    destruct (get_contents w repo (path c)) as [l|e] eqn:Hl; [|done].
    destruct d as [|d]; [done|].
    destruct (flat_queue sub d repo l Hc) as (Hall & Hcost & Hsnd).
    rewrite <- Hsnd, <- fmap_app. apply (IH (m - 1)%nat); [lia| | |lia|lia].
    - by apply Forall_app.
    - rewrite sum_list_with_app, Hcost. lia. }
  rewrite (bool_decide_false _ Hd) in *.
  destruct (decide (type c = txt "submodule")) as [Hs|Hs];
    [rewrite (bool_decide_true _ Hs) in *|rewrite (bool_decide_false _ Hs); apply Htail].
  destruct (get_submodule w repo (path c)) as [submodule|e]; [|apply Htail].
  destruct (module w submodule) as [[sub_repo|]|e]; [|apply Htail..].
  pose proof (Hrec sub_repo (emit (Module submodule)
                               (emit (GetSubmodule repo (path c)) st))) as Hr.
  destruct (rec sub_repo _); [apply Htail..|]. apply Hr. lia.
Qed.

Lemma process_repository_ends d :
  finite_trees w d →
  ∀ depth repo fuel st,
    (walk_cost w d depth repo ≤ fuel)%nat →
    finished (process_repository w depth fuel repo st) = true.
Proof.
  intros Hflat depth.
  induction depth as [|depth IH]; intros repo fuel st; rewrite process_repository_unfold;
    cbn [walk_cost]; (destruct (get_contents w repo []) as [l|e] eqn:Hl; [|done]);
    intros Hfuel.
  - destruct (flat_queue (fun _ => O) d repo l (Hflat repo l Hl)) as (Hall & Hcost & Hsnd).
    rewrite <- Hsnd.
    apply (while_contents_flat_ends (fun _ => O) _ fuel
             (sum_list_with (entry_cost w (fun _ => O) d repo) l));
      [done|done|lia|lia|lia].
  - destruct (flat_queue (walk_cost w d depth) d repo l (Hflat repo l Hl))
      as (Hall & Hcost & Hsnd).
    rewrite <- Hsnd.
    apply (while_contents_flat_ends (walk_cost w d depth) _ fuel
             (sum_list_with (entry_cost w (walk_cost w d depth) d repo) l));
      [|done|lia|lia|lia].
    intros r st' Hr. apply IH. lia.
Qed.
End Ends.

Ltac split5 := split; [|split; [|split; [|split]]].

Section Invariant.
Context {Repository Submodule : Type} (w : world Repository Submodule).
Implicit Types (st : state Repository Submodule) (content : ContentFile)
  (ev : event Repository Submodule)
  (rec : Repository → state Repository Submodule → outcome Repository Submodule).

Lemma walked_refl st : walked st st [].
Proof.
  split; [done|]. exists []. rewrite app_nil_r.
  split5; [done|apply NoDup_nil_2| |apply NoDup_nil_2|].
  - by intros p ?%elem_of_nil.
  - by intros f ?%elem_of_nil.
Qed.

Lemma walked_trans st st' st'' a1 a2 :
  walked st st' a1 → walked st' st'' a2 → walked st st'' (a1 ++ a2).
Proof.
  intros (Hs1 & tr1 & Ht1 & Hn1 & Hp1 & Hk1 & Hf1) (Hs2 & tr2 & Ht2 & Hn2 & Hp2 & Hk2 & Hf2).
  split; [by etrans|]. exists (tr1 ++ tr2).
  assert (scanned (tr1 ++ tr2) = scanned tr1 ++ scanned tr2) as ->
    by apply omap_app.
  rewrite Ht2, Ht1, <- app_assoc, fmap_app. split5; [done|..].
  - apply NoDup_app. split; [done|split; [|done]].
    intros p Hin1 Hin2. destruct (Hp1 p Hin1), (Hp2 p Hin2). done.
  - intros p [Hin|Hin]%elem_of_app.
    + destruct (Hp1 p Hin) as [Hnot Hyes]. split; [done|]. by apply Hs2.
    + destruct (Hp2 p Hin) as [Hnot Hyes]. split; [|done].
      intros Hold. apply Hnot. by apply Hs1.
  - apply NoDup_app. split; [done|split; [|done]].
    intros k (f1 & -> & Hin1)%list_elem_of_fmap (f2 & Heq & Hin2)%list_elem_of_fmap.
    apply Hf1 in Hin1. apply Hf2 in Hin2. rewrite <- Heq in Hin2.
    destruct (Hp1 _ Hin1), (Hp2 _ Hin2). done.
  - intros f [Hin|Hin]%elem_of_app; apply elem_of_app; [left|right]; auto.
Qed.

Lemma walked_drop st st' a : walked st st' a → walked st st' [].
Proof.
  intros (Hs & tr & Ht & Hn & Hp & _ & _). split; [done|]. exists tr.
  split5; [done|done|done|apply NoDup_nil_2|]. by intros f ?%elem_of_nil.
Qed.

Lemma walked_emit st ev : quiet ev → walked st (emit ev st) [].
Proof.
  intros Hq. split; [done|]. exists [ev].
  assert (scanned [ev] = []) as Hs.
  { unfold scanned. simpl. destruct ev; try done. by destruct (Hq p). }
  rewrite Hs. split5; [done|apply NoDup_nil_2| |apply NoDup_nil_2|].
  - by intros p ?%elem_of_nil.
  - by intros f ?%elem_of_nil.
Qed.

Lemma walked_then_emit st st' a ev :
  walked st st' a → quiet ev → walked st (emit ev st') a.
Proof.
  intros H Hq. rewrite <- (app_nil_r a).
  eapply walked_trans; [done|]. by apply walked_emit.
Qed.

Lemma walked_scan st p (ms : list line_match) :
  p ∉ processed_files st →
  NoDup (key <$> (tag p <$> ms)) →
  walked st (emit (DecodedContent p) (add p st)) (tag p <$> ms).
Proof.
  intros Hp Hk. split; [simpl; set_solver|]. exists [DecodedContent p].
  split5; [done| | |done|].
  - apply NoDup_singleton.
  - intros q ->%list_elem_of_singleton. simpl. set_solver.
  - intros f Hf. rewrite (tagged_path p ms f Hf). by apply list_elem_of_singleton.
Qed.

Lemma loop_body_walked rec repo content contents results st :
  rec_ok rec →
  match loop_body w rec repo content contents results st with
  | Next _ results' st' => ∃ a, results' = results ++ a ∧ walked st st' a
  | Stop o => walked st (final o) [] ∧ returned o = []
              ∧ ∀ results' st', o ≠ Returned results' st'
  end.
Proof.
  intros Hrec. unfold loop_body.
  assert (Hq : ∀ line, quiet (Print line : event Repository Submodule)) by done.
  case_bool_decide; [case_bool_decide|case_bool_decide; [|case_bool_decide]].
  - exists []. rewrite app_nil_r. split; [done|apply walked_refl].
  - destruct (decoded_content content) as [b|e].
    + eexists. rewrite append_matches_tag. split; [done|].
      apply walked_scan; [done|]. apply tagged_keys_NoDup.
    + exists []. rewrite app_nil_r. split; [done|].
      apply walked_then_emit; [|done].
      change (@nil finding) with (tag (path content) <$> @nil line_match).
      apply walked_scan; [done|apply NoDup_nil_2].
  - destruct (get_contents w repo (path content)).
    + exists []. rewrite app_nil_r. split; [done|]. by apply walked_emit.
    + split; [by apply walked_emit|done].
  - assert (Hg : walked st (emit (GetSubmodule repo (path content)) st) [])
      by by apply walked_emit.
    destruct (get_submodule w repo (path content)) as [sub|e].
    2:{ exists []. rewrite app_nil_r. split; [done|]. by apply walked_then_emit. }
    assert (Hm : walked st (emit (Module sub)
                   (emit (GetSubmodule repo (path content)) st)) [])
      by by apply walked_then_emit.
    destruct (module w sub) as [[sub_repo|]|e].
    + pose proof (Hrec sub_repo (emit (Module sub)
                    (emit (GetSubmodule repo (path content)) st))) as Hr.
      destruct (rec sub_repo _) as [sub_results st'|e st'|st']; simpl in Hr.
      * exists sub_results. split; [done|].
        change sub_results with ([] ++ sub_results). by eapply walked_trans.
      * exists []. rewrite app_nil_r. split; [done|].
        apply walked_then_emit; [|done].
        change (@nil finding) with (@nil finding ++ []). by eapply walked_trans.
      * split; [|done].
        change (@nil finding) with (@nil finding ++ []). by eapply walked_trans.
    + exists []. rewrite app_nil_r. split; [done|]. by apply walked_then_emit.
    + exists []. rewrite app_nil_r. split; [done|]. by apply walked_then_emit.
  - exists []. rewrite app_nil_r. split; [done|]. by apply walked_emit.
Qed.

Lemma while_contents_walked rec n repo contents results st :
  rec_ok rec →
  ∃ a, walked st (final (while_contents w rec n repo contents results st)) a
       ∧ match while_contents w rec n repo contents results st with
         | Returned results' _ => results' = results ++ a
         | _ => True
         end.
Proof.
  intros Hrec. revert contents results st.
  induction n as [|n IH]; intros contents results st.
  { exists []. split; [apply walked_refl|done]. }
  destruct contents as [|content contents].
  { exists []. split; [apply walked_refl|]. simpl. by rewrite app_nil_r. }
  rewrite while_contents_cons.
  pose proof (loop_body_walked rec repo content contents results st Hrec) as Hb.
  destruct (loop_body w rec repo content contents results st) as [c r s|o].
  - destruct Hb as (a1 & -> & H1). destruct (IH c (results ++ a1) s) as (a2 & H2 & Hout).
    exists (a1 ++ a2). split; [by eapply walked_trans|].
    destruct (while_contents w rec n repo c (results ++ a1) s); try done.
    by rewrite app_assoc.
  - destruct Hb as (Hw & _ & Hnot). exists []. split; [done|].
    destruct o as [results' st'| |]; [|done..]. by destruct (Hnot results' st').
Qed.

Lemma too_deep_walked : rec_ok (too_deep : Repository → state Repository Submodule → _).
Proof. intros repo st. apply walked_refl. Qed.

Lemma process_repository_walked depth fuel : rec_ok (process_repository w depth fuel).
Proof.
  assert (Hstep : ∀ d, rec_ok (nested w d fuel) → rec_ok (process_repository w d fuel)).
  { intros d Hrec repo st. rewrite process_repository_unfold.
    assert (Hg : walked st (emit (GetContents repo []) st) []) by by apply walked_emit.
    destruct (get_contents w repo []) as [contents|e]; [|done].
    destruct (while_contents_walked (nested w d fuel) fuel repo contents []
                (emit (GetContents repo []) st) Hrec) as (a & Ha & Hout).
    destruct (while_contents w (nested w d fuel) fuel repo contents []
                (emit (GetContents repo []) st)) as [results st'|e st'|st']; simpl in *.
    - rewrite Hout. change a with ([] ++ a). by eapply walked_trans.
    - apply (walked_drop _ _ ([] ++ a)). by eapply walked_trans.
    - apply (walked_drop _ _ ([] ++ a)). by eapply walked_trans. }
  induction depth as [|depth IH]; apply Hstep; [apply too_deep_walked|exact IH].
Qed.

Lemma nested_walked depth fuel : rec_ok (nested w depth fuel).
Proof. destruct depth; [apply too_deep_walked|apply process_repository_walked]. Qed.
End Invariant.

Section Errors.
Context {Repository Submodule : Type} (w : world Repository Submodule).
Implicit Types (st : state Repository Submodule) (content : ContentFile)
  (rec : Repository → state Repository Submodule → outcome Repository Submodule).

(** C8: an error on one entry costs that entry only.  When the content
    of a file entry cannot be read, the exception is caught, the line
    [Error reading file <path>: <e>] is printed, no finding is added, the
    path stays marked as processed and the loop goes on with the rest of the
    queue.  Bytes that are not valid UTF-8 are no such error: whatever the
    bytes, the file is decoded (what cannot be decoded is dropped) and
    scanned, and nothing is printed.  When a submodule cannot be resolved
    ([get_submodule] or [module] raises, or [module] returns nothing) and
    when the walk of the submodule raises, a line with the path of the
    submodule is printed, no finding is added and the loop goes on with the
    rest of the queue.  When the queue is empty the loop returns what it has
    found.  And whatever the loop does with the rest of the queue, what was
    printed stays in the trace, what was found stays in the results, and
    what is found later is for paths that were not processed before: never
    for the file that could not be read. *)
Theorem errors_skip_one_entry rec n repo content rest results st :
  (type content = txt "file" →
   path content ∉ processed_files st →
   (∀ e, decoded_content content = Raise e →
      while_contents w rec (S n) repo (content :: rest) results st
      = while_contents w rec n repo rest results
          {| processed_files := {[path content]} ∪ processed_files st;
             trace := trace st
                      ++ [DecodedContent (path content);
                          Print (txt "Error reading file " ++ path content
                                 ++ txt ": " ++ e)] |})
   ∧ (∀ b, decoded_content content = Ok b →
      while_contents w rec (S n) repo (content :: rest) results st
      = while_contents w rec n repo rest
          (results
           ++ (tag (path content)
                 <$> check_file_for_passwords (decode_utf8_ignore b) (path content)))
          {| processed_files := {[path content]} ∪ processed_files st;
             trace := trace st ++ [DecodedContent (path content)] |}))
  ∧ (type content = txt "submodule" →
     (∀ e, get_submodule w repo (path content) = Raise e →
        while_contents w rec (S n) repo (content :: rest) results st
        = while_contents w rec n repo rest results
            {| processed_files := processed_files st;
               trace := trace st
                        ++ [GetSubmodule repo (path content);
                            Print (txt "Error processing submodule " ++ path content
                                   ++ txt ": " ++ e)] |})
     ∧ (∀ sub, get_submodule w repo (path content) = Ok sub →
        (∀ e, module w sub = Raise e →
           while_contents w rec (S n) repo (content :: rest) results st
           = while_contents w rec n repo rest results
               {| processed_files := processed_files st;
                  trace := trace st
                           ++ [GetSubmodule repo (path content); Module sub;
                               Print (txt "Error processing submodule "
                                      ++ path content ++ txt ": " ++ e)] |})
        ∧ (module w sub = Ok None →
           while_contents w rec (S n) repo (content :: rest) results st
           = while_contents w rec n repo rest results
               {| processed_files := processed_files st;
                  trace := trace st
                           ++ [GetSubmodule repo (path content); Module sub;
                               Print (txt "Warning: Could not get repository object for submodule: "
                                      ++ path content)] |})
        ∧ (∀ sub_repo e st3,
             module w sub = Ok (Some sub_repo) →
             rec sub_repo
               {| processed_files := processed_files st;
                  trace := trace st ++ [GetSubmodule repo (path content); Module sub] |}
             = Raised e st3 →
             while_contents w rec (S n) repo (content :: rest) results st
             = while_contents w rec n repo rest results
                 {| processed_files := processed_files st3;
                    trace := trace st3
                             ++ [Print (txt "Error processing submodule "
                                        ++ path content ++ txt ": " ++ e)] |})))
  ∧ while_contents w rec (S n) repo [] results st = Returned results st
  ∧ (∀ depth fuel st',
       ∃ tr added,
         trace (final (while_contents w (nested w depth fuel) n repo rest results st'))
         = trace st' ++ tr
         ∧ (∀ results' st'',
              while_contents w (nested w depth fuel) n repo rest results st'
              = Returned results' st'' →
              results' = results ++ added)
         ∧ ∀ f, f ∈ added → (key f).1 ∉ processed_files st').
Proof.
  split; [|split; [|split; [done|]]]; cycle 2.
  { intros depth fuel st'.
    destruct (while_contents_walked w (nested w depth fuel) n repo rest results st'
                (nested_walked w depth fuel))
      as (a & (_ & tr & Ht & _ & Hp & _ & Hf) & Hout).
    exists tr, a. split; [done|]. split.
    - intros results' st'' Hret. by rewrite Hret in Hout.
    - intros f Hin. by destruct (Hp _ (Hf f Hin)). }
  - intros Ht Hp.
    rewrite while_contents_cons. unfold loop_body.
    rewrite (bool_decide_eq_true_2 _ Ht), (bool_decide_eq_false_2 _ Hp).
    split.
    + intros e ->. unfold print, emit, add. cbn [trace processed_files].
      by rewrite <- app_assoc.
    + intros b ->. by rewrite append_matches_tag.
  - intros Ht.
    rewrite while_contents_cons, (loop_body_submodule w _ _ _ _ _ _ Ht).
    cbv zeta. unfold print, emit. cbn [trace processed_files]. split.
    + intros e ->. by rewrite <- app_assoc.
    + intros sub ->. split; [|split].
      * intros e ->. cbn [trace processed_files]. by rewrite <- !app_assoc.
      * intros ->. cbn [trace processed_files]. by rewrite <- !app_assoc.
      * intros sub_repo e st3 ->. cbn [trace processed_files].
        rewrite <- !app_assoc. cbn [app]. by intros ->.
Qed.
End Errors.

Lemma errors_skip_one_entry_witness :
  while_contents broken_repo too_deep 3 Root [unreadable "blob.bin"; env_file] [] start
  = Returned [(txt "b.env", Some (txt "xyz"), 1%Z, txt "token: xyz")]
      {| processed_files := {[txt "b.env"]} ∪ ({[txt "blob.bin"]} ∪ ∅);
         trace := [DecodedContent (txt "blob.bin");
                   Print (txt "Error reading file blob.bin: unsupported encoding: none");
                   DecodedContent (txt "b.env")] |}.
Proof.
  etransitivity.
  { exact (proj1 (proj1 (errors_skip_one_entry broken_repo too_deep 2 Root
                           (unreadable "blob.bin") [env_file] [] start)
                    eq_refl (not_elem_of_empty _)) _ eq_refl). }
  etransitivity.
  { refine (proj2 (proj1 (errors_skip_one_entry broken_repo too_deep 1 Root
                            env_file [] [] _) eq_refl _) _ eq_refl).
    by vm_compute. }
  exact (proj1 (proj2 (proj2 (errors_skip_one_entry broken_repo too_deep 0 Root env_file
                                 [] _ _)))).
Defined.

Example broken_repo_walk :
  process_repository broken_repo (recursion_limit broken_repo) 8 Root start
  = Returned [(txt "b.env", Some (txt "xyz"), 1%Z, txt "token: xyz")]
      {| processed_files := {[txt "b.env"]} ∪ ({[txt "blob.bin"]} ∪ ∅);
         trace :=
           [GetContents Root [];
            DecodedContent (txt "blob.bin");
            Print (txt "Error reading file blob.bin: unsupported encoding: none");
            GetSubmodule Root (txt "gone");
            Print (txt "Error processing submodule gone: 404 Not Found");
            GetSubmodule Root (txt "nourl"); Module (Raise (txt "no url"));
            Print (txt "Error processing submodule nourl: no url");
            GetSubmodule Root (txt "empty"); Module (Ok None);
            Print (txt "Warning: Could not get repository object for submodule: empty");
            GetSubmodule Root (txt "private"); Module (Ok (Some Vendor));
            GetContents Vendor [];
            Print (txt "Error processing submodule private: 403 Forbidden");
            DecodedContent (txt "b.env")] |}.
Proof. by vm_compute. Qed.

(** A file whose bytes are not valid UTF-8 is scanned all the same. *)
Example undecodable_file_is_scanned :
  process_repository binary_repo (recursion_limit binary_repo) 3 Root start
  = Returned [(txt "blob.bin", Some (txt "abc"), 1%Z, txt "key=abc")]
      {| processed_files := {[txt "blob.bin"]} ∪ ∅;
         trace := [GetContents Root []; DecodedContent (txt "blob.bin")] |}.
Proof. by vm_compute. Qed.

(** C2: [process_repository] terminates on every repository tree, also on
    one with a cycle of submodules, and reads no file path twice.  The walk
    of a cycle goes down until the next call would exceed the recursion
    limit; the [RecursionError] that this call raises is caught like any
    other error of a submodule, and every call returns.  In full: when the
    directories of every repository are nested at most [d] deep, then with
    any recursion limit, from any repository and state, the call ends when
    the fuel allows [walk_cost] iterations, and among the files that it
    read no path occurs twice. *)
Theorem submodule_cycle_walk_ends {Repository Submodule : Type}
    (w : world Repository Submodule) (d : nat) :
  finite_trees w d →
  ∀ depth repo fuel st,
    (walk_cost w d depth repo ≤ fuel)%nat →
    finished (process_repository w depth fuel repo st) = true
    ∧ ∃ tr, trace (final (process_repository w depth fuel repo st)) = trace st ++ tr
            ∧ NoDup (scanned tr)
            ∧ ∀ p, p ∈ scanned tr → p ∉ processed_files st.
Proof.
  intros Hflat depth repo fuel st Hfuel. split; [by eapply process_repository_ends|].
  destruct (process_repository_walked w depth fuel repo st)
    as (_ & tr & Ht & Hn & Hp & _ & _).
  exists tr. split; [done|split; [done|]]. intros p Hin. by destruct (Hp p Hin).
Qed.

Lemma submodule_cycle_walk_ends_witness :
  finished (process_repository cyclic_repo (recursion_limit cyclic_repo) 4000 Root start)
  = true
  ∧ ∃ tr, trace (final (process_repository cyclic_repo (recursion_limit cyclic_repo)
                          4000 Root start))
          = trace start ++ tr
          ∧ NoDup (scanned tr)
          ∧ ∀ p, p ∈ scanned tr → p ∉ processed_files start.
Proof.
  apply (submodule_cycle_walk_ends cyclic_repo 0).
  - intros repo l [= <-]. reflexivity.
  - apply Nat.leb_le. by vm_compute.
Defined.

(** The walk of the cycle, with the default recursion limit: the file is
    read once and its finding returned, the root is listed 998 times, and
    the one line printed is that of the call that went too deep. *)
Example cyclic_repo_walk :
  returned (process_repository cyclic_repo (recursion_limit cyclic_repo) 3 Root start)
  = [(txt "a.txt", Some (txt "1"), 1%Z, txt "key=1")]
  ∧ finished (process_repository cyclic_repo (recursion_limit cyclic_repo) 3 Root start)
    = true
  ∧ scanned (trace (final (process_repository cyclic_repo (recursion_limit cyclic_repo)
                             3 Root start)))
    = [txt "a.txt"]
  ∧ length (filter (fun x => x = (txt "dir", []))
              (traversed (trace (final (process_repository cyclic_repo
                                          (recursion_limit cyclic_repo) 3 Root start)))))
    = 998%nat
  ∧ filter (fun ev => is_print ev = true)
      (trace (final (process_repository cyclic_repo (recursion_limit cyclic_repo)
                       3 Root start)))
    = [Print (txt "Error processing submodule self: maximum recursion depth exceeded")].
Proof. by vm_compute. Qed.

Section Accounting.
Context {Repository Submodule : Type} (w : world Repository Submodule).
Implicit Types (st : state Repository Submodule) (content : ContentFile)
  (ev : event Repository Submodule)
  (rec : Repository → state Repository Submodule → outcome Repository Submodule).
Variable owned : str → list line_match → Prop.
Hypothesis owned_nil : ∀ p, owned p [].
Hypothesis owned_file :
  ∀ content b,
    type content = txt "file" → decoded_content content = Ok b →
    owned (path content)
      (check_file_for_passwords (decode_utf8_ignore b) (path content)).









End Accounting.






(** ** Properties of the report writer *)

Ltac insert_cases :=
  repeat (rewrite lookup_insert;
          let Hk := fresh "Hk" in
          case_decide as Hk;
          [try done; try (exfalso; simplify_eq; lia)
          |try (exfalso; apply Hk; f_equal; lia)]).

Lemma write_rows_title start results sheet :
  title (write_rows start results sheet) = title sheet.
Proof.
  unfold write_rows. revert start sheet.
  induction results as [|[[[p m] n] l] results IH]; intros start sheet; [done|].
  simpl. by rewrite IH.
Qed.

Lemma write_rows_above start results sheet (r c : Z) :
  (r < start ∨ c < 1)%Z →
  cells (write_rows start results sheet) !! (r, c) = cells sheet !! (r, c).
Proof.
  unfold write_rows. revert start sheet.
  induction results as [|[[[p m] n] l] results IH]; intros start sheet Hrc; [done|].
  simpl. rewrite IH by lia. unfold put, START_COL. simpl.
  insert_cases. done.
Qed.

Lemma write_rows_lookup start results sheet (i j : nat) :
  cells (write_rows start results sheet) !! ((start + Z.of_nat i)%Z, (1 + Z.of_nat j)%Z)
  = match results !! i ≫= (fun f => row_of f !! j) with
    | Some v => Some v
    | None => cells sheet !! ((start + Z.of_nat i)%Z, (1 + Z.of_nat j)%Z)
    end.
Proof.
  revert start sheet i.
  induction results as [|[[[p m] n] l] results IH]; intros start sheet i; [done|].
  change (write_rows start ((p, m, n, l) :: results) sheet)
    with (write_rows (start + 1) results
            (put (put (put (put sheet start START_COL (VStr p))
                                start (START_COL + 1) (of_group m))
                          start (START_COL + 2) (VInt n))
                    start (START_COL + 3) (VStr l))).
  destruct i as [|i].
  - rewrite write_rows_above by lia. unfold put, START_COL. simpl cells.
    destruct j as [|[|[|[|j]]]]; simpl; insert_cases; done.
  - replace (start + Z.of_nat (S i))%Z with (start + 1 + Z.of_nat i)%Z by lia.
    rewrite IH. simpl. destruct (results !! i ≫= _); [done|].
    unfold put, START_COL. simpl cells. insert_cases. done.
Qed.

Lemma header_sheet_lookup (r c : Z) :
  cells header_sheet !! (r, c)
  = if decide (r = 1%Z) then
      if decide (1 ≤ c)%Z then (VStr <$> headers) !! Z.to_nat (c - 1) else None
    else None.
Proof.
  assert (cells header_sheet
          = <[(1, 4)%Z := VStr (txt "Full Line")]>
              (<[(1, 3)%Z := VStr (txt "Line Number")]>
                 (<[(1, 2)%Z := VStr (txt "Matched String")]>
                    (<[(1, 1)%Z := VStr (txt "File Path")]> ∅)))) as -> by reflexivity.
  unfold headers.
  generalize (txt "File Path"), (txt "Matched String"), (txt "Line Number"),
    (txt "Full Line").
  intros h1 h2 h3 h4.
  destruct (decide (r = 1%Z)) as [->|Hr].
  - destruct (decide (1 ≤ c)%Z) as [Hc|Hc].
    + destruct (Z.to_nat (c - 1)) as [|[|[|[|k]]]] eqn:Hz; simpl;
        insert_cases; rewrite ?lookup_empty; try done.
    + insert_cases. by rewrite lookup_empty.
  - insert_cases. by rewrite lookup_empty.
Qed.

(** Every put of the sheet, by the place it has in [table]. *)
Lemma sheet_of_lookup results (i j : nat) :
  cells (sheet_of results) !! ((1 + Z.of_nat i)%Z, (1 + Z.of_nat j)%Z)
  = table results !! i ≫= (fun row => row !! j).
Proof.
  unfold sheet_of.
  unfold START_ROW. destruct i as [|i].
  - rewrite write_rows_above by lia. rewrite header_sheet_lookup.
    rewrite decide_True by lia. rewrite decide_True by lia. simpl.
    by replace (Z.to_nat (1 + Z.of_nat j - 1)) with j by lia.
  - replace (1 + Z.of_nat (S i))%Z with (1 + 1 + Z.of_nat i)%Z by lia.
    rewrite write_rows_lookup, header_sheet_lookup. rewrite decide_False by lia.
    simpl. rewrite list_lookup_fmap. destruct (results !! i) as [f|]; simpl; [|done].
    by destruct (row_of f !! j).
Qed.

Lemma sheet_of_outside results (r c : Z) :
  (r < 1 ∨ c < 1)%Z → cells (sheet_of results) !! (r, c) = None.
Proof.
  intros Hrc.
  unfold sheet_of.
  unfold START_ROW. rewrite write_rows_above by lia. rewrite header_sheet_lookup.
  repeat case_decide; try done; lia.
Qed.

Lemma row_of_length f : length (row_of f) = 4%nat.
Proof. by destruct f as [[[? ?] ?] ?]. Qed.

Lemma table_rows results (i : nat) row :
  table results !! i = Some row → length row = 4%nat.
Proof.
  destruct i as [|i]; simpl.
  - by intros [= <-].
  - rewrite list_lookup_fmap. destruct (results !! i); simpl; [|done].
    intros [= <-]. apply row_of_length.
Qed.

(** The cells written are those of the rows 1 to N + 1 and the columns 1
    to 4. *)
Lemma sheet_of_dom results (r c : Z) :
  is_Some (cells (sheet_of results) !! (r, c))
  ↔ (1 ≤ r ≤ Z.of_nat (length results) + 1 ∧ 1 ≤ c ≤ 4)%Z.
Proof.
  destruct (decide (1 ≤ r ∧ 1 ≤ c)%Z) as [[Hr Hc]|Hn].
  - replace r with (1 + Z.of_nat (Z.to_nat (r - 1)))%Z by lia.
    replace c with (1 + Z.of_nat (Z.to_nat (c - 1)))%Z by lia.
    rewrite sheet_of_lookup.
    destruct (table results !! Z.to_nat (r - 1)) as [row|] eqn:Hrow; simpl.
    + pose proof (table_rows _ _ _ Hrow) as Hlen.
      apply lookup_lt_Some in Hrow. simpl in Hrow. rewrite length_fmap in Hrow.
      rewrite lookup_lt_is_Some. lia.
    + apply lookup_ge_None in Hrow. simpl in Hrow. rewrite length_fmap in Hrow.
      split; [by intros [? ?]|lia].
  - rewrite sheet_of_outside by lia. split; [by intros [? ?]|lia].
Qed.

Lemma foldr_max_ge (l : list Z) (x : Z) : x ∈ l → (x ≤ foldr Z.max 0 l)%Z.
Proof.
  induction l as [|y l IH]; simpl; [by intros ?%elem_of_nil|].
  intros [->|Hx%IH]%elem_of_cons; lia.
Qed.

Lemma foldr_max_in (l : list Z) : foldr Z.max 0%Z l = 0%Z ∨ foldr Z.max 0%Z l ∈ l.
Proof.
  induction l as [|y l IH]; simpl; [by left|].
  destruct (Z.max_spec y (foldr Z.max 0%Z l)) as [[_ ->]|[_ ->]].
  - destruct IH as [->|IH]; [by left|right; by right].
  - right. by left.
Qed.

Lemma max_row_filled results :
  max_row (sheet_of results) = (Z.of_nat (length results) + 1)%Z.
Proof.
  unfold max_row. set (m := cells (sheet_of results)).
  set (l := (fun kv : Z * Z * value => kv.1.1) <$> map_to_list m).
  assert (Hin : ∀ r, r ∈ l ↔ ∃ c, is_Some (m !! (r, c))).
  { intros r. unfold l. rewrite list_elem_of_fmap. split.
    - intros ([[r' c] v] & -> & Hkv%elem_of_map_to_list). exists c. by exists v.
    - intros (c & v & Hv). exists ((r, c), v). split; [done|].
      by apply elem_of_map_to_list. }
  assert (Hlast : (Z.of_nat (length results) + 1)%Z ∈ l).
  { apply Hin. exists 1%Z. apply sheet_of_dom. lia. }
  apply foldr_max_ge in Hlast.
  destruct (foldr_max_in l) as [H0|(c & Hc%sheet_of_dom)%Hin]; lia.
Qed.

Lemma max_column_filled results : max_column (sheet_of results) = 4%Z.
Proof.
  unfold max_column. set (m := cells (sheet_of results)).
  set (l := (fun kv : Z * Z * value => kv.1.2) <$> map_to_list m).
  assert (Hin : ∀ c, c ∈ l ↔ ∃ r, is_Some (m !! (r, c))).
  { intros c. unfold l. rewrite list_elem_of_fmap. split.
    - intros ([[r c'] v] & -> & Hkv%elem_of_map_to_list). exists r. by exists v.
    - intros (r & v & Hv). exists ((r, c), v). split; [done|].
      by apply elem_of_map_to_list. }
  assert (Hlast : 4%Z ∈ l).
  { apply Hin. exists 1%Z. apply sheet_of_dom. lia. }
  apply foldr_max_ge in Hlast.
  destruct (foldr_max_in l) as [H0|(r & Hr%sheet_of_dom)%Hin]; lia.
Qed.

Lemma fmap_seqZ {B} (f : Z → B) (start : Z) (l : list B) :
  (∀ (i : nat) x, l !! i = Some x → f (start + Z.of_nat i)%Z = x) →
  f <$> seqZ start (Z.of_nat (length l)) = l.
Proof.
  revert start. induction l as [|x l IH]; intros start Hf; [done|].
  rewrite seqZ_cons by (simpl; lia). simpl fmap. f_equal.
  - rewrite <- (Hf 0%nat x eq_refl). f_equal. lia.
  - replace (Z.pred (Z.of_nat (S (length l)))) with (Z.of_nat (length l)) by lia.
    apply IH. intros i y Hi. rewrite <- (Hf (S i) y Hi). f_equal. lia.
Qed.

Lemma iter_rows_sheet_of (results : list finding) :
  iter_rows (sheet_of results) = table results.
Proof.
  unfold iter_rows. rewrite max_row_filled, max_column_filled.
  replace (Z.of_nat (length results) + 1)%Z with (Z.of_nat (length (table results)))
    by (simpl; rewrite length_fmap; lia).
  apply fmap_seqZ. intros i row Hrow.
  pose proof (table_rows _ _ _ Hrow) as Hlen.
  change 4%Z with (Z.of_nat 4). rewrite <- Hlen.
  apply fmap_seqZ. intros j v Hv. unfold cell_value.
  by rewrite sheet_of_lookup, Hrow; simpl; rewrite Hv.
Qed.

(** What [sheet.cell] does with a text. *)
Lemma check_string_legal s : legal s = true → check_string s = Ok (cut s).
Proof.
  unfold legal, check_string, cut. intros H%negb_true_iff. cbv zeta. by rewrite H.
Qed.

Lemma check_string_illegal s :
  legal s = false →
  check_string s = Raise (cut s ++ txt " cannot be used in worksheets.").
Proof.
  unfold legal, check_string, cut. intros H%negb_false_iff. cbv zeta. by rewrite H.
Qed.

Lemma cell_text sheet (r c : Z) s :
  cell sheet r c (VStr s)
  = if legal s then Ok (put sheet r c (VStr (cut s)))
    else Raise (cut s ++ txt " cannot be used in worksheets.").
Proof.
  unfold cell. destruct (legal s) eqn:Hs.
  - by rewrite check_string_legal.
  - by rewrite check_string_illegal.
Qed.

Lemma cell_other sheet (r c : Z) v :
  (∀ s, v ≠ VStr s) → cell sheet r c v = Ok (put sheet r c v).
Proof. intros Hv. destruct v as [|s|z]; [done| |done]. by destruct (Hv s). Qed.

Lemma cut_short s : (length s ≤ MAX_LENGTH)%nat → cut s = s.
Proof. intros H. by apply take_ge. Qed.

Lemma stored_short f : short f → stored f = f.
Proof.
  destruct f as [[[p m] n] l]. unfold short, texts, stored.
  intros [Hp Hml]%Forall_cons. apply Forall_app in Hml as [Hm Hl].
  apply Forall_cons in Hl as [Hl _]. rewrite (cut_short p), (cut_short l) by done.
  destruct m as [v|]; [|done]. apply Forall_cons in Hm as [Hm _]. simpl.
  by rewrite cut_short.
Qed.

Lemma write_row_writable sheet (row : Z) f :
  writable f = true →
  write_row sheet (row, f) = Ok (write_rows row [stored f] sheet).
Proof.
  destruct f as [[[p m] n] l]. unfold writable, texts.
  cbn [forallb]. rewrite forallb_app. cbn [forallb].
  intros [Hp [Hm [Hl _]%andb_prop]%andb_prop]%andb_prop.
  unfold write_row. rewrite cell_text, Hp. cbn [mbind result_bind].
  destruct m as [v|]; cbn [of_group option_list option_rect forallb] in *.
  - apply andb_prop in Hm as [Hv _].
    rewrite cell_text, Hv. cbn [mbind result_bind].
    rewrite (cell_other _ _ _ (VInt n)) by done. cbn [mbind result_bind].
    by rewrite cell_text, Hl.
  - rewrite (cell_other _ _ _ VNone) by done. cbn [mbind result_bind].
    rewrite (cell_other _ _ _ (VInt n)) by done. cbn [mbind result_bind].
    by rewrite cell_text, Hl.
Qed.

Lemma write_row_refused sheet (row : Z) f :
  writable f = false →
  ∃ s, s ∈ texts f ∧ legal s = false
       ∧ write_row sheet (row, f)
         = Raise (cut s ++ txt " cannot be used in worksheets.").
Proof.
  destruct f as [[[p m] n] l]. unfold writable, texts, write_row.
  cbn [forallb]. rewrite forallb_app. cbn [forallb]. rewrite cell_text.
  destruct (legal p) eqn:Hp.
  2:{ intros _. exists p. split; [left|done]. }
  cbn [mbind result_bind andb].
  destruct m as [v|]; cbn [of_group option_list option_rect forallb].
  - rewrite cell_text. destruct (legal v) eqn:Hv.
    2:{ intros _. exists v. split; [right; left|done]. }
    cbn [mbind result_bind andb].
    rewrite (cell_other _ _ _ (VInt n)) by done. cbn [mbind result_bind].
    rewrite cell_text. destruct (legal l) eqn:Hl; [done|].
    intros _. exists l. split; [right; right; left|done].
  - rewrite (cell_other _ _ _ VNone) by done. cbn [mbind result_bind].
    rewrite (cell_other _ _ _ (VInt n)) by done. cbn [mbind result_bind].
    rewrite cell_text. destruct (legal l) eqn:Hl; [done|].
    intros _. exists l. split; [right; left|done].
Qed.

Lemma write_rows_cons (start : Z) f results sheet :
  write_rows start (f :: results) sheet
  = write_rows (start + 1) results (write_rows start [f] sheet).
Proof. by destruct f as [[[p m] n] l]. Qed.

Lemma rows_written (start : Z) results sheet :
  Forall (fun f => writable f = true) results →
  for_each (enumerate start results) sheet write_row
  = Ok (write_rows start (stored <$> results) sheet).
Proof.
  intros Hall. revert start sheet.
  induction Hall as [|f results Hf Hall IH]; intros start sheet; [done|].
  simpl enumerate. cbn [for_each]. rewrite (write_row_writable _ _ _ Hf).
  cbn [mbind result_bind]. by rewrite IH, fmap_cons, write_rows_cons.
Qed.

Lemma rows_refused (start : Z) results sheet :
  ¬ Forall (fun f => writable f = true) results →
  ∃ f s, f ∈ results ∧ s ∈ texts f ∧ legal s = false
         ∧ for_each (enumerate start results) sheet write_row
           = Raise (cut s ++ txt " cannot be used in worksheets.").
Proof.
  revert start sheet. induction results as [|f results IH]; intros start sheet Hnot.
  { destruct Hnot. constructor. }
  simpl enumerate. cbn [for_each].
  destruct (writable f) eqn:Hf.
  - rewrite (write_row_writable _ _ _ Hf). cbn [mbind result_bind].
    destruct (IH (start + 1)%Z (write_rows start [stored f] sheet))
      as (f' & s & Hin & Hs & Hl & Hr).
    { intros Hall. apply Hnot. by constructor. }
    exists f', s. split; [by right|done].
  - destruct (write_row_refused sheet start f Hf) as (s & Hs & Hl & Hr).
    exists f, s. split; [left|]. split; [done|]. split; [done|].
    by rewrite Hr.
Qed.

Lemma filled_workbook_unfold results :
  filled_workbook results
  = sheet ← for_each (enumerate START_COL headers) (set_title SHEET_NAME Workbook)
              write_header;
    for_each (enumerate (START_ROW + 1) results) sheet write_row.
Proof. reflexivity. Qed.

Lemma header_written :
  for_each (enumerate START_COL headers) (set_title SHEET_NAME Workbook) write_header
  = Ok header_sheet.
Proof. by vm_compute. Qed.

Lemma filled_workbook_written results :
  Forall (fun f => writable f = true) results →
  filled_workbook results = Ok (sheet_of (stored <$> results)).
Proof.
  intros Hall. rewrite filled_workbook_unfold, header_written.
  cbn [mbind result_bind]. by rewrite rows_written.
Qed.

Lemma filled_workbook_refused results :
  ¬ Forall (fun f => writable f = true) results →
  ∃ f s, f ∈ results ∧ s ∈ texts f ∧ legal s = false
         ∧ filled_workbook results
           = Raise (cut s ++ txt " cannot be used in worksheets.").
Proof.
  intros Hnot. rewrite filled_workbook_unfold, header_written.
  cbn [mbind result_bind]. by apply rows_refused.
Qed.

Lemma long_line_is_cut {Repository Submodule : Type} (w : world Repository Submodule)
    (p : str) (m : option str) (n : Z) (l : str) :
  writable (p, m, n, l) = true →
  save w (sheet_of [stored (p, m, n, l)]) EXCEL_FILE = Ok () →
  (MAX_LENGTH < length l)%nat →
  ∃ wb,
    (write_to_excel w [(p, m, n, l)] []).2
    = [Save wb EXCEL_FILE; Print (txt "Results written to " ++ EXCEL_FILE)]
    ∧ iter_rows wb !! 1%nat ≠ Some (row_of (p, m, n, l)).
Proof.
  intros Hw Hsave Hlong. exists (sheet_of [stored (p, m, n, l)]). split.
  - unfold write_to_excel. rewrite filled_workbook_written by (by constructor).
    rewrite fmap_cons, fmap_nil, Hsave. reflexivity.
  - rewrite iter_rows_sheet_of. intros [= _ _ Hl]. apply (f_equal length) in Hl.
    unfold cut in Hl. rewrite length_take in Hl. lia.
Qed.

(** C4, as stated, fails on findings that a scan can return: a full line
    with a control character makes [write_to_excel] raise before anything
    is saved, and of a line of more than 32767 characters the sheet holds
    the first 32767 only. *)
Lemma write_to_excel_loses_text :
  write_to_excel config_repo [refused_finding] []
  = (Raise (txt "key=x" ++ [0x01] ++ txt " cannot be used in worksheets."), [])
  ∧ ∃ wb,
      (write_to_excel config_repo [long_finding] []).2
      = [Save wb EXCEL_FILE; Print (txt "Results written to " ++ EXCEL_FILE)]
      ∧ iter_rows wb !! 1%nat ≠ Some (row_of long_finding).
Proof.
  split; [by vm_compute|].
  apply (long_line_is_cut config_repo (txt "a.txt") (Some long_value) 1%Z
           (txt "key=" ++ long_value)).
  - by vm_compute.
  - reflexivity.
  - unfold long_value. rewrite length_app, length_replicate. lia.
Qed.

Section Writer.
Context {Repository Submodule : Type} (w : world Repository Submodule).

(** C4, amended: when no text of the findings holds a control character
    that a worksheet refuses, what [write_to_excel] saves, read back row by
    row, is the header row followed by one row for each finding, in the
    order of the list, with the four components of the finding in its four
    columns, a text of more than 32767 characters cut at that length: N + 1
    rows for N findings, and the row of a finding whose texts are no longer
    than that holds the finding as it is.  When a text holds such a
    character, [write_to_excel] raises the exception of the first one that
    is refused, and saves nothing. *)
Theorem write_to_excel_round_trip :
  ∀ (results : list finding) (tr : list (event Repository Submodule)),
    (Forall (fun f => writable f = true) results →
     ∃ wb tr',
       (write_to_excel w results tr).2 = tr ++ Save wb EXCEL_FILE :: tr'
       ∧ title wb = SHEET_NAME
       ∧ iter_rows wb
         = [VStr (txt "File Path"); VStr (txt "Matched String");
            VStr (txt "Line Number"); VStr (txt "Full Line")]
           :: (row_of <$> (stored <$> results))
       ∧ length (iter_rows wb) = S (length results)
       ∧ (∀ (i : nat) file_path matched_string line_number full_line,
            results !! i = Some (file_path, matched_string, line_number, full_line) →
            iter_rows wb !! S i
            = Some [VStr (cut file_path); of_group (cut <$> matched_string);
                    VInt line_number; VStr (cut full_line)])
       ∧ (∀ (i : nat) file_path matched_string line_number full_line,
            results !! i = Some (file_path, matched_string, line_number, full_line) →
            short (file_path, matched_string, line_number, full_line) →
            iter_rows wb !! S i
            = Some [VStr file_path; of_group matched_string;
                    VInt line_number; VStr full_line]))
    ∧ (¬ Forall (fun f => writable f = true) results →
       ∃ f s,
         f ∈ results ∧ s ∈ texts f ∧ legal s = false
         ∧ write_to_excel w results tr
           = (Raise (cut s ++ txt " cannot be used in worksheets."), tr)).
Proof.
  intros results tr. split.
  - intros Hall. pose proof (iter_rows_sheet_of (stored <$> results)) as Hrows.
    assert (Hrow : ∀ (i : nat) p m n l,
               results !! i = Some (p, m, n, l) →
               iter_rows (sheet_of (stored <$> results)) !! S i
               = Some [VStr (cut p); of_group (cut <$> m); VInt n; VStr (cut l)]).
    { intros i p m n l Hi. rewrite Hrows.
      change (table (stored <$> results) !! S i)
        with ((row_of <$> (stored <$> results)) !! i).
      rewrite !list_lookup_fmap. unfold finding in *. by rewrite Hi. }
    exists (sheet_of (stored <$> results)).
    exists match save w (sheet_of (stored <$> results)) EXCEL_FILE with
           | Ok _ => [Print (txt "Results written to " ++ EXCEL_FILE)]
           | Raise _ => []
           end.
    split; [|split; [|split; [|split; [|split]]]].
    + unfold write_to_excel. rewrite (filled_workbook_written _ Hall).
      destruct (save w _ _); simpl; by rewrite <- ?app_assoc.
    + unfold sheet_of. by rewrite write_rows_title.
    + exact Hrows.
    + rewrite Hrows. simpl. by rewrite !length_fmap.
    + exact Hrow.
    + intros i p m n l Hi Hshort. rewrite (Hrow i p m n l Hi).
      apply stored_short in Hshort. by injection Hshort as -> -> ->.
  - intros Hnot.
    destruct (filled_workbook_refused results Hnot) as (f & s & Hf & Hs & Hl & Hr).
    exists f, s. split; [done|]. split; [done|]. split; [done|].
    unfold write_to_excel. by rewrite Hr.
Qed.
End Writer.

Lemma write_to_excel_round_trip_witness :
  ∃ wb,
    (∃ tr', (write_to_excel config_repo
               [(txt "config.py", Some (txt "abc123"), 5%Z, password_line)] []).2
            = [] ++ Save wb EXCEL_FILE :: tr')
    ∧ iter_rows wb !! 1%nat
      = Some [VStr (txt "config.py"); VStr (txt "abc123"); VInt 5; VStr password_line].
Proof.
  destruct (proj1 (write_to_excel_round_trip config_repo
                     [(txt "config.py", Some (txt "abc123"), 5%Z, password_line)] []))
    as (wb & tr' & Hsave & _ & _ & _ & _ & Hrow).
  { constructor; [by vm_compute|constructor]. }
  exists wb. split; [by exists tr'|].
  apply (Hrow 0%nat _ _ _ _ eq_refl).
  apply Forall_cons_2; [apply Nat.leb_le; by vm_compute|].
  apply Forall_cons_2; [apply Nat.leb_le; by vm_compute|].
  apply Forall_cons_2; [apply Nat.leb_le; by vm_compute|apply Forall_nil_2].
Defined.

(** ** Properties of the driver *)

Section Driver.
Context {Repository Submodule : Type} (w : world Repository Submodule).
Implicit Types (st : state Repository Submodule) (ev : event Repository Submodule)
  (tr : list (event Repository Submodule)).

Lemma writes_app tr1 tr2 : writes (tr1 ++ tr2) = writes tr1 ++ writes tr2.
Proof. apply omap_app. Qed.

Lemma loop_body_writes rec repo content contents results st :
  (∀ r s, writes (trace (final (rec r s))) = writes (trace s)) →
  match loop_body w rec repo content contents results st with
  | Next _ _ st' => writes (trace st') = writes (trace st)
  | Stop o => writes (trace (final o)) = writes (trace st)
  end.
Proof.
  intros Hrec. unfold loop_body.
  repeat case_bool_decide; repeat case_match; simplify_eq; try done;
    repeat match goal with
           | H : rec ?r ?s = _ |- _ =>
             let Hw := fresh "Hw" in
             pose proof (Hrec r s) as Hw; rewrite H in Hw; clear H
           end;
    unfold print, emit, add in *; cbn [trace final] in *;
    rewrite ?writes_app in *; cbn [writes omap] in *;
    rewrite ?app_nil_r in *; try done.
Qed.

Lemma while_contents_writes rec n repo contents results st :
  (∀ r s, writes (trace (final (rec r s))) = writes (trace s)) →
  writes (trace (final (while_contents w rec n repo contents results st)))
  = writes (trace st).
Proof.
  intros Hrec. revert contents results st.
  induction n as [|n IH]; intros contents results st; [done|].
  destruct contents as [|content contents]; [done|].
  rewrite while_contents_cons.
  pose proof (loop_body_writes rec repo content contents results st Hrec) as Hb.
  destruct (loop_body w rec repo content contents results st) as [c r s|o]; [|done].
  rewrite IH. done.
Qed.

(** A walk saves nothing. *)
Lemma process_repository_writes depth fuel repo st :
  writes (trace (final (process_repository w depth fuel repo st))) = writes (trace st).
Proof.
  revert repo st.
  induction depth as [|depth IH]; intros repo st; rewrite process_repository_unfold;
    (destruct (get_contents w repo []);
     [rewrite while_contents_writes by done|]);
    unfold emit; simpl; rewrite writes_app; simpl; by rewrite app_nil_r.
Qed.

(** C5: when the walk returns no finding, [main] prints that no
    potential hardcoded passwords were found and saves no workbook; when
    it returns findings, [main] goes through [write_to_excel], which saves
    the workbook of these findings, once, unless a cell is refused before
    (then it saves nothing). *)
Theorem report_only_with_findings fuel github_token repo_name repo results st :
  environ w (txt "GITHUB_TOKEN") = Some github_token → github_token ≠ [] →
  environ w (txt "GITHUB_REPO") = Some repo_name → repo_name ≠ [] →
  get_repo w github_token repo_name = Ok repo →
  process_repository w (recursion_limit w) fuel repo
    {| processed_files := ∅;
       trace := [GetRepo github_token repo_name;
                 Print (txt "Scanning repository: " ++ full_name w repo)] |}
  = Returned results st →
  (results = [] →
   main w fuel
   = Some (Ok (), trace st ++ [Print (txt "No potential hardcoded passwords found.")])
   ∧ writes (trace st ++ [Print (txt "No potential hardcoded passwords found.")]) = [])
  ∧ (results ≠ [] →
     main w fuel = Some (write_to_excel w results (trace st))
     ∧ writes (write_to_excel w results (trace st)).2
       = match filled_workbook results with
         | Ok workbook => [(workbook, EXCEL_FILE)]
         | Raise _ => []
         end).
Proof.
  intros Ht Htne Hr Hrne Hrepo Hwalk.
  assert (Hmain : main w fuel
                  = match results with
                    | _ :: _ => Some (write_to_excel w results (trace st))
                    | [] => Some (Ok (), trace st
                              ++ [Print (txt "No potential hardcoded passwords found.")])
                    end).
  { unfold main. rewrite Ht, Hr.
    destruct github_token as [|c t]; [done|]. destruct repo_name as [|c' t']; [done|].
    rewrite Hrepo. cbn [app]. by rewrite Hwalk. }
  pose proof (process_repository_writes (recursion_limit w) fuel repo
                {| processed_files := ∅;
                   trace := [GetRepo github_token repo_name;
                             Print (txt "Scanning repository: " ++ full_name w repo)] |})
    as Hw.
  rewrite Hwalk in Hw. simpl in Hw.
  split.
  - intros ->. split; [done|]. rewrite writes_app, Hw. done.
  - intros Hne. split; [by destruct results|].
    unfold write_to_excel. destruct (filled_workbook results) as [workbook|e]; [|done].
    destruct (save w _ _); simpl; rewrite !writes_app, Hw; done.
Qed.

(** C7: when GITHUB_TOKEN or GITHUB_REPO is not set (or is empty),
    [main] returns at once, with any fuel: it only prints, first the line
    that names the missing variable, so it calls neither GitHub nor the
    walk nor the writer. *)
Theorem missing_configuration_stops_main fuel :
  unset (environ w (txt "GITHUB_TOKEN")) = true
  ∨ unset (environ w (txt "GITHUB_REPO")) = true →
  ∃ tr variable,
    main w fuel = Some (Ok (), tr)
    ∧ forallb is_print tr = true
    ∧ writes tr = []
    ∧ (variable = txt "GITHUB_TOKEN" ∨ variable = txt "GITHUB_REPO")
    ∧ unset (environ w variable) = true
    ∧ head tr
      = Some (Print (txt "Error: " ++ variable ++ txt " environment variable not set.")).
Proof.
  intros Hunset. unfold main.
  destruct (environ w (txt "GITHUB_TOKEN")) as [[|c t]|] eqn:Ht.
  - eexists _, (txt "GITHUB_TOKEN"). rewrite Ht. by repeat split; auto.
  - destruct Hunset as [?|Hr]; [done|].
    destruct (environ w (txt "GITHUB_REPO")) as [[|c' t']|] eqn:Hrepo; [|done|].
    + eexists _, (txt "GITHUB_REPO"). rewrite Hrepo. by repeat split; auto.
    + eexists _, (txt "GITHUB_REPO"). rewrite Hrepo. by repeat split; auto.
  - eexists _, (txt "GITHUB_TOKEN"). rewrite Ht. by repeat split; auto.
Qed.
End Driver.

Lemma report_only_with_findings_witness :
  (main empty_repo 3
   = Some (Ok (),
       [GetRepo (txt "x") (txt "x"); Print (txt "Scanning repository: owner/name");
        GetContents Root []; Print (txt "No potential hardcoded passwords found.")])
   ∧ writes [GetRepo (txt "x") (txt "x"); Print (txt "Scanning repository: owner/name");
             GetContents Root [];
             Print (txt "No potential hardcoded passwords found." : str)
               : event repo_name handle] = [])
  ∧ (main config_repo 3
     = Some (write_to_excel config_repo
               [(txt "config.py", Some (txt "abc123"), 5%Z, password_line)]
               [GetRepo (txt "x") (txt "x"); Print (txt "Scanning repository: owner/name");
                GetContents Root []; DecodedContent (txt "config.py")])
     ∧ writes (write_to_excel config_repo
                 [(txt "config.py", Some (txt "abc123"), 5%Z, password_line)]
                 [GetRepo (txt "x") (txt "x");
                  Print (txt "Scanning repository: owner/name");
                  GetContents Root []; DecodedContent (txt "config.py")]).2
       = [(sheet_of [(txt "config.py", Some (txt "abc123"), 5%Z, password_line)],
           EXCEL_FILE)]).
Proof.
  split.
  - refine (proj1 (report_only_with_findings empty_repo 3 (txt "x") (txt "x") Root []
                     {| processed_files := ∅;
                        trace := [GetRepo (txt "x") (txt "x");
                                  Print (txt "Scanning repository: owner/name");
                                  GetContents Root []] |}
                     eq_refl _ eq_refl _ eq_refl eq_refl) eq_refl); discriminate.
  - refine (proj2 (report_only_with_findings config_repo 3 (txt "x") (txt "x") Root
                     [(txt "config.py", Some (txt "abc123"), 5%Z, password_line)]
                     {| processed_files := {[txt "config.py"]} ∪ ∅;
                        trace := [GetRepo (txt "x") (txt "x");
                                  Print (txt "Scanning repository: owner/name");
                                  GetContents Root []; DecodedContent (txt "config.py")] |}
                     eq_refl _ eq_refl _ eq_refl _) _);
      [discriminate|discriminate|by vm_compute|discriminate].
Defined.

Lemma missing_configuration_stops_main_witness :
  ∃ tr variable,
    main unconfigured 0 = Some (Ok (), tr)
    ∧ forallb is_print tr = true
    ∧ writes tr = []
    ∧ (variable = txt "GITHUB_TOKEN" ∨ variable = txt "GITHUB_REPO")
    ∧ unset (environ unconfigured variable) = true
    ∧ head tr
      = Some (Print (txt "Error: " ++ variable ++ txt " environment variable not set.")).
Proof. exact (missing_configuration_stops_main unconfigured 0 (or_introl eq_refl)). Defined.

Example missing_repository_name :
  main {| recursion_limit := recursion_limit empty_repo;
          environ := fun k => if bool_decide (k = txt "GITHUB_TOKEN")
                               then Some (txt "ghp_x") else None;
          get_repo := get_repo empty_repo; full_name := full_name empty_repo;
          get_contents := get_contents empty_repo;
          get_submodule := get_submodule empty_repo;
          module := module empty_repo; save := save empty_repo |} 0
  = Some (Ok (),
      [Print (txt "Error: GITHUB_REPO environment variable not set.");
       Print (txt "Please set the GITHUB_REPO environment variable with the name of the repository to scan (e.g., 'your_username/your_repo_name').")]).
Proof. reflexivity. Qed.


(** * Further properties *)

(** ** The matcher: what a match tells about its line *)

Lemma strip_word_split K s t :
  strip_word K s = Some t → ∃ kw, s = kw ++ t ∧ word_match K kw = true.
Proof.
  revert s. induction K as [|l K IH]; intros s; simpl.
  - intros [= ->]. by exists [].
  - destruct s as [|c s]; [done|].
    destruct (literal_match true l c) eqn:Hl; [|done].
    intros (kw & -> & Hw)%IH. exists (c :: kw). simpl. by rewrite Hl, Hw.
Qed.

Lemma after_separator_shape s v :
  after_separator s = Some v →
  ∃ ws2 oq rest,
    s = ws2 ++ oq ++ v ++ rest
    ∧ forallb isspace ws2 = true ∧ opt_quote oq = true
    ∧ v ≠ [] ∧ forallb (in_charset value_char) v = true
    ∧ value_ends rest = true.
Proof.
  unfold after_separator. set (u := skip (in_charset spaces) s).
  assert (Hs : s = run (in_charset spaces) s ++ u) by by rewrite run_skip.
  assert (∃ oq, u = oq ++ drop_quote u ∧ opt_quote oq = true) as (oq & Hu & Hoq).
  { unfold drop_quote. destruct u as [|c u']; [by exists []|].
    destruct (in_charset quote c) eqn:Hc; [exists [c]|exists []]; simpl; by rewrite ?Hc. }
  set (u' := drop_quote u) in *.
  destruct (run (in_charset value_char) u') as [|c v'] eqn:Hrun; [done|].
  intros [= <-]. exists (run (in_charset spaces) s), oq, (skip (in_charset value_char) u').
  split; [|split; [|split; [|split; [|split]]]]; try done.
  - rewrite <- Hrun, run_skip, <- Hu. exact Hs.
  - rewrite <- forallb_spaces. apply run_all.
  - rewrite <- Hrun. apply run_all.
  - pose proof (skip_head (in_charset value_char) u') as Hh. unfold value_ends.
    destruct (skip (in_charset value_char) u'); [done|]. by rewrite Hh.
Qed.

Lemma value_at_shape s v :
  value_at s = Some v →
  ∃ kw ws1 sep ws2 oq rest,
    s = kw ++ ws1 ++ sep :: ws2 ++ oq ++ v ++ rest
    ∧ is_keyword kw = true
    ∧ forallb isspace ws1 = true ∧ in_charset separator sep = true
    ∧ forallb isspace ws2 = true ∧ opt_quote oq = true
    ∧ v ≠ [] ∧ forallb (in_charset value_char) v = true
    ∧ value_ends rest = true.
Proof.
  intros (K & t & HK & (kw & -> & Hw)%strip_word_split & Hv)%first_word_Some.
  unfold after_word in Hv.
  pose proof (run_skip (in_charset spaces) t) as Ht.
  destruct (skip (in_charset spaces) t) as [|sep t2]; [done|].
  destruct (in_charset separator sep) eqn:Hsep; [|done].
  apply after_separator_shape in Hv
    as (ws2 & oq & rest & -> & Hws2 & Hoq & Hne & Hval & Hrest).
  exists kw, (run (in_charset spaces) t), sep, ws2, oq, rest.
  split; [by rewrite Ht|]. split.
  { apply existsb_exists. exists K. split; [by apply list_elem_of_In|done]. }
  split; [rewrite <- forallb_spaces; apply run_all|]. done.
Qed.

Lemma find_value_sound s v :
  find_value s = Some v →
  ∃ pre kw ws1 sep ws2 oq rest,
    s = pre ++ kw ++ ws1 ++ sep :: ws2 ++ oq ++ v ++ rest
    ∧ is_keyword kw = true
    ∧ forallb isspace ws1 = true ∧ in_charset separator sep = true
    ∧ forallb isspace ws2 = true ∧ opt_quote oq = true
    ∧ v ≠ [] ∧ forallb (in_charset value_char) v = true
    ∧ value_ends rest = true.
Proof.
  induction s as [|c s IH]; rewrite find_value_unfold.
  - destruct (value_at []) as [v'|] eqn:Hv; [|done]. intros [= ->].
    apply value_at_shape in Hv as (kw & ws1 & sep & ws2 & oq & rest & H).
    by exists [], kw, ws1, sep, ws2, oq, rest.
  - destruct (value_at (c :: s)) as [v'|] eqn:Hv.
    + intros [= ->].
      apply value_at_shape in Hv as (kw & ws1 & sep & ws2 & oq & rest & H).
      by exists [], kw, ws1, sep, ws2, oq, rest.
    + intros (pre & kw & ws1 & sep & ws2 & oq & rest & -> & H)%IH.
      by exists (c :: pre), kw, ws1, sep, ws2, oq, rest.
Qed.

(** X1: every match that [check_file_for_passwords] returns comes from a
    line that really has the shape of the pattern: some text, a keyword,
    white space, [:] or [=], white space, at most one quote, then the value
    reported, which is not empty, holds no white space, quote, [&] or [;],
    and is followed by nothing that could extend it.  The first component
    of a match is never Python's [None]. *)
Theorem match_has_the_shape file_content file_path (m : line_match) :
  m ∈ check_file_for_passwords file_content file_path →
  ∃ (i : nat) line pre kw ws1 sep ws2 oq value rest,
    splitlines file_content !! i = Some line
    ∧ m = (Some value, (Z.of_nat i + 1)%Z, strip line)
    ∧ line = pre ++ kw ++ ws1 ++ sep :: ws2 ++ oq ++ value ++ rest
    ∧ is_keyword kw = true
    ∧ forallb isspace ws1 = true ∧ in_charset separator sep = true
    ∧ forallb isspace ws2 = true ∧ opt_quote oq = true
    ∧ value ≠ [] ∧ forallb (in_charset value_char) value = true
    ∧ value_ends rest = true.
Proof.
  intros (i & line & v & Hi & Hv & ->)%elem_of_check_file.
  apply find_value_sound in Hv as (pre & kw & ws1 & sep & ws2 & oq & rest & Hl & H).
  by exists i, line, pre, kw, ws1, sep, ws2, oq, v, rest.
Qed.

Lemma match_has_the_shape_witness :
  ∃ (i : nat) line pre kw ws1 sep ws2 oq value rest,
    splitlines (txt "db.Secret : 's3cr3t' # prod") !! i = Some line
    ∧ (Some (txt "s3cr3t"), 1%Z, txt "db.Secret : 's3cr3t' # prod")
      = (Some value, (Z.of_nat i + 1)%Z, strip line)
    ∧ line = pre ++ kw ++ ws1 ++ sep :: ws2 ++ oq ++ value ++ rest
    ∧ is_keyword kw = true
    ∧ forallb isspace ws1 = true ∧ in_charset separator sep = true
    ∧ forallb isspace ws2 = true ∧ opt_quote oq = true
    ∧ value ≠ [] ∧ forallb (in_charset value_char) value = true
    ∧ value_ends rest = true.
Proof.
  apply (match_has_the_shape (txt "db.Secret : 's3cr3t' # prod") (txt "app.yml")).
  vm_compute. left.
Defined.

(** ** The matcher: line numbers *)

Lemma scanned_lines_sorted (start : Z) (lines : list str) :
  StronglySorted Z.lt (line_no <$> (enumerate start lines ≫= scan_line))
  ∧ ∀ m, m ∈ enumerate start lines ≫= scan_line →
         (start < line_no m ≤ start + Z.of_nat (length lines))%Z.
Proof.
  revert start. induction lines as [|l ls IH]; intros start.
  - split; [constructor|]. by intros m ?%elem_of_nil.
  - destruct (IH (start + 1)%Z) as [Hs Hb]. simpl enumerate. rewrite bind_cons.
    assert (Htail : ∀ m, m ∈ enumerate (start + 1) ls ≫= scan_line →
                         (start + 1 < line_no m ≤ start + Z.of_nat (length (l :: ls)))%Z).
    { intros m Hm%Hb. simpl length. lia. }
    unfold scan_line at 1 3. simpl fst. simpl snd. destruct (find_value l); simpl app.
    + split.
      * rewrite fmap_cons. apply StronglySorted_cons. split; [|done].
        apply Forall_forall. intros n (m & -> & Hm%Htail)%list_elem_of_fmap.
        unfold line_no at 1. simpl. lia.
      * intros m [->|Hm%Htail]%elem_of_cons; [unfold line_no; simpl length; simpl|]; lia.
    + split; [done|]. intros m Hm%Htail. lia.
Qed.

(** X2: the matches come in the order of the lines: their line numbers
    are strictly increasing, start at 1 and do not exceed the number of
    lines of the file. *)
Theorem line_numbers_increase file_content file_path :
  StronglySorted Z.lt (line_no <$> check_file_for_passwords file_content file_path)
  ∧ ∀ m, m ∈ check_file_for_passwords file_content file_path →
         (1 ≤ line_no m ≤ Z.of_nat (length (splitlines file_content)))%Z.
Proof.
  rewrite check_file_for_passwords_lines.
  destruct (scanned_lines_sorted 0 (splitlines file_content)) as [Hs Hb].
  split; [done|]. intros m Hm%Hb. lia.
Qed.

Lemma line_numbers_increase_witness :
  (1 ≤ line_no (Some (txt "b"), 2%Z, txt "key=b")
   ≤ Z.of_nat (length (splitlines (txt "pwd=a" ++ [0x0A%N] ++ txt "key=b"))))%Z.
Proof.
  apply (proj2 (line_numbers_increase (txt "pwd=a" ++ [0x0A] ++ txt "key=b") (txt "f"))).
  vm_compute. right. left.
Defined.

(** ** The matcher: one line after the other *)

Lemma splitlines_first_line l eol rest :
  forallb (fun c => negb (islinebreak c)) l = true →
  is_eol eol = true →
  splitlines (l ++ eol ++ rest) = l :: splitlines rest.
Proof.
  intros Hl Heol. induction l as [|c l IH].
  - simpl app. unfold is_eol in Heol.
    apply orb_prop in Heol as [->%bool_decide_eq_true| ->%bool_decide_eq_true].
    + simpl. by destruct rest.
    + reflexivity.
  - simpl in Hl. apply andb_prop in Hl as [Hc Hl].
    change ((c :: l) ++ eol ++ rest) with (c :: (l ++ eol ++ rest)).
    simpl splitlines. apply negb_true_iff in Hc. rewrite Hc, (IH Hl). done.
Qed.

Lemma splitlines_one_line l :
  forallb (fun c => negb (islinebreak c)) l = true →
  splitlines l = match l with [] => [] | _ => [l] end.
Proof.
  induction l as [|c l IH]; [done|]. simpl.
  intros [Hc Hl]%andb_prop. apply negb_true_iff in Hc. rewrite Hc, (IH Hl).
  by destruct l.
Qed.

Lemma scan_lines_bump (start : Z) (lines : list str) :
  enumerate (start + 1) lines ≫= scan_line
  = bump <$> (enumerate start lines ≫= scan_line).
Proof.
  revert start. induction lines as [|l ls IH]; intros start; [done|].
  simpl enumerate. rewrite !bind_cons, fmap_app, IH. f_equal.
  unfold scan_line. simpl. by destruct (find_value l).
Qed.

(** X3: the matches of a file are those of its first line followed by
    those of the rest of the file, one line further down; LF and CR LF both
    end the line, and CR LF counts for one line. *)
Theorem matches_line_by_line l eol rest file_path :
  forallb (fun c => negb (islinebreak c)) l = true →
  is_eol eol = true →
  check_file_for_passwords (l ++ eol ++ rest) file_path
  = check_file_for_passwords l file_path
    ++ (bump <$> check_file_for_passwords rest file_path).
Proof.
  intros Hl Heol. rewrite !check_file_for_passwords_lines.
  rewrite (splitlines_first_line l eol rest Hl Heol), (splitlines_one_line l Hl).
  simpl enumerate. rewrite bind_cons, scan_lines_bump. f_equal.
  destruct l; [done|]. simpl enumerate. by rewrite bind_cons, app_nil_r.
Qed.

Lemma matches_line_by_line_witness :
  check_file_for_passwords (txt "a = 1" ++ [0x0D; 0x0A] ++ txt "token=t") (txt "f")
  = check_file_for_passwords (txt "a = 1") (txt "f")
    ++ (bump <$> check_file_for_passwords (txt "token=t") (txt "f")).
Proof.
  exact (matches_line_by_line (txt "a = 1") [0x0D; 0x0A] (txt "token=t") (txt "f")
           eq_refl eq_refl).
Defined.


(** ** The walk: what it adds to [processed_files] *)

Section Growth.
Context {Repository Submodule : Type} (w : world Repository Submodule).
Implicit Types (st : state Repository Submodule) (content : ContentFile)
  (ev : event Repository Submodule)
  (rec : Repository → state Repository Submodule → outcome Repository Submodule).

Lemma grown_refl st : grown st st.
Proof. exists []. rewrite app_nil_r. split; [done|]. simpl. by rewrite union_empty_r_L. Qed.

Lemma grown_trans st st' st'' : grown st st' → grown st' st'' → grown st st''.
Proof.
  intros (tr1 & Ht1 & Hp1) (tr2 & Ht2 & Hp2). exists (tr1 ++ tr2).
  rewrite Ht2, Ht1, <- app_assoc. split; [done|].
  assert (scanned (tr1 ++ tr2) = scanned tr1 ++ scanned tr2) as -> by apply omap_app.
  by rewrite Hp2, Hp1, list_to_set_app_L, (assoc_L (∪)).
Qed.

Lemma grown_emit st ev : quiet ev → grown st (emit ev st).
Proof.
  intros Hq. exists [ev]. split; [done|].
  assert (scanned [ev] = []) as ->.
  { unfold scanned. simpl. destruct ev; try done. by destruct (Hq p). }
  simpl. by rewrite union_empty_r_L.
Qed.

Lemma grown_then_emit st st' ev : grown st st' → quiet ev → grown st (emit ev st').
Proof. intros H Hq. eapply grown_trans; [done|]. by apply grown_emit. Qed.

Lemma grown_scan st p : grown st (emit (DecodedContent p) (add p st)).
Proof.
  exists [DecodedContent p]. split; [done|]. simpl.
  by rewrite union_empty_r_L, (comm_L (∪)).
Qed.

Lemma loop_body_grown rec repo content contents results st :
  (∀ r s, grown s (final (rec r s))) →
  match loop_body w rec repo content contents results st with
  | Next _ _ st' => grown st st'
  | Stop o => grown st (final o)
  end.
Proof.
  intros Hrec. unfold loop_body.
  assert (Hq : ∀ line, quiet (Print line : event Repository Submodule)) by done.
  case_bool_decide; [case_bool_decide|case_bool_decide; [|case_bool_decide]].
  - apply grown_refl.
  - destruct (decoded_content content) as [b|e]; [apply grown_scan|].
    apply grown_then_emit; [apply grown_scan|done].
  - destruct (get_contents w repo (path content)); by apply grown_emit.
  - assert (Hg : grown st (emit (GetSubmodule repo (path content)) st))
      by by apply grown_emit.
    destruct (get_submodule w repo (path content)) as [sub|e];
      [|by apply grown_then_emit].
    assert (Hm : grown st (emit (Module sub)
                   (emit (GetSubmodule repo (path content)) st)))
      by by apply grown_then_emit.
    destruct (module w sub) as [[sub_repo|]|e]; [|by apply grown_then_emit..].
    pose proof (Hrec sub_repo (emit (Module sub)
                  (emit (GetSubmodule repo (path content)) st))) as Hr.
    destruct (rec sub_repo _) as [sub_results st'|e st'|st']; simpl in Hr.
    + by eapply grown_trans.
    + apply grown_then_emit; [|done]. by eapply grown_trans.
    + by eapply grown_trans.
  - by apply grown_emit.
Qed.

Lemma while_contents_grown rec n repo contents results st :
  (∀ r s, grown s (final (rec r s))) →
  grown st (final (while_contents w rec n repo contents results st)).
Proof.
  intros Hrec. revert contents results st.
  induction n as [|n IH]; intros contents results st; [apply grown_refl|].
  destruct contents as [|content contents]; [apply grown_refl|].
  rewrite while_contents_cons.
  pose proof (loop_body_grown rec repo content contents results st Hrec) as Hb.
  destruct (loop_body w rec repo content contents results st) as [c r s|o]; [|done].
  eapply grown_trans; [done|apply IH].
Qed.

Lemma process_repository_grown depth fuel repo st :
  grown st (final (process_repository w depth fuel repo st)).
Proof.
  revert repo st.
  induction depth as [|depth IH]; intros repo st; rewrite process_repository_unfold;
    (assert (Hg : grown st (emit (GetContents repo []) st)) by by apply grown_emit);
    (destruct (get_contents w repo []) as [contents|e]; [|done]);
    (eapply grown_trans; [done|]); apply while_contents_grown; [|exact IH].
  intros r s. apply grown_refl.
Qed.

(** X4: however a call of [process_repository] ends, the set
    [processed_files] it leaves is the set it was given together with the
    paths of the files whose content it asked for, and nothing else; no path
    is ever taken out of the set. *)
Theorem processed_files_are_the_files_read depth fuel repo st :
  ∃ tr,
    trace (final (process_repository w depth fuel repo st)) = trace st ++ tr
    ∧ processed_files (final (process_repository w depth fuel repo st))
      = processed_files st ∪ list_to_set (scanned tr).
Proof. apply process_repository_grown. Qed.
End Growth.

(** ** The walk: the files it comes to *)

Section Coverage.
Context {Repository Submodule : Type} (w : world Repository Submodule).
Implicit Types (st : state Repository Submodule) (content : ContentFile)
  (rec : Repository → state Repository Submodule → outcome Repository Submodule).

Lemma loop_body_queue rec repo content contents results st :
  match loop_body w rec repo content contents results st with
  | Next contents' _ st' =>
    (type content = txt "file" → path content ∈ processed_files st')
    ∧ (∀ c, c ∈ contents → c ∈ contents')
    ∧ (type content = txt "dir" →
       ∀ l, get_contents w repo (path content) = Ok l → ∀ c, c ∈ l → c ∈ contents')
  | Stop _ => True
  end.
Proof.
  unfold loop_body.
  case_bool_decide as Hf; [case_bool_decide|case_bool_decide as Hd; [|case_bool_decide]].
  - split; [done|]. split; [done|]. intros Hd. by rewrite Hd in Hf.
  - assert (Hin : path content
                  ∈ processed_files (emit (DecodedContent (path content))
                                       (add (path content) st)))
      by (simpl; apply elem_of_union_l; by apply elem_of_singleton).
    destruct (decoded_content content);
      (split; [done|]; split; [done|]; intros Hd; by rewrite Hd in Hf).
  - destruct (get_contents w repo (path content)) as [l|e]; [|done].
    split; [done|]. split; [intros c Hc; apply elem_of_app; by left|].
    intros _ l' [= <-] c Hc. apply elem_of_app. by right.
  - repeat case_match; simplify_eq; try done; (split; [done|by split]).
  - split; [done|by split].
Qed.

Lemma while_contents_complete rec n repo contents results st results' st' :
  rec_ok rec →
  while_contents w rec n repo contents results st = Returned results' st' →
  ∀ q content,
    q ∈ contents → under w repo q content → type content = txt "file" →
    path content ∈ processed_files st'.
Proof.
  intros Hrec. revert contents results st.
  induction n as [|n IH]; intros contents results st Hret q content Hq Hu Hfile; [done|].
  destruct contents as [|c contents]; [by apply elem_of_nil in Hq|].
  rewrite while_contents_cons in Hret.
  pose proof (loop_body_queue rec repo c contents results st) as Hb.
  destruct (loop_body w rec repo c contents results st) as [contents1 results1 st1|o] eqn:Hbody.
  2:{ pose proof (loop_body_walked w rec repo c contents results st Hrec) as Hs.
      rewrite Hbody, Hret in Hs. destruct Hs as (_ & _ & Hnot). by destruct (Hnot results' st'). }
  destruct Hb as (Hpath & Htail & Hdir).
  apply elem_of_cons in Hq as [->|Hq].
  2:{ eapply IH; [done|by apply Htail|done|done]. }
  destruct Hu as [c|c l c1 c2 Hc Hl Hc1 Hu].
  - destruct (while_contents_walked w rec n repo contents1 results1 st1 Hrec)
      as (a & (Hsub & _) & _).
    rewrite Hret in Hsub. apply Hsub. by apply Hpath.
  - eapply IH; [done|by eapply Hdir|done|done].
Qed.

(** X5: when a call of [process_repository] returns, every file entry of
    the root of the repository, and of every directory of it that the
    entries of the root lead to, has its path in [processed_files]: none is
    left out.  (The entries of submodules are walked by the recursive call,
    which may end early; they are not part of this statement.) *)
Theorem returned_walk_covers_the_tree depth fuel repo st results st' :
  process_repository w depth fuel repo st = Returned results st' →
  ∀ l q content,
    get_contents w repo [] = Ok l → q ∈ l →
    under w repo q content → type content = txt "file" →
    path content ∈ processed_files st'.
Proof.
  rewrite process_repository_unfold. intros Hret l q content Hl.
  rewrite Hl in Hret. eapply while_contents_complete; [|done].
  apply nested_walked.
Qed.
End Coverage.

Lemma returned_walk_covers_the_tree_witness :
  txt "lib/x.py"
  ∈ processed_files (final (process_repository diamond_repo (recursion_limit diamond_repo) 5 Vendor start)).
Proof.
  refine (returned_walk_covers_the_tree diamond_repo 997 5 Vendor start
            [(txt "lib/x.py", Some (txt "xyz"), 1%Z, txt "token: 'xyz'")]
            (final (process_repository diamond_repo (recursion_limit diamond_repo) 5 Vendor start)) _
            [entry "dir" "lib"] (entry "dir" "lib")
            (file "lib/x.py" (txt "token: 'xyz'")) eq_refl _ _ eq_refl).
  - by vm_compute.
  - left.
  - eapply (under_dir diamond_repo Vendor (entry "dir" "lib")
              [file "lib/x.py" (txt "token: 'xyz'")]); [done|done|left|apply under_self].
Defined.

(** ** The walk: the exceptions that leave it *)

Section Failure.
Context {Repository Submodule : Type} (w : world Repository Submodule).
Implicit Types (st : state Repository Submodule) (content : ContentFile)
  (rec : Repository → state Repository Submodule → outcome Repository Submodule).




End Failure.



(** ** The walk: when it ends *)

Section Termination.
Context {Repository Submodule : Type} (w : world Repository Submodule).
Implicit Types (st : state Repository Submodule) (content : ContentFile).

Lemma shallow_unfold d repo content :
  shallow w d repo content
  = if bool_decide (type content = txt "dir") then
      match get_contents w repo (path content) with
      | Ok l =>
        match d with
        | O => false
        | S d' => forallb (shallow w d' repo) l
        end
      | Raise _ => true
      end
    else if bool_decide (type content = txt "submodule") then
      match get_submodule w repo (path content) with
      | Ok submodule =>
        match module w submodule with
        | Ok (Some sub_repo) =>
          match get_contents w sub_repo [] with
          | Ok l =>
            match d with
            | O => false
            | S d' => forallb (shallow w d' sub_repo) l
            end
          | Raise _ => true
          end
        | _ => true
        end
      | Raise _ => true
      end
    else true.
Proof. by destruct d. Qed.

Lemma cost_positive d repo content : (1 ≤ cost w d repo content)%nat.
Proof. destruct d; simpl; repeat case_match; lia. Qed.

Lemma queue_at_depth d repo (l : list ContentFile) :
  forallb (shallow w d repo) l = true →
  Forall (fun dc => shallow w dc.1 repo dc.2 = true) (pair d <$> l)
  ∧ sum_list_with (fun dc => cost w dc.1 repo dc.2) (pair d <$> l)
    = sum_list_with (cost w d repo) l
  ∧ snd <$> (pair d <$> l) = l.
Proof.
  induction l as [|c l IH]; simpl; [done|].
  intros [Hc Hl]%andb_prop. destruct (IH Hl) as (Hall & Hsum & Hsnd).
  split; [by constructor|]. split; [f_equal; exact Hsum|f_equal; exact Hsnd].
Qed.

Lemma while_contents_ends m :
  ∀ depth repo (queue : list (nat * ContentFile)),
    Forall (fun dc => shallow w dc.1 repo dc.2 = true) queue →
    (sum_list_with (fun dc => cost w dc.1 repo dc.2) queue ≤ m)%nat →
    ∀ fuel n results st,
      (m ≤ fuel)%nat → (m < n)%nat →
      finished (while_contents w (nested w depth fuel) n repo
                  (snd <$> queue) results st) = true.
Proof.
  induction m as [m IH] using lt_wf_ind.
  intros depth repo queue Hok Hsum fuel n results st Hfuel Hn.
  destruct n as [|n]; [lia|].
  destruct queue as [|[d c] queue]; [done|].
  rewrite fmap_cons. cbn [snd]. rewrite while_contents_cons.
  apply Forall_cons in Hok as [Hc Hok]. cbn [fst snd] in Hc.
  cbn [sum_list_with fst snd] in Hsum.
  pose proof (cost_positive d repo c) as Hpos.
  assert (Htail : ∀ results st,
             finished (while_contents w (nested w depth fuel) n repo
                         (snd <$> queue) results st) = true).
  { intros results' st'. apply (IH (m - 1)%nat); [lia|done|lia|lia|lia]. }
  unfold loop_body.
  case_bool_decide as Hf.
  { case_bool_decide; [apply Htail|]. destruct (decoded_content c); apply Htail. }
  rewrite shallow_unfold in Hc.
  destruct (decide (type c = txt "dir")) as [Hd|Hd].
  { rewrite (bool_decide_true _ Hd) in *.
    destruct (get_contents w repo (path c)) as [l|e] eqn:Hl; [|done].
    destruct d as [|d]; [done|].
    cbn [cost] in Hsum. rewrite bool_decide_true, Hl in Hsum by done.
    destruct (queue_at_depth d repo l Hc) as (Hall & Hcost & Hsnd).
    rewrite <- Hsnd, <- fmap_app. apply (IH (m - 1)%nat); [lia| | |lia|lia].
    - by apply Forall_app.
    - rewrite sum_list_with_app, Hcost. lia. }
  rewrite (bool_decide_false _ Hd) in *.
  destruct (decide (type c = txt "submodule")) as [Hs|Hs];
    [rewrite (bool_decide_true _ Hs) in *|rewrite (bool_decide_false _ Hs); apply Htail].
  destruct (get_submodule w repo (path c)) as [sub|e] eqn:Hsub; [|apply Htail].
  destruct (module w sub) as [[sub_repo|]|e] eqn:Hmod; [|apply Htail..].
  assert (Hrec : ∀ st, finished (nested w depth fuel sub_repo st) = true).
  { intros st'. destruct depth as [|depth]; [done|]. cbn [nested].
    rewrite process_repository_unfold.
    destruct (get_contents w sub_repo []) as [l|e] eqn:Hl; [|done].
    destruct d as [|d]; [done|].
    cbn [cost] in Hsum.
    rewrite (bool_decide_false _ Hd), bool_decide_true, Hsub, Hmod, Hl in Hsum by done.
    destruct (queue_at_depth d sub_repo l Hc) as (Hall & Hcost & Hsnd).
    rewrite <- Hsnd.
    apply (IH (sum_list_with (cost w d sub_repo) l)); [lia|done|lia|lia|lia]. }
  specialize (Hrec (emit (Module sub) (emit (GetSubmodule repo (path c)) st))).
  destruct (nested w depth fuel sub_repo _); [apply Htail..|done].
Qed.

(** X7: when no chain of directories and submodules below the root of a
    repository is longer than some [d], [process_repository] ends, whatever
    the recursion limit: from any state it returns or raises within the
    number of iterations that [cost_root] gives, and more fuel does not
    change what it does. *)
Theorem finite_tree_walk_ends d repo :
  shallow_root w d repo = true →
  ∀ depth fuel st,
    (cost_root w d repo ≤ fuel)%nat →
    finished (process_repository w depth fuel repo st) = true
    ∧ process_repository w depth fuel repo st
      = process_repository w depth (cost_root w d repo) repo st.
Proof.
  intros Hroot.
  assert (Hends : ∀ depth fuel st,
             (cost_root w d repo ≤ fuel)%nat →
             finished (process_repository w depth fuel repo st) = true).
  { intros depth fuel st. unfold shallow_root, cost_root in *.
    rewrite process_repository_unfold.
    destruct (get_contents w repo []) as [l|e] eqn:Hl; [|done].
    intros Hfuel.
    destruct (queue_at_depth d repo l Hroot) as (Hall & Hcost & Hsnd).
    rewrite <- Hsnd.
    apply (while_contents_ends (sum_list_with (cost w d repo) l)); [done|lia|lia|lia]. }
  intros depth fuel st Hfuel. split; [by apply Hends|].
  apply process_repository_mono; [done|]. by apply Hends.
Qed.
End Termination.

Lemma finite_tree_walk_ends_witness :
  finished (process_repository diamond_repo (recursion_limit diamond_repo) 12 Root start)
  = true
  ∧ process_repository diamond_repo (recursion_limit diamond_repo) 12 Root start
    = process_repository diamond_repo (recursion_limit diamond_repo)
        (cost_root diamond_repo 2 Root) Root start.
Proof.
  apply (finite_tree_walk_ends diamond_repo 2 Root); [reflexivity|vm_compute; lia].
Defined.


(** ** The driver: the exceptions that leave it *)

Section MainFailure.
Context {Repository Submodule : Type} (w : world Repository Submodule).

End MainFailure.


(** A file with a control character in the value: the finding is
    returned, and [main] fails on it before any workbook is saved. *)
Example binary_finding_stops_main :
  main control_repo 3
  = Some (Raise (txt "abc" ++ [0x01] ++ txt "def cannot be used in worksheets."),
          [GetRepo (txt "x") (txt "x"); Print (txt "Scanning repository: owner/name");
           GetContents Root []; DecodedContent (txt "blob.bin")]).
Proof. by vm_compute. Qed.


(** ** The walk: nothing is missed *)

Section Completeness.
Context {Repository Submodule : Type} (w : world Repository Submodule).
Implicit Types (st : state Repository Submodule) (content q : ContentFile)
  (rec : Repository → state Repository Submodule → outcome Repository Submodule).

Lemma under_leaf repo q content :
  type q ≠ txt "dir" → under w repo q content → content = q.
Proof. intros Hq Hu. by destruct Hu. Qed.

Lemma matches_of_same content content' :
  path content = path content' →
  decoded_content content = decoded_content content' →
  matches_of content = matches_of content'.
Proof. unfold matches_of. by intros -> ->. Qed.

Lemma plain_below repo contents contents1 :
  (∀ q1, q1 ∈ contents1 →
     ∃ q, q ∈ contents ∧ ∀ content, under w repo q1 content → under w repo q content) →
  plain w repo contents → plain w repo contents1.
Proof.
  intros Hlift [H1 H2]. split.
  - intros q1 c (q & Hq & Hup)%Hlift Hu. eapply H1; [done|by apply Hup].
  - intros q1 q1' c c' (q & Hq & Hup)%Hlift (q' & Hq' & Hup')%Hlift Hu Hu'.
    eapply H2; [exact Hq|exact Hq'|by apply Hup|by apply Hup'].
Qed.

Lemma reported_below seen repo contents contents1 results results1 st st1 :
  (∀ q1, q1 ∈ contents1 →
     ∃ q, q ∈ contents ∧ ∀ content, under w repo q1 content → under w repo q content) →
  (∀ f, f ∈ results → f ∈ results1) →
  processed_files st1 = processed_files st →
  reported w seen repo contents results st →
  reported w seen repo contents1 results1 st1.
Proof.
  intros Hlift Hres Hp J q1 c f (q & Hq & Hup)%Hlift Hu Hfile Hin Hseen Hf.
  rewrite Hp in Hin. apply Hres. eapply J; [exact Hq|by apply Hup|done..].
Qed.

Lemma tail_below repo q0 contents :
  ∀ q1, q1 ∈ contents →
    ∃ q, q ∈ q0 :: contents ∧ ∀ content, under w repo q1 content → under w repo q content.
Proof. intros q1 Hq1. exists q1. split; [by apply elem_of_cons; right|done]. Qed.

Lemma while_contents_reports rec n repo seen contents results st results' st' :
  rec_ok rec →
  while_contents w rec n repo contents results st = Returned results' st' →
  plain w repo contents →
  reported w seen repo contents results st →
  ∀ q content f,
    q ∈ contents → under w repo q content → type content = txt "file" →
    path content ∉ seen → f ∈ matches_of content → f ∈ results'.
Proof.
  intros Hrec. revert contents results st.
  induction n as [|n IH];
    intros contents results st Hret Hplain J q c f Hq Hu Hfile Hseen Hf; [done|].
  destruct contents as [|c0 contents]; [by apply elem_of_nil in Hq|].
  rewrite while_contents_cons in Hret.
  assert (Hpre : ∀ contents1 results1 st1,
             while_contents w rec n repo contents1 results1 st1 = Returned results' st' →
             ∀ g, g ∈ results1 → g ∈ results').
  { intros c1 r1 s1 Hr g Hg.
    destruct (while_contents_walked w rec n repo c1 r1 s1 Hrec) as (a & _ & Hout).
    rewrite Hr in Hout. subst results'. apply elem_of_app. by left. }
  pose proof (tail_below repo c0 contents) as Htail.
  assert (Hsub : type c0 ≠ txt "submodule").
  { apply (proj1 Hplain c0 c0); [left|apply under_self]. }
  unfold loop_body in Hret.
  destruct (decide (type c0 = txt "file")) as [Hf0|Hf0].
  { rewrite (bool_decide_true _ Hf0) in Hret.
    assert (Hd0 : type c0 ≠ txt "dir") by (by rewrite Hf0).
    destruct (decide (path c0 ∈ processed_files st)) as [Hin|Hin].
    - rewrite (bool_decide_true _ Hin) in Hret.
      apply elem_of_cons in Hq as [->|Hq].
      + apply (under_leaf _ _ _ Hd0) in Hu as ->.
        eapply Hpre; [done|]. eapply J; [left|apply under_self|done..].
      + eapply (IH contents results st); [done|by eapply plain_below| |done..].
        by eapply reported_below.
    - rewrite (bool_decide_false _ Hin) in Hret.
      set (st1 := emit (DecodedContent (path c0)) (add (path c0) st)) in *.
      assert (J1 : ∀ results1 st2,
                 processed_files st2 = processed_files st1 →
                 (∀ g, g ∈ results → g ∈ results1) →
                 (∀ g, g ∈ matches_of c0 → g ∈ results1) →
                 reported w seen repo contents results1 st2).
      { intros results1 st2 Hp2 Hold Hnew q1 c1 g Hq1 Hu1 Hfile1 Hin1 Hseen1 Hg.
        rewrite Hp2 in Hin1. simpl in Hin1.
        apply elem_of_union in Hin1 as [Heq%elem_of_singleton|Hin1].
        - apply Hnew. rewrite <- (matches_of_same c1 c0); [done|done|].
          apply (proj2 Hplain q1 c0 c1 c0); try done;
            [by apply elem_of_cons; right|left|apply under_self].
        - apply Hold. eapply J; [by apply elem_of_cons; right|done..]. }
      assert (Hown : ∀ results1 st2,
                 while_contents w rec n repo contents results1 st2
                 = Returned results' st' →
                 processed_files st2 = processed_files st1 →
                 (∀ g, g ∈ results → g ∈ results1) →
                 (∀ g, g ∈ matches_of c0 → g ∈ results1) →
                 f ∈ results').
      { intros results1 st2 Hr Hp2 Hold Hnew.
        apply elem_of_cons in Hq as [->|Hq].
        - apply (under_leaf _ _ _ Hd0) in Hu as ->. eapply Hpre; [done|]. by apply Hnew.
        - eapply (IH contents results1 st2); [done|by eapply plain_below| |done..].
          by apply J1. }
      unfold matches_of in Hown. destruct (decoded_content c0) as [b0|e0].
      + eapply Hown; [done|done| |]; rewrite append_matches_tag; intros g Hg;
          apply elem_of_app; [by left|by right].
      + eapply Hown; [done|done|done|]. by intros g ?%elem_of_nil. }
  rewrite (bool_decide_false _ Hf0) in Hret.
  destruct (decide (type c0 = txt "dir")) as [Hd0|Hd0].
  { rewrite (bool_decide_true _ Hd0) in Hret.
    destruct (get_contents w repo (path c0)) as [l|e] eqn:Hl; [|done].
    assert (Hlift : ∀ q1, q1 ∈ contents ++ l →
               ∃ q, q ∈ c0 :: contents
                    ∧ ∀ content, under w repo q1 content → under w repo q content).
    { intros q1 [Hq1|Hq1]%elem_of_app; [by apply Htail|].
      exists c0. split; [left|]. intros c1 Hu1. by eapply under_dir. }
    assert (∃ q1, q1 ∈ contents ++ l ∧ under w repo q1 c) as (q1 & Hq1 & Hu1).
    { apply elem_of_cons in Hq as [->|Hq].
      - destruct Hu as [|d l' c1 c2 _ Hl' Hc1 Hu]; [by rewrite Hfile in Hd0|].
        rewrite Hl in Hl'. injection Hl' as <-.
        exists c1. split; [apply elem_of_app; by right|done].
      - exists q. split; [apply elem_of_app; by left|done]. }
    eapply (IH (contents ++ l)); [done|by eapply plain_below| |exact Hq1|done..].
    by eapply reported_below. }
  rewrite (bool_decide_false _ Hd0), (bool_decide_false _ Hsub) in Hret.
  apply elem_of_cons in Hq as [->|Hq].
  - apply (under_leaf _ _ _ Hd0) in Hu as ->. done.
  - eapply (IH contents); [done|by eapply plain_below| |done..].
    by eapply reported_below.
Qed.

Lemma process_repository_reports depth fuel repo st results st' l :
  process_repository w depth fuel repo st = Returned results st' →
  get_contents w repo [] = Ok l →
  plain w repo l →
  ∀ q content b m,
    q ∈ l → under w repo q content → type content = txt "file" →
    path content ∉ processed_files st →
    decoded_content content = Ok b →
    m ∈ check_file_for_passwords (decode_utf8_ignore b) (path content) →
    tag (path content) m ∈ results.
Proof.
  rewrite process_repository_unfold.
  intros Hret Hl Hplain q c b m Hq Hu Hfile Hnew Hb Hm.
  rewrite Hl in Hret.
  eapply (while_contents_reports _ _ _ (processed_files st));
    [apply nested_walked|done|done| |done..|].
  - intros q1 c1 g _ _ _ Hin Hout. done.
  - unfold matches_of. rewrite Hb. by apply list_elem_of_fmap_2.
Qed.

(** X9: in a repository without submodules, where the file entries of one
    path have one content, a walk that returns has missed nothing: every
    match of every file entry below the root whose path was not in
    [processed_files] before is among the findings returned, under the path
    of that entry. *)
Theorem every_match_is_reported depth fuel repo st results st' l :
  process_repository w depth fuel repo st = Returned results st' →
  get_contents w repo [] = Ok l →
  plain w repo l →
  ∀ q content b m,
    q ∈ l → under w repo q content → type content = txt "file" →
    path content ∉ processed_files st →
    decoded_content content = Ok b →
    m ∈ check_file_for_passwords (decode_utf8_ignore b) (path content) →
    tag (path content) m ∈ results.
Proof. apply process_repository_reports. Qed.
End Completeness.


Lemma every_match_is_reported_witness :
  tag (txt "config.py") (Some (txt "abc123"), 5%Z, password_line)
  ∈ [(txt "config.py", Some (txt "abc123"), 5%Z, password_line)].
Proof.
  refine (every_match_is_reported config_repo 997 3 Root start
            [(txt "config.py", Some (txt "abc123"), 5%Z, password_line)]
            (final (process_repository config_repo (recursion_limit config_repo) 3 Root start))
            [config_file] _ eq_refl _
            config_file config_file _ (Some (txt "abc123"), 5%Z, password_line)
            _ (under_self _ _ _) eq_refl _ eq_refl _).
  - by vm_compute.
  - split.
    + intros q c ->%list_elem_of_singleton Hu.
      by apply (under_leaf config_repo Root config_file c) in Hu as ->.
    + intros q q' c c' ->%list_elem_of_singleton ->%list_elem_of_singleton Hu Hu'.
      apply (under_leaf config_repo Root config_file c) in Hu as ->; [|done].
      by apply (under_leaf config_repo Root config_file c') in Hu' as ->.
  - left.
  - apply not_elem_of_empty.
  - vm_compute. left.
Defined.


(** ** The walk: a second time *)

Section Again.
Context {Repository Submodule : Type} (w : world Repository Submodule).
Implicit Types (st : state Repository Submodule) (content : ContentFile)
  (ev : event Repository Submodule)
  (rec : Repository → state Repository Submodule → outcome Repository Submodule).

Lemma still_refl st : still st st.
Proof. split; [done|]. exists []. by rewrite app_nil_r. Qed.

Lemma still_trans st st' st'' : still st st' → still st' st'' → still st st''.
Proof.
  intros (Hp1 & tr1 & Ht1 & Hs1) (Hp2 & tr2 & Ht2 & Hs2).
  split; [by rewrite Hp2|]. exists (tr1 ++ tr2).
  rewrite Ht2, Ht1, <- app_assoc. split; [done|].
  unfold scanned in *. by rewrite omap_app, Hs1, Hs2.
Qed.

Lemma still_emit st ev : quiet ev → still st (emit ev st).
Proof.
  intros Hq. split; [done|]. exists [ev]. split; [done|].
  unfold scanned. simpl. destruct ev; try done. by destruct (Hq p).
Qed.

Lemma still_then_emit st st' ev : still st st' → quiet ev → still st (emit ev st').
Proof. intros H Hq. eapply still_trans; [done|]. by apply still_emit. Qed.

Lemma loop_body_again rec repo content contents results1 st1 results2 st2 :
  rec_ok rec →
  (∀ r s s2,
     processed_files (final (rec r s)) ⊆ processed_files s2 →
     still s2 (final (rec r s2)) ∧ returned (rec r s2) = []
     ∧ ending (rec r s2) = ending (rec r s)) →
  match loop_body w rec repo content contents results1 st1 with
  | Next _ _ s1 => processed_files s1 ⊆ processed_files st2
  | Stop o1 => processed_files (final o1) ⊆ processed_files st2
  end →
  match loop_body w rec repo content contents results1 st1,
        loop_body w rec repo content contents results2 st2 with
  | Next contents1 _ _, Next contents2 r2 s2 =>
    contents2 = contents1 ∧ r2 = results2 ∧ still st2 s2
  | Stop o1, Stop o2 =>
    still st2 (final o2) ∧ ending o2 = ending o1 ∧ ending o2 ≠ Some (Ok ())
  | _, _ => False
  end.
Proof.
  intros Hok Hrec Hsub.
  assert (Hq : ∀ line, quiet (Print line : event Repository Submodule)) by done.
  pose proof (loop_body_queue w rec repo content contents results1 st1) as Hqueue.
  unfold loop_body in *.
  destruct (decide (type content = txt "file")) as [Hf|Hf].
  { rewrite !(bool_decide_true _ Hf) in *.
    assert (Hin : path content ∈ processed_files st2).
    { case_bool_decide; [by apply Hsub|].
      destruct (decoded_content content); apply Hsub, Hqueue, Hf. }
    rewrite (bool_decide_true _ Hin).
    case_bool_decide; [|destruct (decoded_content content)];
      (split; [done|split; [done|apply still_refl]]). }
  rewrite !(bool_decide_false _ Hf) in *. clear Hqueue.
  destruct (decide (type content = txt "dir")) as [Hd|Hd].
  { rewrite !(bool_decide_true _ Hd) in *.
    destruct (get_contents w repo (path content)) as [l|e].
    - split; [done|split; [done|by apply still_emit]].
    - split; [by apply still_emit|done]. }
  rewrite !(bool_decide_false _ Hd) in *.
  destruct (decide (type content = txt "submodule")) as [Hs|Hs].
  2:{ rewrite !(bool_decide_false _ Hs) in *.
      split; [done|split; [done|by apply still_emit]]. }
  rewrite !(bool_decide_true _ Hs) in *.
  assert (Hg : still st2 (emit (GetSubmodule repo (path content)) st2))
    by by apply still_emit.
  destruct (get_submodule w repo (path content)) as [sub|e].
  2:{ split; [done|split; [done|by apply still_then_emit]]. }
  assert (Hm : still st2 (emit (Module sub)
                 (emit (GetSubmodule repo (path content)) st2)))
    by by apply still_then_emit.
  destruct (module w sub) as [[sub_repo|]|e].
  2,3: split; [done|split; [done|by apply still_then_emit]].
  set (s1 := emit (Module sub) (emit (GetSubmodule repo (path content)) st1)) in *.
  set (s2 := emit (Module sub) (emit (GetSubmodule repo (path content)) st2)) in *.
  destruct (Hrec sub_repo s1 s2) as (Hstill & Hret & Hend).
  { destruct (rec sub_repo s1); exact Hsub. }
  destruct (rec sub_repo s1) as [r1 t1|e1 t1|t1],
           (rec sub_repo s2) as [r2 t2|e2 t2|t2]; simpl in *; try done.
  - subst r2. rewrite app_nil_r. split; [done|split; [done|]].
    by eapply still_trans.
  - injection Hend as <-. split; [done|split; [done|]].
    apply still_then_emit; [|done]. by eapply still_trans.
  - split; [|done]. by eapply still_trans.
Qed.

Lemma while_contents_again rec n repo contents results1 st1 results2 st2 :
  rec_ok rec →
  (∀ r s s2,
     processed_files (final (rec r s)) ⊆ processed_files s2 →
     still s2 (final (rec r s2)) ∧ returned (rec r s2) = []
     ∧ ending (rec r s2) = ending (rec r s)) →
  processed_files (final (while_contents w rec n repo contents results1 st1))
    ⊆ processed_files st2 →
  still st2 (final (while_contents w rec n repo contents results2 st2))
  ∧ ending (while_contents w rec n repo contents results2 st2)
    = ending (while_contents w rec n repo contents results1 st1)
  ∧ (∀ r s, while_contents w rec n repo contents results2 st2 = Returned r s →
            r = results2).
Proof.
  intros Hok Hrec. revert contents results1 st1 results2 st2.
  induction n as [|n IH]; intros contents results1 st1 results2 st2 Hsub.
  { split; [apply still_refl|done]. }
  destruct contents as [|c contents].
  { split; [apply still_refl|]. split; [done|]. by intros r s [= <- _]. }
  rewrite !while_contents_cons in *.
  pose proof (loop_body_again rec repo c contents results1 st1 results2 st2 Hok Hrec)
    as Hb.
  destruct (loop_body w rec repo c contents results1 st1) as [c1 r1 s1|o1].
  - destruct (while_contents_walked w rec n repo c1 r1 s1 Hok) as (a & (Hmono & _) & _).
    specialize (Hb ltac:(by etrans)).
    destruct (loop_body w rec repo c contents results2 st2) as [c2 r2 s2|o2]; [|done].
    destruct Hb as (-> & -> & Hstill).
    destruct (IH c1 r1 s1 results2 s2) as (Hstill' & Hend & Hres).
    { by rewrite (proj1 Hstill). }
    split; [by eapply still_trans|done].
  - specialize (Hb Hsub).
    destruct (loop_body w rec repo c contents results2 st2) as [c2 r2 s2|o2]; [done|].
    destruct Hb as (Hstill & Hend & Hnot). split; [done|]. split; [done|].
    intros r s ->. done.
Qed.

Lemma process_repository_again depth fuel repo st st2 :
  processed_files (final (process_repository w depth fuel repo st))
    ⊆ processed_files st2 →
  still st2 (final (process_repository w depth fuel repo st2))
  ∧ returned (process_repository w depth fuel repo st2) = []
  ∧ ending (process_repository w depth fuel repo st2)
    = ending (process_repository w depth fuel repo st).
Proof.
  assert (Hstep : ∀ d,
             (∀ r s s2,
                processed_files (final (nested w d fuel r s)) ⊆ processed_files s2 →
                still s2 (final (nested w d fuel r s2))
                ∧ returned (nested w d fuel r s2) = []
                ∧ ending (nested w d fuel r s2) = ending (nested w d fuel r s)) →
             ∀ r s s2,
               processed_files (final (process_repository w d fuel r s))
                 ⊆ processed_files s2 →
               still s2 (final (process_repository w d fuel r s2))
               ∧ returned (process_repository w d fuel r s2) = []
               ∧ ending (process_repository w d fuel r s2)
                 = ending (process_repository w d fuel r s)).
  { intros d Hrec r s s2. rewrite !process_repository_unfold.
    assert (Hg : still s2 (emit (GetContents r []) s2)) by by apply still_emit.
    destruct (get_contents w r []) as [contents|e]; [|done].
    intros Hsub.
    destruct (while_contents_again (nested w d fuel) fuel r contents
                [] (emit (GetContents r []) s) [] (emit (GetContents r []) s2)
                (nested_walked w d fuel) Hrec Hsub) as (Hstill & Hend & Hres).
    split; [by eapply still_trans|]. split; [|done].
    destruct (while_contents w (nested w d fuel) fuel r contents []
                (emit (GetContents r []) s2)) as [r' s'| |]; [|done..].
    by apply (Hres r' s'). }
  revert repo st st2. induction depth as [|depth IH]; apply Hstep; [|exact IH].
  intros r s s2 _. split; [apply still_refl|done].
Qed.

(** X10: a walk that is made again, with a set [processed_files] that
    holds what the first walk left, ends the same way as the first, but
    reads no file, returns no finding and leaves the set as it is.  This is
    what happens to the second of two submodule links to one repository. *)
Theorem second_walk_reads_nothing depth fuel repo st st2 :
  processed_files (final (process_repository w depth fuel repo st))
    ⊆ processed_files st2 →
  (∃ tr, trace (final (process_repository w depth fuel repo st2)) = trace st2 ++ tr
         ∧ scanned tr = [])
  ∧ processed_files (final (process_repository w depth fuel repo st2))
    = processed_files st2
  ∧ returned (process_repository w depth fuel repo st2) = []
  ∧ ending (process_repository w depth fuel repo st2)
    = ending (process_repository w depth fuel repo st).
Proof.
  intros ((Hp & Htr) & Hret & Hend)%process_repository_again. done.
Qed.
End Again.

Lemma second_walk_reads_nothing_witness :
  (∃ tr, trace (final (process_repository diamond_repo (recursion_limit diamond_repo) 5 Vendor
                         (final (process_repository diamond_repo (recursion_limit diamond_repo) 5 Vendor start))))
         = trace (final (process_repository diamond_repo (recursion_limit diamond_repo) 5 Vendor start)) ++ tr
         ∧ scanned tr = [])
  ∧ processed_files (final (process_repository diamond_repo (recursion_limit diamond_repo) 5 Vendor
                              (final (process_repository diamond_repo (recursion_limit diamond_repo) 5 Vendor start))))
    = processed_files (final (process_repository diamond_repo (recursion_limit diamond_repo) 5 Vendor start))
  ∧ returned (process_repository diamond_repo (recursion_limit diamond_repo) 5 Vendor
                (final (process_repository diamond_repo (recursion_limit diamond_repo) 5 Vendor start))) = []
  ∧ ending (process_repository diamond_repo (recursion_limit diamond_repo) 5 Vendor
              (final (process_repository diamond_repo (recursion_limit diamond_repo) 5 Vendor start)))
    = ending (process_repository diamond_repo (recursion_limit diamond_repo) 5 Vendor start).
Proof.
  apply (second_walk_reads_nothing diamond_repo 997 5 Vendor start
           (final (process_repository diamond_repo (recursion_limit diamond_repo) 5 Vendor start))).
  reflexivity.
Defined.


(** ** The matcher: letter case *)

Ltac settle_comparisons :=
  repeat match goal with
         | |- context [N.eqb ?a ?b] =>
           first [rewrite (proj2 (N.eqb_neq a b)) by lia
                 |rewrite (proj2 (N.eqb_eq a b)) by lia]
         | |- context [N.leb ?a ?b] =>
           first [rewrite (proj2 (N.leb_gt a b)) by lia
                 |rewrite (proj2 (N.leb_le a b)) by lia]
         end.

Lemma upper_cases c :
  (0x61 ≤ c ≤ 0x7A ∧ upper c = c - 32) ∨ ((c < 0x61 ∨ 0x7A < c) ∧ upper c = c).
Proof.
  unfold upper. destruct (N.leb_spec 0x61 c), (N.leb_spec c 0x7A); simpl;
    [left|right..]; (split; [lia|done]).
Qed.

Lemma lower_upper c : lower (upper c) = lower c.
Proof.
  destruct (upper_cases c) as [[Hc ->]|[_ ->]]; [|done].
  unfold lower. settle_comparisons. simpl. lia.
Qed.

Lemma isspace_upper c : isspace (upper c) = isspace c.
Proof.
  destruct (upper_cases c) as [[Hc ->]|[_ ->]]; [|done].
  unfold isspace. settle_comparisons. done.
Qed.

Lemma islinebreak_upper c : islinebreak (upper c) = islinebreak c.
Proof.
  destruct (upper_cases c) as [[Hc ->]|[_ ->]]; [|done].
  unfold islinebreak. settle_comparisons. done.
Qed.

Lemma literal_match_upper l c : literal_match true l (upper c) = literal_match true l c.
Proof. unfold literal_match. by rewrite lower_upper. Qed.

Lemma in_charset_upper cs c :
  cs = spaces ∨ cs = separator ∨ cs = quote ∨ cs = value_char →
  in_charset cs (upper c) = in_charset cs c.
Proof.
  intros Hcs. destruct (upper_cases c) as [[Hc Hu]|[_ ->]]; [|done].
  pose proof (isspace_upper c) as Hs. rewrite Hu in *.
  destruct Hcs as [->|[->|[->| ->]]]; unfold in_charset; simpl; rewrite ?Hs;
    settle_comparisons; done.
Qed.

Lemma run_fmap (P : char → bool) (f : char → char) (s : str) :
  (∀ c, P (f c) = P c) → run P (f <$> s) = f <$> run P s.
Proof.
  intros HP. induction s as [|c s IH]; [done|].
  rewrite fmap_cons. simpl. rewrite HP. destruct (P c); [|done].
  by rewrite IH.
Qed.

Lemma skip_fmap (P : char → bool) (f : char → char) (s : str) :
  (∀ c, P (f c) = P c) → skip P (f <$> s) = f <$> skip P s.
Proof.
  intros HP. induction s as [|c s IH]; [done|].
  rewrite fmap_cons. simpl. rewrite HP. by destruct (P c).
Qed.

Lemma strip_word_upper K (s : str) :
  strip_word K (upper <$> s) = fmap (M:=list) upper <$> strip_word K s.
Proof.
  revert s. induction K as [|l K IH]; intros s; [done|].
  destruct s as [|c s]; [done|]. rewrite fmap_cons. simpl.
  rewrite literal_match_upper. by destruct (literal_match true l c).
Qed.

Lemma after_separator_upper (s : str) :
  after_separator (upper <$> s) = fmap (M:=list) upper <$> after_separator s.
Proof.
  unfold after_separator.
  rewrite (skip_fmap _ upper) by (intros c; apply in_charset_upper; auto).
  assert (drop_quote (upper <$> skip (in_charset spaces) s)
          = upper <$> drop_quote (skip (in_charset spaces) s)) as ->.
  { destruct (skip (in_charset spaces) s) as [|c t]; [done|].
    rewrite fmap_cons. simpl. rewrite in_charset_upper by auto.
    by destruct (in_charset quote c). }
  rewrite (run_fmap _ upper) by (intros c; apply in_charset_upper; auto).
  by destruct (run (in_charset value_char) _).
Qed.

Lemma after_word_upper (s : str) : after_word (upper <$> s) = fmap (M:=list) upper <$> after_word s.
Proof.
  unfold after_word.
  rewrite (skip_fmap _ upper) by (intros c; apply in_charset_upper; auto).
  destruct (skip (in_charset spaces) s) as [|c t]; [done|].
  rewrite fmap_cons, in_charset_upper by auto.
  destruct (in_charset separator c); [|done]. apply after_separator_upper.
Qed.

Lemma value_at_upper (s : str) : value_at (upper <$> s) = fmap (M:=list) upper <$> value_at s.
Proof.
  unfold value_at. induction keywords as [|K Ks IH]; [done|]. simpl.
  rewrite strip_word_upper, IH.
  destruct (strip_word K s) as [t|]; simpl; [|done].
  rewrite after_word_upper. by destruct (after_word t).
Qed.

Lemma find_value_upper (s : str) : find_value (upper <$> s) = fmap (M:=list) upper <$> find_value s.
Proof.
  induction s as [|c s IH].
  - by vm_compute.
  - rewrite (find_value_unfold (c :: s)), find_value_unfold, value_at_upper.
    destruct (value_at (c :: s)); [done|]. rewrite fmap_cons. exact IH.
Qed.

Lemma splitlines_upper (s : str) : splitlines (upper <$> s) = fmap (M:=list) upper <$> splitlines s.
Proof.
  induction s as [s IH] using (induction_ltof1 _ (@length _)); unfold ltof in IH.
  destruct s as [|c s]; [done|].
  rewrite fmap_cons. simpl splitlines. rewrite islinebreak_upper.
  destruct (islinebreak c) eqn:Hc.
  - destruct s as [|c' s]; [done|]. rewrite fmap_cons.
    assert (((upper c =? 0x0D) && (upper c' =? 0x0A))
            = ((c =? 0x0D) && (c' =? 0x0A))) as ->.
    { destruct (upper_cases c) as [[? ->]|[_ ->]], (upper_cases c') as [[? ->]|[_ ->]];
        try done; settle_comparisons; by rewrite ?andb_false_r. }
    destruct ((c =? 0x0D) && (c' =? 0x0A)); rewrite fmap_cons; f_equal.
    + apply IH. simpl. lia.
    + rewrite <- fmap_cons. apply IH. simpl. lia.
  - rewrite IH by (simpl; lia). by destruct (splitlines s).
Qed.

Lemma rev_fmap (f : char → char) (s : str) : rev (f <$> s) = f <$> rev s.
Proof.
  induction s as [|c s IH]; [done|]. rewrite fmap_cons. simpl.
  by rewrite IH, fmap_app.
Qed.

Lemma strip_upper (s : str) : strip (upper <$> s) = upper <$> strip s.
Proof.
  unfold strip, rstrip. rewrite !lstrip_skip.
  rewrite (skip_fmap _ upper), rev_fmap, (skip_fmap _ upper), rev_fmap;
    auto using isspace_upper.
Qed.

Lemma scan_lines_upper (start : Z) (lines : list str) :
  enumerate start (fmap (M:=list) upper <$> lines) ≫= scan_line
  = upper_match <$> (enumerate start lines ≫= scan_line).
Proof.
  revert start. induction lines as [|l ls IH]; intros start; [done|].
  rewrite fmap_cons. simpl enumerate. rewrite !bind_cons, fmap_app, IH. f_equal.
  unfold scan_line. simpl. rewrite find_value_upper, strip_upper.
  by destruct (find_value l).
Qed.

(** X11: the letter case of a file does not matter to the matcher: with
    the letters [a] to [z] of the file turned into capitals, the same lines
    match, and the values and lines reported are those of the file as it
    was, in capitals. *)
Theorem letter_case_does_not_matter (file_content file_path : str) :
  check_file_for_passwords (upper <$> file_content) file_path
  = upper_match <$> check_file_for_passwords file_content file_path.
Proof.
  rewrite !check_file_for_passwords_lines, splitlines_upper. apply scan_lines_upper.
Qed.


(** ** Decoding *)

Lemma decode_ascii (a : bytes) (bs : bytes) :
  forallb is_ascii a = true →
  decode_utf8_ignore (a ++ bs) = map Byte.to_N a ++ decode_utf8_ignore bs.
Proof.
  unfold decode_utf8_ignore. rewrite map_app.
  induction a as [|x a IH]; [done|]. simpl. unfold is_ascii at 1.
  intros [Hx Ha]%andb_prop. by rewrite Hx, IH.
Qed.

Lemma decode_stray (b : Byte.byte) (bs : bytes) :
  never_starts b = true → decode_utf8_ignore (b :: bs) = decode_utf8_ignore bs.
Proof.
  unfold never_starts, decode_utf8_ignore. simpl map.
  generalize (map Byte.to_N bs) as r0. generalize (Byte.to_N b) as n.
  intros n r0 Hn.
  assert ((n <? 0x80) = false
          ∧ ((0xC2 <=? n) && (n <=? 0xDF)) = false
          ∧ ((0xE0 <=? n) && (n <=? 0xEF)) = false
          ∧ ((0xF0 <=? n) && (n <=? 0xF4)) = false) as (H1 & H2 & H3 & H4).
  { apply orb_prop in Hn as [[Hlo Hhi]%andb_prop|Hhi].
    - apply N.leb_le in Hlo, Hhi.
      rewrite (proj2 (N.ltb_ge n 0x80)), (proj2 (N.leb_gt 0xC2 n)),
        (proj2 (N.leb_gt 0xE0 n)), (proj2 (N.leb_gt 0xF0 n)) by lia. done.
    - apply N.leb_le in Hhi.
      rewrite (proj2 (N.ltb_ge n 0x80)), (proj2 (N.leb_gt n 0xDF)),
        (proj2 (N.leb_gt n 0xEF)), (proj2 (N.leb_gt n 0xF4)) by lia.
      by rewrite !andb_false_r. }
  cbn [decode_utf8_ignore_N]. rewrite H1.
  destruct r0 as [|b1 r1]; [done|]. rewrite H2. cbn [andb].
  destruct r1 as [|b2 r2]; [done|]. rewrite H3. cbn [andb].
  destruct r2 as [|b3 r3]; [done|]. rewrite H4. done.
Qed.

(** X12: a byte that cannot start a UTF-8 sequence is dropped by the
    decoding and the ASCII text before it is kept as it is, so the file is
    scanned as if the byte were not there. *)
Theorem stray_bytes_are_dropped (a : bytes) (b : Byte.byte) (bs : bytes) :
  forallb is_ascii a = true →
  never_starts b = true →
  decode_utf8_ignore (a ++ b :: bs) = map Byte.to_N a ++ decode_utf8_ignore bs.
Proof. intros Ha Hb. by rewrite decode_ascii, decode_stray. Qed.

Lemma stray_bytes_are_dropped_witness :
  decode_utf8_ignore
    ([Byte.x70; Byte.x61; Byte.x73; Byte.x73]
     ++ Byte.xff :: [Byte.x77; Byte.x6f; Byte.x72; Byte.x64; Byte.x3d; Byte.x31])
  = map Byte.to_N [Byte.x70; Byte.x61; Byte.x73; Byte.x73]
    ++ decode_utf8_ignore [Byte.x77; Byte.x6f; Byte.x72; Byte.x64; Byte.x3d; Byte.x31].
Proof.
  exact (stray_bytes_are_dropped [Byte.x70; Byte.x61; Byte.x73; Byte.x73] Byte.xff
           [Byte.x77; Byte.x6f; Byte.x72; Byte.x64; Byte.x3d; Byte.x31] eq_refl eq_refl).
Defined.

(** ** From the file to the workbook *)

Section EndToEnd.
Context {Repository Submodule : Type} (w : world Repository Submodule).

(** X13: from the file to the workbook no match is lost.  When [main]
    returns normally after scanning a repository without submodules, where
    the file entries of one path have one content, then for every match of
    every file entry below the root a workbook was saved under the name
    [hardcoded_passwords.xlsx] that holds the row of this match: the path,
    the value, the line number and the stripped line, each text cut at
    32767 characters; so it holds them as they are when none is longer. *)
Theorem main_saves_every_match fuel github_token repo_name repo l tr :
  environ w (txt "GITHUB_TOKEN") = Some github_token → github_token ≠ [] →
  environ w (txt "GITHUB_REPO") = Some repo_name → repo_name ≠ [] →
  get_repo w github_token repo_name = Ok repo →
  get_contents w repo [] = Ok l →
  plain w repo l →
  main w fuel = Some (Ok (), tr) →
  ∀ q content b password line_number full_line,
    q ∈ l → under w repo q content → type content = txt "file" →
    decoded_content content = Ok b →
    (password, line_number, full_line)
      ∈ check_file_for_passwords (decode_utf8_ignore b) (path content) →
    ∃ wb, Save wb EXCEL_FILE ∈ tr
          ∧ [VStr (cut (path content)); of_group (cut <$> password);
             VInt line_number; VStr (cut full_line)]
            ∈ iter_rows wb
          ∧ (short (path content, password, line_number, full_line) →
             [VStr (path content); of_group password; VInt line_number; VStr full_line]
             ∈ iter_rows wb).
Proof.
  intros Ht Htne Hr Hrne Hrepo Hl Hplain Hmain q c b password n line Hq Hu Hfile Hb Hm.
  unfold main in Hmain. rewrite Ht, Hr in Hmain.
  destruct github_token as [|c1 t1]; [done|]. destruct repo_name as [|c2 t2]; [done|].
  rewrite Hrepo in Hmain. cbn [app] in Hmain.
  match type of Hmain with
  | context [process_repository w (recursion_limit w) fuel repo ?s] =>
    pose proof (process_repository_reports w (recursion_limit w) fuel repo s) as Hall;
    destruct (process_repository w (recursion_limit w) fuel repo s)
      as [results st'|e st'|st']
  end; [|done..].
  specialize (Hall results st' l eq_refl Hl Hplain q c b (password, n, line) Hq Hu Hfile
                (not_elem_of_empty _) Hb Hm).
  destruct results as [|f results]; [by apply elem_of_nil in Hall|].
  unfold write_to_excel in Hmain.
  destruct (decide (Forall (fun f => writable f = true) (f :: results))) as [Hw|Hnot].
  2:{ destruct (filled_workbook_refused _ Hnot) as (f' & s & _ & _ & _ & Hraise).
      by rewrite Hraise in Hmain. }
  rewrite (filled_workbook_written _ Hw) in Hmain.
  destruct (save w _ EXCEL_FILE); [|done].
  injection Hmain as <-. exists (sheet_of (stored <$> f :: results)).
  assert (Hrow : [VStr (cut (path c)); of_group (cut <$> password); VInt n;
                  VStr (cut line)]
                 ∈ iter_rows (sheet_of (stored <$> f :: results))).
  { rewrite iter_rows_sheet_of. unfold table. right.
    apply (list_elem_of_fmap_2 stored), (list_elem_of_fmap_2 row_of) in Hall.
    exact Hall. }
  split; [|split; [done|]].
  - apply elem_of_app. left. apply elem_of_app. right. left.
  - intros Hshort%stored_short. by injection Hshort as <- <- <-.
Qed.
End EndToEnd.

Lemma main_saves_every_match_witness :
  ∃ wb, Save wb EXCEL_FILE ∈ config_trace
        ∧ [VStr (cut (path config_file)); of_group (cut <$> Some (txt "abc123")); VInt 5;
           VStr (cut password_line)]
          ∈ iter_rows wb
        ∧ (short (path config_file, Some (txt "abc123"), 5%Z, password_line) →
           [VStr (path config_file); of_group (Some (txt "abc123")); VInt 5;
            VStr password_line]
           ∈ iter_rows wb).
Proof.
  refine (main_saves_every_match config_repo 3 (txt "x") (txt "x") Root [config_file]
            config_trace eq_refl _ eq_refl _ eq_refl eq_refl _ _
            config_file config_file _ (Some (txt "abc123")) 5%Z password_line
            _ (under_self _ _ _) eq_refl eq_refl _).
  - discriminate.
  - discriminate.
  - split.
    + intros q c ->%list_elem_of_singleton Hu.
      by apply (under_leaf config_repo Root config_file c) in Hu as ->.
    + intros q q' c c' ->%list_elem_of_singleton ->%list_elem_of_singleton Hu Hu'.
      apply (under_leaf config_repo Root config_file c) in Hu as ->; [|done].
      by apply (under_leaf config_repo Root config_file c') in Hu' as ->.
  - by vm_compute.
  - left.
  - vm_compute. left.
Defined.


(** ** The walk: the order of the findings *)

Section Layout.
Context {Repository Submodule : Type} (w : world Repository Submodule).
Implicit Types (st : state Repository Submodule) (content : ContentFile)
  (ev : event Repository Submodule) (tr : list (event Repository Submodule))
  (rec : Repository → state Repository Submodule → outcome Repository Submodule).

Lemma grouped_quiet tr : scanned tr = [] → grouped tr [].
Proof. intros Hs. exists []. by rewrite Hs. Qed.

Lemma grouped_app tr1 tr2 a1 a2 :
  grouped tr1 a1 → grouped tr2 a2 → grouped (tr1 ++ tr2) (a1 ++ a2).
Proof.
  intros (g1 & Hp1 & -> & Hs1) (g2 & Hp2 & -> & Hs2). exists (g1 ++ g2).
  split; [|split].
  - unfold scanned in *. by rewrite fmap_app, omap_app, Hp1, Hp2.
  - by rewrite bind_app.
  - by apply Forall_app.
Qed.

Lemma grouped_drop tr a : grouped tr a → grouped tr [].
Proof.
  intros (g & Hp & _ & _). exists ((fun x => (x.1, [])) <$> g). split; [|split].
  - rewrite <- Hp, <- list_fmap_compose. by apply list_fmap_ext.
  - clear Hp. induction g as [|x g IH]; [done|]. rewrite fmap_cons, bind_cons. done.
  - apply Forall_fmap, Forall_true. intros x. simpl. constructor.
Qed.

Lemma grouped_scan p (ms : list line_match) :
  StronglySorted Z.lt (line_no <$> ms) →
  grouped ([DecodedContent p] : list (event Repository Submodule)) (tag p <$> ms).
Proof.
  intros Hs. exists [(p, ms)]. split; [done|]. split.
  - rewrite bind_cons. simpl. by rewrite app_nil_r.
  - by constructor.
Qed.

Lemma laid_refl st : laid st st [].
Proof. exists []. rewrite app_nil_r. split; [done|]. by apply grouped_quiet. Qed.

Lemma laid_trans st st' st'' a1 a2 :
  laid st st' a1 → laid st' st'' a2 → laid st st'' (a1 ++ a2).
Proof.
  intros (tr1 & Ht1 & Hg1) (tr2 & Ht2 & Hg2). exists (tr1 ++ tr2).
  rewrite Ht2, Ht1, <- app_assoc. split; [done|]. by apply grouped_app.
Qed.

Lemma laid_drop st st' a : laid st st' a → laid st st' [].
Proof. intros (tr & Ht & Hg). exists tr. split; [done|]. by eapply grouped_drop. Qed.

Lemma laid_emit st ev : quiet ev → laid st (emit ev st) [].
Proof.
  intros Hq. exists [ev]. split; [done|]. apply grouped_quiet.
  unfold scanned. simpl. destruct ev; try done. by destruct (Hq p).
Qed.

Lemma laid_then_emit st st' a ev : laid st st' a → quiet ev → laid st (emit ev st') a.
Proof.
  intros H Hq. rewrite <- (app_nil_r a). eapply laid_trans; [done|]. by apply laid_emit.
Qed.

Lemma laid_scan st p (ms : list line_match) :
  StronglySorted Z.lt (line_no <$> ms) →
  laid st (emit (DecodedContent p) (add p st)) (tag p <$> ms).
Proof. intros Hs. exists [DecodedContent p]. split; [done|]. by apply grouped_scan. Qed.

Lemma loop_body_laid rec repo content contents results st :
  (∀ r s, laid s (final (rec r s)) (returned (rec r s))) →
  match loop_body w rec repo content contents results st with
  | Next _ results' st' => ∃ a, results' = results ++ a ∧ laid st st' a
  | Stop o => laid st (final o) [] ∧ ∀ results' st', o ≠ Returned results' st'
  end.
Proof.
  intros Hrec. unfold loop_body.
  assert (Hq : ∀ line, quiet (Print line : event Repository Submodule)) by done.
  case_bool_decide; [case_bool_decide|case_bool_decide; [|case_bool_decide]].
  - exists []. rewrite app_nil_r. split; [done|apply laid_refl].
  - destruct (decoded_content content) as [b|e].
    + eexists. rewrite append_matches_tag. split; [done|].
      apply laid_scan. rewrite check_file_for_passwords_lines.
      apply scanned_lines_sorted.
    + exists []. rewrite app_nil_r. split; [done|].
      apply laid_then_emit; [|done].
      change (@nil finding) with (tag (path content) <$> @nil line_match).
      apply laid_scan. constructor.
  - destruct (get_contents w repo (path content)).
    + exists []. rewrite app_nil_r. split; [done|]. by apply laid_emit.
    + split; [by apply laid_emit|done].
  - assert (Hg : laid st (emit (GetSubmodule repo (path content)) st) [])
      by by apply laid_emit.
    destruct (get_submodule w repo (path content)) as [sub|e].
    2:{ exists []. rewrite app_nil_r. split; [done|]. by apply laid_then_emit. }
    assert (Hm : laid st (emit (Module sub)
                   (emit (GetSubmodule repo (path content)) st)) [])
      by by apply laid_then_emit.
    destruct (module w sub) as [[sub_repo|]|e].
    + pose proof (Hrec sub_repo (emit (Module sub)
                    (emit (GetSubmodule repo (path content)) st))) as Hr.
      destruct (rec sub_repo _) as [sub_results st'|e st'|st']; simpl in Hr.
      * exists sub_results. split; [done|].
        change sub_results with ([] ++ sub_results). by eapply laid_trans.
      * exists []. rewrite app_nil_r. split; [done|].
        apply laid_then_emit; [|done].
        change (@nil finding) with (@nil finding ++ []). by eapply laid_trans.
      * split; [|done].
        change (@nil finding) with (@nil finding ++ []). by eapply laid_trans.
    + exists []. rewrite app_nil_r. split; [done|]. by apply laid_then_emit.
    + exists []. rewrite app_nil_r. split; [done|]. by apply laid_then_emit.
  - exists []. rewrite app_nil_r. split; [done|]. by apply laid_emit.
Qed.

Lemma while_contents_laid rec n repo contents results st :
  (∀ r s, laid s (final (rec r s)) (returned (rec r s))) →
  ∃ a, laid st (final (while_contents w rec n repo contents results st)) a
       ∧ match while_contents w rec n repo contents results st with
         | Returned results' _ => results' = results ++ a
         | _ => True
         end.
Proof.
  intros Hrec. revert contents results st.
  induction n as [|n IH]; intros contents results st.
  { exists []. split; [apply laid_refl|done]. }
  destruct contents as [|content contents].
  { exists []. split; [apply laid_refl|]. simpl. by rewrite app_nil_r. }
  rewrite while_contents_cons.
  pose proof (loop_body_laid rec repo content contents results st Hrec) as Hb.
  destruct (loop_body w rec repo content contents results st) as [c r s|o].
  - destruct Hb as (a1 & -> & H1). destruct (IH c (results ++ a1) s) as (a2 & H2 & Hout).
    exists (a1 ++ a2). split; [by eapply laid_trans|].
    destruct (while_contents w rec n repo c (results ++ a1) s); try done.
    by rewrite app_assoc.
  - destruct Hb as (Hw & Hnot). exists []. split; [done|].
    destruct o as [results' st'| |]; [|done..]. by destruct (Hnot results' st').
Qed.

Lemma process_repository_laid depth fuel repo st :
  laid st (final (process_repository w depth fuel repo st))
    (returned (process_repository w depth fuel repo st)).
Proof.
  assert (Hstep : ∀ d,
             (∀ r s, laid s (final (nested w d fuel r s))
                       (returned (nested w d fuel r s))) →
             ∀ r s, laid s (final (process_repository w d fuel r s))
                      (returned (process_repository w d fuel r s))).
  { intros d Hrec r s. rewrite process_repository_unfold.
    assert (Hg : laid s (emit (GetContents r []) s) []) by by apply laid_emit.
    destruct (get_contents w r []) as [contents|e]; [|done].
    destruct (while_contents_laid (nested w d fuel) fuel r contents []
                (emit (GetContents r []) s) Hrec) as (a & Ha & Hout).
    destruct (while_contents w (nested w d fuel) fuel r contents []
                (emit (GetContents r []) s)) as [results st'|e st'|st']; simpl in *.
    - rewrite Hout. change a with ([] ++ a). by eapply laid_trans.
    - apply (laid_drop _ _ ([] ++ a)). by eapply laid_trans.
    - apply (laid_drop _ _ ([] ++ a)). by eapply laid_trans. }
  revert repo st. induction depth as [|depth IH]; apply Hstep; [|exact IH].
  intros r s. apply laid_refl.
Qed.

(** X14: the findings that [process_repository] returns are laid out file
    by file: the files come in the order in which their content was read,
    the findings of one file stand together under its path, and within a
    file the line numbers increase. *)
Theorem findings_are_grouped_by_file depth fuel repo st :
  ∃ tr (groups : list (str * list line_match)),
    trace (final (process_repository w depth fuel repo st)) = trace st ++ tr
    ∧ groups.*1 = scanned tr
    ∧ returned (process_repository w depth fuel repo st)
      = groups ≫= (fun g => tag g.1 <$> g.2)
    ∧ Forall (fun g => StronglySorted Z.lt (line_no <$> g.2)) groups.
Proof.
  destruct (process_repository_laid depth fuel repo st) as (tr & Ht & groups & Hg).
  by exists tr, groups.
Qed.
End Layout.
